(** * NeuroScreenCaster: the synthesis core of the timeline editor

    A shallow embedding of the editor's pure functions (the [Edit] screen:
    geometry clamps, cursor pipeline, segment model, spring camera
    integrator, timeline drag, the handlers that add and edit segments, the
    bars of the timeline) and of the QA smoke script's verdict, with the
    properties the specification states about them and further properties
    read off the code.

    Number model.  A JavaScript [number] is embedded as an exact rational
    ([Q]): every arithmetic operation of the source is the corresponding
    field operation, comparisons are the decidable order of [Q], and
    [NaN]/infinities do not exist.  Equality of computed numbers is therefore
    stated with [==] ([Qeq]), or with Leibniz equality where the code merely
    selects one of its operands ([Math.min], [Math.max], [clamp]).  The
    code computes in binary64: it rounds each operation, and a spring that
    is not stable can overflow.  Statements about order, bounds, shape and
    the formulas the code evaluates carry over up to that rounding; where a
    statement is about exact equality of computed numbers (the smoothing
    contract), the loop is given a second time over Rocq's primitive
    binary64 floats ([Binary64]) and both are stated.  Nothing here is stated
    about runs that overflow. *)

From Stdlib Require Import String.
From Stdlib Require PrimFloat.
From Stdlib Require Import QArith Qminmax Qround Qabs Lqa Lia ZArith.
From Stdlib Require Import List Bool Sorted Permutation.
Import ListNotations.
Open Scope Q_scope.

(** ** JavaScript number helpers *)

(** [a <= b] and [a < b] as the tests the source branches on. *)
Definition Qleb (a b : Q) : bool := Qle_bool a b.
Definition Qltb (a b : Q) : bool := negb (Qle_bool b a).

(** [Math.round]: nearest integer, ties towards plus infinity. *)
Definition Math_round (x : Q) : Q := inject_Z (Qfloor (x + (1 # 2))).

(** [function clamp(value, min, max) { return Math.min(Math.max(value, min), max); }] *)
Definition clamp (value min max : Q) : Q := Qmin (Qmax value min) max.

(** ** Constants of the editor *)

Definition MIN_RECT_SIZE : Q := 0.05.
Definition MIN_SEGMENT_MS : Q := 200.
Definition PREVIEW_SPRING_FPS : Q := 60.
Definition EFFECTIVE_ZOOM_EPSILON : Q := 0.001.
Definition CLICK_PULSE_MIN_SCALE : Q := 0.82.
Definition CLICK_PULSE_TOTAL_MS : Q := 150.
Definition CLICK_PULSE_DOWN_MS : Q := 65.
Definition MIN_SEGMENT_GAP_MS : Q := 200.

(** * Data model *)

(** [NormalizedRect {x, y, width, height}]. *)
Record NormalizedRect : Type := mkRect {
  rect_x : Q;
  rect_y : Q;
  rect_width : Q;
  rect_height : Q
}.

Record TargetPoint : Type := mkTargetPoint {
  tp_ts : Q;
  tp_rect : NormalizedRect
}.

Record PanKeyframe : Type := mkPanKeyframe {
  kf_ts : Q;
  offsetX : Q;
  offsetY : Q
}.

Record CameraSpring : Type := mkSpring {
  mass : Q;
  stiffness : Q;
  damping : Q
}.

Inductive ZoomMode : Type := Fixed | FollowCursor.
Inductive ZoomTrigger : Type := AutoClick | AutoScroll | Manual.

(** [ZoomSegment].  Optional fields are options; the optional arrays
    [targetPoints] and [panTrajectory] are only ever read through
    [?? []], so a missing array is the empty list. *)
Record ZoomSegment : Type := mkSegment {
  id : string;
  startTs : Q;
  endTs : Q;
  initialRect : option NormalizedRect;
  targetRect : option NormalizedRect;
  targetPoints : list TargetPoint;
  spring : option CameraSpring;
  panTrajectory : list PanKeyframe;
  isAuto : bool;
  mode : option ZoomMode;
  trigger : option ZoomTrigger
}.

Record CursorSample : Type := mkCursorSample {
  cs_ts : Q;
  cs_x : Q;
  cs_y : Q
}.

(** The telemetry events; only the fields the editor reads are kept. *)
Inductive InputEvent : Type :=
  | EvMove (ts x y : Q)
  | EvClick (ts x y : Q)
  | EvMouseUp (ts x y : Q)
  | EvScroll (ts x y : Q)
  | EvKeyDown (ts : Q) (keyCode : string)
  | EvKeyUp (ts : Q) (keyCode : string).

Record EventsFile : Type := mkEventsFile {
  screenWidth : Q;
  screenHeight : Q;
  scaleFactor : Q;
  events : list InputEvent
}.

Definition DEFAULT_RECT : NormalizedRect := mkRect 0.2 0.2 0.6 0.6.
Definition FULL_RECT : NormalizedRect := mkRect 0 0 1 1.
Definition DEFAULT_SPRING : CameraSpring := mkSpring 1 170 26.
Definition DEFAULT_SEGMENT_MODE : ZoomMode := Fixed.
Definition DEFAULT_SEGMENT_TRIGGER : ZoomTrigger := Manual.

(** * Arrays *)

(** [array.sort((a, b) => key(a) - key(b))]: the stable sort by [key]
    (an insertion sort; [Array.prototype.sort] is stable). *)
Fixpoint insertBy {A : Type} (key : A -> Q) (a : A) (l : list A) : list A :=
  match l with
  | [] => [a]
  | b :: l' => if Qleb (key a) (key b) then a :: l else b :: insertBy key a l'
  end.

Definition sortBy {A : Type} (key : A -> Q) (l : list A) : list A :=
  fold_right (insertBy key) [] l.

(** Order of two elements by [key]. *)
Definition keyLe {A : Type} (key : A -> Q) (a b : A) : Prop := key a <= key b.

(** [array.findIndex(p)]: the first index satisfying [p], or [-1]. *)
Fixpoint findIndex {A : Type} (p : A -> bool) (l : list A) : Z :=
  match l with
  | [] => (-1)%Z
  | a :: l' =>
      if p a then 0%Z
      else let r := findIndex p l' in if (r <? 0)%Z then (-1)%Z else (r + 1)%Z
  end.

(** * Geometry *)

Definition normalizeRect (rect : NormalizedRect) : NormalizedRect :=
  let width := clamp (rect_width rect) MIN_RECT_SIZE 1 in
  let height := clamp (rect_height rect) MIN_RECT_SIZE 1 in
  let x := clamp (rect_x rect) 0 (1 - width) in
  let y := clamp (rect_y rect) 0 (1 - height) in
  mkRect x y width height.

(** [1 / Math.max(rect.width, rect.height)]. *)
Definition getZoomStrength (rect : NormalizedRect) : Q :=
  1 / Qmax (rect_width rect) (rect_height rect).

(** The invariants of a [NormalizedRect], with the tolerance of the
    specification on the far edges. *)
Definition rectValid (r : NormalizedRect) : Prop :=
  0.05 <= rect_width r <= 1 /\ 0.05 <= rect_height r <= 1 /\
  0 <= rect_x r /\ 0 <= rect_y r /\
  rect_x r + rect_width r <= 1 + 0.000001 /\
  rect_y r + rect_height r <= 1 + 0.000001.

Definition rectValidb (r : NormalizedRect) : bool :=
  Qleb 0.05 (rect_width r) && Qleb (rect_width r) 1 &&
  Qleb 0.05 (rect_height r) && Qleb (rect_height r) 1 &&
  Qleb 0 (rect_x r) && Qleb 0 (rect_y r) &&
  Qleb (rect_x r + rect_width r) (1 + 0.000001) &&
  Qleb (rect_y r + rect_height r) (1 + 0.000001).
(** * Cursor pipeline: the click pulse *)

(** The [while (low <= high)] loop of [sampleClickPulseScale]: a binary
    search for the last index whose click time is at most [ts].  The loop
    state is [(low, high, nearestIndex)]; [fuel] bounds the iterations and
    [None] means the bound was reached before the loop ended. *)
Fixpoint searchLatestClick (fuel : nat) (clickTimestamps : list Q) (ts : Q)
    (low high nearestIndex : Z) : option Z :=
  if (high <? low)%Z then Some nearestIndex
  else
    match fuel with
    | O => None
    | S fuel' =>
        let mid := ((low + high) / 2)%Z in
        let clickTs := nth (Z.to_nat mid) clickTimestamps 0 in
        if Qleb clickTs ts
        then searchLatestClick fuel' clickTimestamps ts (mid + 1)%Z high mid
        else searchLatestClick fuel' clickTimestamps ts low (mid - 1)%Z nearestIndex
    end.

(** The part of [sampleClickPulseScale] after the search, as a function of
    [dt = ts - clickTimestamps[nearestIndex]]. *)
Definition pulseScaleAt (dt : Q) : Q :=
  if Qltb dt 0 || Qltb CLICK_PULSE_TOTAL_MS dt then 1
  else if Qleb dt CLICK_PULSE_DOWN_MS then
    let t := dt / CLICK_PULSE_DOWN_MS in
    1 - (1 - CLICK_PULSE_MIN_SCALE) * t
  else
    let upDuration := Qmax 1 (CLICK_PULSE_TOTAL_MS - CLICK_PULSE_DOWN_MS) in
    let t := (dt - CLICK_PULSE_DOWN_MS) / upDuration in
    CLICK_PULSE_MIN_SCALE + (1 - CLICK_PULSE_MIN_SCALE) * t.

Definition sampleClickPulseScale (clickTimestamps : list Q) (ts : Q) : option Q :=
  match clickTimestamps with
  | [] => Some 1
  | _ :: _ =>
      let n := length clickTimestamps in
      match searchLatestClick n clickTimestamps ts 0 (Z.of_nat n - 1) (-1) with
      | None => None
      | Some nearestIndex =>
          if (nearestIndex <? 0)%Z then Some 1
          else Some (pulseScaleAt (ts - nth (Z.to_nat nearestIndex) clickTimestamps 0))
      end
  end.


(** [tc] is the latest click at or before the sample time [ts]. *)
Definition latestClick (clicks : list Q) (tc ts : Q) : Prop :=
  In tc clicks /\ tc <= ts /\ forall c, In c clicks -> c <= tc \/ ts < c.

(** * Cursor pipeline: sample extraction and smoothing *)

(** The [for (const event of eventsFile.events)] loop of
    [extractCursorSamples]: pointer events become samples normalized to
    the screen size. *)
Definition pointerSample (screenWidth screenHeight : Q) (event : InputEvent)
    : list CursorSample :=
  match event with
  | EvMove ts x y | EvClick ts x y | EvMouseUp ts x y | EvScroll ts x y =>
      [mkCursorSample ts (clamp (x / screenWidth) 0 1) (clamp (y / screenHeight) 0 1)]
  | EvKeyDown _ _ | EvKeyUp _ _ => []
  end.

Definition normalizedSamples (eventsFile : EventsFile) : list CursorSample :=
  flat_map (pointerSample (screenWidth eventsFile) (screenHeight eventsFile))
           (events eventsFile).

(** The smoothing loop, from [index = 1]; the state is
    [(smoothedX, smoothedY)]. *)
Fixpoint smoothSamples (alpha smoothedX smoothedY : Q) (rest : list CursorSample)
    : list CursorSample :=
  match rest with
  | [] => []
  | sample :: rest' =>
      let smoothedX' := smoothedX + alpha * (cs_x sample - smoothedX) in
      let smoothedY' := smoothedY + alpha * (cs_y sample - smoothedY) in
      mkCursorSample (cs_ts sample) smoothedX' smoothedY'
        :: smoothSamples alpha smoothedX' smoothedY' rest'
  end.

Definition extractCursorSamples (eventsFile : option EventsFile) (smoothingFactor : Q)
    : list CursorSample :=
  match eventsFile with
  | None => []
  | Some file =>
      if Qleb (screenWidth file) 0 || Qleb (screenHeight file) 0 then []
      else
        let sorted := sortBy cs_ts (normalizedSamples file) in
        match sorted with
        | [] | [_] => sorted
        | first :: rest =>
            (* 0.0 = no smoothing, 1.0 = maximum smoothing. *)
            let factor := clamp smoothingFactor 0 1 in
            let alpha := 1 - factor * 0.9 in
            first :: smoothSamples alpha (cs_x first) (cs_y first) rest
        end
  end.

(** Two samples carry the same time and the same position. *)
Definition sampleEq (a b : CursorSample) : Prop :=
  cs_ts a = cs_ts b /\ cs_x a == cs_x b /\ cs_y a == cs_y b.

Definition emptySample : CursorSample := mkCursorSample 0 0 0.

(** A small recording: three pointer events out of order and a key press,
    on a 100 x 100 screen. *)
Definition demoEvents : EventsFile :=
  mkEventsFile 100 100 1
    [EvMove 0 10 10; EvClick 5 50 50; EvKeyDown 6 "a"; EvMove 3 20 80].
(** * Segment model *)

Definition eqMode (a b : ZoomMode) : bool :=
  match a, b with
  | Fixed, Fixed | FollowCursor, FollowCursor => true
  | _, _ => false
  end.

Definition normalizeSegmentMode (mode : option ZoomMode) : ZoomMode :=
  match mode with
  | Some FollowCursor => FollowCursor
  | _ => DEFAULT_SEGMENT_MODE
  end.

Definition normalizeSegmentTrigger (trigger : option ZoomTrigger) (isAuto : bool)
    : ZoomTrigger :=
  match trigger with
  | Some t => t
  | None => if isAuto then AutoClick else DEFAULT_SEGMENT_TRIGGER
  end.

Definition normalizeZoomSegment (segment : ZoomSegment) : ZoomSegment :=
  let normalizedMode := normalizeSegmentMode (mode segment) in
  let mode' := if isAuto segment then FollowCursor else normalizedMode in
  mkSegment (id segment) (startTs segment) (endTs segment) (initialRect segment)
    (targetRect segment) (targetPoints segment) (spring segment)
    (panTrajectory segment) (isAuto segment) (Some mode')
    (Some (normalizeSegmentTrigger (trigger segment) (isAuto segment))).

(** [normalizeRect(segment.initialRect ?? segment.targetRect ?? DEFAULT_RECT)]. *)
Definition getSegmentBaseRect (segment : ZoomSegment) : NormalizedRect :=
  normalizeRect
    match initialRect segment with
    | Some r => r
    | None => match targetRect segment with Some r => r | None => DEFAULT_RECT end
    end.

(** Every number is finite here, so the [Number.isFinite] tests of the
    source always take their first branch. *)
Definition normalizeSpring (spring : option CameraSpring) : CameraSpring :=
  match spring with
  | None => DEFAULT_SPRING
  | Some s =>
      mkSpring (clamp (mass s) 0.001 50) (clamp (stiffness s) 0.001 5000)
        (clamp (damping s) 0 500)
  end.

Definition getSortedPanTrajectory (segment : ZoomSegment) : list PanKeyframe :=
  sortBy kf_ts (panTrajectory segment).

(** The [for] loop of [panOffsetAtTime] over adjacent keyframes
    [trajectory[index]] and [trajectory[index + 1]]. *)
Fixpoint panOffsetScan (trajectory : list PanKeyframe) (ts : Q) (last : PanKeyframe)
    : Q * Q :=
  match trajectory with
  | leftKf :: ((rightKf :: _) as rest) =>
      if Qltb ts (kf_ts leftKf) || Qltb (kf_ts rightKf) ts
      then panOffsetScan rest ts last
      else
        let span := kf_ts rightKf - kf_ts leftKf in
        if Qleb span 0 then (offsetX rightKf, offsetY rightKf)
        else
          let t := (ts - kf_ts leftKf) / span in
          (offsetX leftKf + (offsetX rightKf - offsetX leftKf) * t,
           offsetY leftKf + (offsetY rightKf - offsetY leftKf) * t)
  | _ => (offsetX last, offsetY last)
  end.

Definition panOffsetAtTime (trajectory : list PanKeyframe) (ts : Q) : Q * Q :=
  match trajectory with
  | [] => (0, 0)
  | first :: _ =>
      if Qleb ts (kf_ts first) then (0, 0)
      else
        let last := List.last trajectory first in
        if Qleb (kf_ts last) ts then (offsetX last, offsetY last)
        else panOffsetScan trajectory ts last
  end.

Definition getLegacyPanRectAtTimelineTs (segment : ZoomSegment) (timelineTs : Q)
    : NormalizedRect :=
  let base := getSegmentBaseRect segment in
  let '(offX, offY) := panOffsetAtTime (getSortedPanTrajectory segment) timelineTs in
  normalizeRect
    (mkRect (rect_x base + offX) (rect_y base + offY) (rect_width base) (rect_height base)).

Definition getSegmentTargetPoints (segment : ZoomSegment) : list TargetPoint :=
  let explicitPoints :=
    sortBy tp_ts
      (map (fun point =>
              mkTargetPoint (clamp (tp_ts point) (startTs segment) (endTs segment))
                (normalizeRect (tp_rect point)))
           (targetPoints segment)) in
  match explicitPoints with
  | first :: _ =>
      let points :=
        (if Qltb (startTs segment) (tp_ts first)
         then [mkTargetPoint (startTs segment) (tp_rect first)] else [])
        ++ explicitPoints in
      let last := List.last points first in
      if Qltb (tp_ts last) (endTs segment)
      then points ++ [mkTargetPoint (endTs segment) (tp_rect last)]
      else points
  | [] =>
      let legacyPan := getSortedPanTrajectory segment in
      match legacyPan with
      | [] =>
          let baseRect := getSegmentBaseRect segment in
          [mkTargetPoint (startTs segment) baseRect;
           mkTargetPoint (endTs segment) baseRect]
      | _ :: _ =>
          let startRect := getLegacyPanRectAtTimelineTs segment (startTs segment) in
          let inside :=
            filter (fun keyframe =>
                      negb (Qltb (kf_ts keyframe) (startTs segment)
                            || Qltb (endTs segment) (kf_ts keyframe)))
                   legacyPan in
          let endRect := getLegacyPanRectAtTimelineTs segment (endTs segment) in
          sortBy tp_ts
            ([mkTargetPoint (startTs segment) startRect]
             ++ map (fun keyframe =>
                       mkTargetPoint (kf_ts keyframe)
                         (getLegacyPanRectAtTimelineTs segment (kf_ts keyframe)))
                    inside
             ++ [mkTargetPoint (endTs segment) endRect])
      end
  end.

(** [getZoomStrength(point.rect) > 1 + EFFECTIVE_ZOOM_EPSILON]. *)
Definition isEffectivePoint (point : TargetPoint) : bool :=
  Qltb (1 + EFFECTIVE_ZOOM_EPSILON) (getZoomStrength (tp_rect point)).

(** [trimAutoNoopSegment]; [None] is the source's [null]. *)
Definition trimAutoNoopSegment (segment : ZoomSegment) : option ZoomSegment :=
  if negb (isAuto segment) then Some segment
  else
    let points := getSegmentTargetPoints segment in
    match points with
    | [] => Some segment
    | p0 :: _ =>
        let firstEffectiveIndex := findIndex isEffectivePoint points in
        if (firstEffectiveIndex <? 0)%Z then None
        else
          let effectiveStartTs :=
            clamp (tp_ts (nth (Z.to_nat firstEffectiveIndex) points p0))
                  (startTs segment) (endTs segment) in
          if Qleb (endTs segment) effectiveStartTs then None
          else
            let trimmedPoints :=
              map (fun point =>
                     mkTargetPoint (clamp (tp_ts point) effectiveStartTs (endTs segment))
                       (normalizeRect (tp_rect point)))
                  (filter (fun point => Qleb effectiveStartTs (tp_ts point)) points) in
            match trimmedPoints with
            | [] => None
            | t0 :: _ =>
                let trimmedPoints1 :=
                  if Qltb effectiveStartTs (tp_ts t0)
                  then mkTargetPoint effectiveStartTs (tp_rect t0) :: trimmedPoints
                  else trimmedPoints in
                let lastPoint := List.last trimmedPoints1 t0 in
                let trimmedPoints2 :=
                  if Qltb (tp_ts lastPoint) (endTs segment)
                  then trimmedPoints1 ++ [mkTargetPoint (endTs segment) (tp_rect lastPoint)]
                  else trimmedPoints1 in
                Some (mkSegment (id segment) effectiveStartTs (endTs segment)
                        (Some (tp_rect (hd t0 trimmedPoints2)))
                        (targetRect segment) trimmedPoints2 (spring segment)
                        (panTrajectory segment) (isAuto segment) (mode segment)
                        (trigger segment))
            end
    end.

(** [sortSegments]: normalize, trim, drop the [null]s, sort by start. *)
Definition sortSegments (segments : list ZoomSegment) : list ZoomSegment :=
  sortBy startTs
    (flat_map (fun segment =>
                 match trimAutoNoopSegment (normalizeZoomSegment segment) with
                 | Some s => [s]
                 | None => []
                 end)
              segments).

Record NeighborBounds : Type := mkNeighbors {
  prevEndTs : Q;
  nextStartTs : Q
}.

Definition getSegmentNeighborBounds (segments : list ZoomSegment) (segmentId : string)
    (timelineDurationMs : Q) : NeighborBounds :=
  let sorted := sortBy startTs segments in
  let index := findIndex (fun segment => String.eqb (id segment) segmentId) sorted in
  if (index <? 0)%Z then mkNeighbors 0 (Qmax 0 timelineDurationMs)
  else
    let i := Z.to_nat index in
    mkNeighbors
      (if (0 <? index)%Z
       then match nth_error sorted (i - 1) with Some s => endTs s | None => 0 end
       else 0)
      (match nth_error sorted (i + 1) with
       | Some s => startTs s
       | None => Qmax 0 timelineDurationMs
       end).

Record Gap : Type := mkGap {
  gap_start : Q;
  gap_end : Q
}.

Record Slot : Type := mkSlot {
  slot_startTs : Q;
  slot_endTs : Q
}.

(** The [for (const segment of sorted)] loop of [findAvailableGapForSegment];
    the state is [(cursor, gaps)]. *)
Fixpoint scanGaps (sorted : list ZoomSegment) (safeDuration cursor : Q) (gaps : list Gap)
    : Q * list Gap :=
  match sorted with
  | [] => (cursor, gaps)
  | segment :: rest =>
      let segStart := clamp (startTs segment) 0 safeDuration in
      let segEnd := clamp (endTs segment) 0 safeDuration in
      let gaps' :=
        if Qltb cursor segStart then
          let gapStart := if Qleb cursor 0 then 0 else cursor + MIN_SEGMENT_GAP_MS in
          let gapEnd := segStart - MIN_SEGMENT_GAP_MS in
          if Qleb MIN_SEGMENT_MS (gapEnd - gapStart)
          then gaps ++ [mkGap gapStart gapEnd] else gaps
        else gaps in
      scanGaps rest safeDuration (Qmax cursor segEnd) gaps'
  end.

Definition findAvailableGapForSegment (segments : list ZoomSegment)
    (timelineDurationMs preferredStartTs : Q) : option Slot :=
  let safeDuration := Qmax 0 timelineDurationMs in
  if Qltb safeDuration MIN_SEGMENT_MS then None
  else
    let sorted := sortBy startTs segments in
    let '(cursor, gaps0) := scanGaps sorted safeDuration 0 [] in
    let gaps :=
      if Qltb cursor safeDuration then
        let gapStart := if Qleb cursor 0 then 0 else cursor + MIN_SEGMENT_GAP_MS in
        if Qleb MIN_SEGMENT_MS (safeDuration - gapStart)
        then gaps0 ++ [mkGap gapStart safeDuration] else gaps0
      else gaps0 in
    let preferred := clamp preferredStartTs 0 (safeDuration - MIN_SEGMENT_MS) in
    match find (fun gap => Qleb MIN_SEGMENT_MS (gap_end gap - gap_start gap)
                           && Qltb preferred (gap_end gap)) gaps with
    | None => None
    | Some preferredGap =>
        let gapStart := gap_start preferredGap in
        let gapEnd := gap_end preferredGap in
        let startTs0 := clamp preferred gapStart (Qmax gapStart (gapEnd - MIN_SEGMENT_MS)) in
        let endTs0 := Qmin (startTs0 + 1600) gapEnd in
        if Qltb (endTs0 - startTs0) MIN_SEGMENT_MS
        then Some (mkSlot (Qmax gapStart (gapEnd - MIN_SEGMENT_MS)) gapEnd)
        else Some (mkSlot startTs0 endTs0)
    end.

(** A gap (or slot) [[gs, ge]] keeps clear of a segment: it ends 200 ms
    before the segment starts, or starts at or after the segment's end, and
    200 ms after it when the segment ends after time 0. *)
Definition clearOf (gs ge : Q) (segment : ZoomSegment) : Prop :=
  ge + 200 <= startTs segment \/
  (endTs segment <= gs /\ (0 < endTs segment -> endTs segment + 200 <= gs)).

(** Three manual segments used as a test timeline. *)
Definition manualSegment (name : string) (s e : Q) : ZoomSegment :=
  mkSegment name s e (Some DEFAULT_RECT) None [] None [] false (Some Fixed) (Some Manual).

Definition demoTimeline : list ZoomSegment :=
  [manualSegment "b" 4000 6000; manualSegment "a" 1000 3000].

(** The shape of a target-point list for a segment [[S, E]]: non-empty,
    in time order, inside the segment, with normalized rects, and reaching
    the segment's end. *)
Definition goodPoints (points : list TargetPoint) (S E : Q) : Prop :=
  points <> [] /\
  Sorted (keyLe tp_ts) points /\
  (forall p, In p points ->
     S <= tp_ts p <= E /\ normalizeRect (tp_rect p) = tp_rect p) /\
  (forall d, E <= tp_ts (last points d)).

(** [trimAutoNoop(trimAutoNoop(s))], a dropped segment staying dropped. *)
Definition trimAgain (result : option ZoomSegment) : option ZoomSegment :=
  match result with
  | Some segment => trimAutoNoopSegment segment
  | None => None
  end.

(** The segment [trimAutoNoopSegment] returns when the first effective
    point [first] lies before the end: it starts at [first] and keeps the
    points at or after that time. *)
Definition trimmedAt (segment : ZoomSegment) (first : TargetPoint) : ZoomSegment :=
  let kept := filter (fun p => Qleb (tp_ts first) (tp_ts p))
                     (getSegmentTargetPoints segment) in
  mkSegment (id segment) (tp_ts first) (endTs segment)
    (Some (tp_rect (hd first kept))) (targetRect segment) kept (spring segment)
    (panTrajectory segment) (isAuto segment) (mode segment) (trigger segment).


(** An auto segment over [[1000, 3000]] whose first target point shows the
    full frame and whose zoom starts at 1500 ms. *)
Definition lateZoomSegment : ZoomSegment :=
  mkSegment "late" 1000 3000 None None
    [mkTargetPoint 1000 FULL_RECT; mkTargetPoint 1500 (mkRect 0.25 0.25 0.5 0.5)]
    None [] true (Some FollowCursor) (Some AutoClick).

(** An auto segment with two target points at the same time, the first
    without zoom. *)
Definition tieSegment : ZoomSegment :=
  mkSegment "tie" 1000 3000 None None
    [mkTargetPoint 1000 FULL_RECT; mkTargetPoint 1000 (mkRect 0.25 0.25 0.5 0.5)]
    None [] true (Some FollowCursor) (Some AutoClick).

(** The same auto segment with the full-frame point recorded 100 ms
    before the segment starts: [getSegmentTargetPoints] moves it to the
    start, where it ties with the zoomed point. *)
Definition earlyPointSegment : ZoomSegment :=
  mkSegment "early" 1000 3000 None None
    [mkTargetPoint 900 FULL_RECT; mkTargetPoint 1000 (mkRect 0.25 0.25 0.5 0.5)]
    None [] true (Some FollowCursor) (Some AutoClick).
(** * Spring camera integrator *)

Record RuntimeSegment : Type := mkRuntimeSegment {
  rt_id : string;
  rt_startTs : Q;
  rt_endTs : Q;
  rt_isAuto : bool;
  rt_mode : ZoomMode;
  rt_trigger : ZoomTrigger;
  baseRect : NormalizedRect;
  rt_targetPoints : list TargetPoint;
  rt_spring : CameraSpring
}.

Definition getTargetRectAtTs (segment : RuntimeSegment) (timelineTs : Q) : NormalizedRect :=
  match rt_targetPoints segment with
  | [] => baseRect segment
  | first :: _ =>
      if Qleb timelineTs (tp_ts first) then tp_rect first
      else
        let last := List.last (rt_targetPoints segment) first in
        if Qleb (tp_ts last) timelineTs then tp_rect last
        else
          (* the loop from the last index down to 0 *)
          match find (fun point => Qleb (tp_ts point) timelineTs)
                     (rev (rt_targetPoints segment)) with
          | Some point => tp_rect point
          | None => tp_rect first
          end
  end.

Definition resolveRuntimeSegment (segments : list RuntimeSegment) (timelineTs : Q)
    : option RuntimeSegment :=
  find (fun segment => Qleb (rt_startTs segment) timelineTs
                       && Qltb timelineTs (rt_endTs segment)) segments.

Record SpringStepResult : Type := mkStep {
  value : Q;
  velocity : Q
}.

Definition springStep (current velocity0 target : Q) (spring : CameraSpring) (dtSeconds : Q)
    : SpringStepResult :=
  let safeDt := clamp dtSeconds 0.0001 0.1 in
  let accel :=
    ((target - current) * stiffness spring - damping spring * velocity0) / mass spring in
  let nextVelocity := velocity0 + accel * safeDt in
  mkStep (current + nextVelocity * safeDt) nextVelocity.

(** ** The object store of [buildSpringCameraTrack]

    The source keeps the viewport in one mutable object [rect], writes its
    four fields in place at every step and pushes the object itself into the
    samples ([samples.push({ ts, rect })]).  A pushed sample therefore
    aliases the object the next step writes to.  The store maps object
    references to their current fields; a sample holds a reference, and the
    caller reads the samples in the final store. *)

Definition Ref : Type := nat.
Definition Store : Type := list NormalizedRect.

(** A new object literal. *)
Definition alloc (store : Store) (r : NormalizedRect) : Store * Ref :=
  (store ++ [r], length store).

Definition deref (store : Store) (p : Ref) : NormalizedRect :=
  nth p store FULL_RECT.

Fixpoint update (store : Store) (p : Ref) (f : NormalizedRect -> NormalizedRect) : Store :=
  match store, p with
  | [], _ => []
  | r :: store', O => f r :: store'
  | r :: store', S p' => r :: update store' p' f
  end.

(** The field assignments [rect.x = v], [rect.y = v], ... *)
Definition set_x (v : Q) (r : NormalizedRect) : NormalizedRect :=
  mkRect v (rect_y r) (rect_width r) (rect_height r).
Definition set_y (v : Q) (r : NormalizedRect) : NormalizedRect :=
  mkRect (rect_x r) v (rect_width r) (rect_height r).
Definition set_width (v : Q) (r : NormalizedRect) : NormalizedRect :=
  mkRect (rect_x r) (rect_y r) v (rect_height r).
Definition set_height (v : Q) (r : NormalizedRect) : NormalizedRect :=
  mkRect (rect_x r) (rect_y r) (rect_width r) v.

(** A pushed sample [{ ts, rect }]: a time and a reference. *)
Record SampleCell : Type := mkCell {
  cell_ts : Q;
  cell_rect : Ref
}.

(** What the caller reads from a sample. *)
Record SpringCameraSample : Type := mkSample {
  sample_ts : Q;
  sample_rect : NormalizedRect
}.

(** The local variables of [buildSpringCameraTrack]. *)
Record TrackState : Type := mkTrackState {
  st_store : Store;
  st_samples : list SampleCell;
  st_rect : Ref;
  st_vx : Q;
  st_vy : Q;
  st_vw : Q;
  st_vh : Q;
  st_previousTs : Q;
  st_frame : Z
}.

(** One pass through the body of the [while] loop. *)
Definition trackStep (runtimeSegments : list RuntimeSegment) (durationMs stepMs : Q)
    (st : TrackState) : TrackState :=
  let ts := Qmin (Math_round (inject_Z (st_frame st) * stepMs)) durationMs in
  let frame' := (st_frame st + 1)%Z in
  if Qleb ts (st_previousTs st)
  then (* continue *)
    mkTrackState (st_store st) (st_samples st) (st_rect st)
      (st_vx st) (st_vy st) (st_vw st) (st_vh st) (st_previousTs st) frame'
  else
    let previousTs := st_previousTs st in
    let activeSegment := resolveRuntimeSegment runtimeSegments previousTs in
    let targetRect :=
      match activeSegment with
      | Some segment => getTargetRectAtTs segment previousTs
      | None => FULL_RECT
      end in
    let spring :=
      match activeSegment with
      | Some segment => rt_spring segment
      | None => DEFAULT_SPRING
      end in
    let dtSeconds := (ts - previousTs) / 1000 in
    let rect := st_rect st in
    let stepX :=
      springStep (rect_x (deref (st_store st) rect)) (st_vx st) (rect_x targetRect)
                 spring dtSeconds in
    let store1 := update (st_store st) rect (set_x (value stepX)) in
    let stepY :=
      springStep (rect_y (deref store1 rect)) (st_vy st) (rect_y targetRect)
                 spring dtSeconds in
    let store2 := update store1 rect (set_y (value stepY)) in
    let stepW :=
      springStep (rect_width (deref store2 rect)) (st_vw st) (rect_width targetRect)
                 spring dtSeconds in
    let store3 := update store2 rect (set_width (value stepW)) in
    let stepH :=
      springStep (rect_height (deref store3 rect)) (st_vh st) (rect_height targetRect)
                 spring dtSeconds in
    let store4 := update store3 rect (set_height (value stepH)) in
    (* rect = normalizeRect(rect): a new object *)
    let '(store5, rect') := alloc store4 (normalizeRect (deref store4 rect)) in
    mkTrackState store5 (st_samples st ++ [mkCell ts rect']) rect'
      (velocity stepX) (velocity stepY) (velocity stepW) (velocity stepH) ts frame'.

(** [while (previousTs < durationMs) { ... }]; [fuel] bounds the number
    of passes and [None] means the bound was reached first. *)
Fixpoint trackLoop (fuel : nat) (runtimeSegments : list RuntimeSegment)
    (durationMs stepMs : Q) (st : TrackState) : option TrackState :=
  if Qltb (st_previousTs st) durationMs then
    match fuel with
    | O => None
    | S fuel' =>
        trackLoop fuel' runtimeSegments durationMs stepMs
          (trackStep runtimeSegments durationMs stepMs st)
    end
  else Some st.

(** The number of frames after which [Math.round(frame * stepMs)] has
    reached [durationMs]; the loop never needs more passes (see
    [trackLoop_returns]). *)
Definition trackFrames (durationMs stepMs : Q) : nat :=
  Z.to_nat (Qceiling ((durationMs + 1) / stepMs)).

Definition readSamples (store : Store) (samples : list SampleCell)
    : list SpringCameraSample :=
  map (fun cell => mkSample (cell_ts cell) (deref store (cell_rect cell))) samples.

(** [buildSpringCameraTrack(runtimeSegments, durationMs, fps)].  Reference 0
    of the store is the constant [FULL_RECT], reference 1 the copy
    [{ ...FULL_RECT }] the integration starts from. *)
Definition buildSpringCameraTrack (runtimeSegments : list RuntimeSegment)
    (durationMs fps : Q) : option (list SpringCameraSample) :=
  if Qleb durationMs 0 then Some [mkSample 0 FULL_RECT]
  else
    let stepMs := 1000 / Qmax 1 fps in
    let '(store0, full) := alloc [] FULL_RECT in
    let samples := [mkCell 0 full] in
    let '(store1, rect) := alloc store0 FULL_RECT in
    let st := mkTrackState store1 samples rect 0 0 0 0 0 1 in
    match trackLoop (trackFrames durationMs stepMs) runtimeSegments durationMs stepMs st with
    | None => None
    | Some st' => Some (readSamples (st_store st') (st_samples st'))
    end.

(** Strictly increasing sample times. *)
Fixpoint strictlyIncreasing (l : list Q) : Prop :=
  match l with
  | [] => True
  | a :: l' =>
      match l' with
      | [] => True
      | b :: _ => a < b
      end /\ strictlyIncreasing l'
  end.

(** The sample time of frame [k]. *)
Definition frameTs (durationMs stepMs : Q) (k : Z) : Q :=
  Qmin (Math_round (inject_Z k * stepMs)) durationMs.

(** The loop invariant: the samples start at 0, increase strictly and end
    at [previousTs]; frames already seen lie at or before [previousTs]. *)
Definition trackInv (durationMs stepMs : Q) (st : TrackState) : Prop :=
  (exists c rest, st_samples st = c :: rest /\ cell_ts c = 0) /\
  strictlyIncreasing (map cell_ts (st_samples st)) /\
  last (map cell_ts (st_samples st)) 0 = st_previousTs st /\
  st_previousTs st <= durationMs /\
  (1 <= st_frame st)%Z /\
  ((1 < st_frame st)%Z -> frameTs durationMs stepMs (st_frame st - 1) <= st_previousTs st).

(** The runtime form of a manual segment over [[0, 1000]] framing
    [{0.5, 0.5, 0.5, 0.5}] on a stiff, undamped spring (within the range
    [normalizeSpring] admits). *)
Definition stiffSegment : RuntimeSegment :=
  let rect := mkRect 0.5 0.5 0.5 0.5 in
  mkRuntimeSegment "s" 0 1000 false Fixed Manual rect
    [mkTargetPoint 0 rect; mkTargetPoint 1000 rect] (mkSpring 1 5000 0).
(** * Timeline drag *)

Inductive SegmentDragMode : Type := DragMove | DragStart | DragEnd.

Record SegmentDragState : Type := mkDrag {
  segmentId : string;
  drag_mode : SegmentDragMode;
  pointerStartX : Q;
  initialStartTs : Q;
  initialEndTs : Q
}.

(** [{ ...segment, startTs, endTs, isAuto }]. *)
Definition withTimes (segment : ZoomSegment) (newStartTs newEndTs : Q) (auto : bool)
    : ZoomSegment :=
  mkSegment (id segment) newStartTs newEndTs (initialRect segment) (targetRect segment)
    (targetPoints segment) (spring segment) (panTrajectory segment) auto
    (mode segment) (trigger segment).

(** The callback [current.timeline.zoomSegments.map(...)] of
    [onPointerMove], applied to one segment. *)
Definition dragSegment (drag : SegmentDragState) (deltaTimelineMs timelineDurationMs : Q)
    (neighbors : NeighborBounds) (segment : ZoomSegment) : ZoomSegment :=
  if negb (String.eqb (id segment) (segmentId drag)) then segment
  else
    match drag_mode drag with
    | DragMove =>
        let length := initialEndTs drag - initialStartTs drag in
        let rawStartTs := initialStartTs drag + deltaTimelineMs in
        let minStartTs := Qmax 0 (prevEndTs neighbors + MIN_SEGMENT_GAP_MS) in
        let maxStartTs :=
          Qmin (Qmax 0 (timelineDurationMs - length))
               (Qmax minStartTs (nextStartTs neighbors - MIN_SEGMENT_GAP_MS - length)) in
        if Qltb maxStartTs minStartTs
        then withTimes segment (startTs segment) (endTs segment) false
        else
          let newStartTs := clamp rawStartTs minStartTs maxStartTs in
          withTimes segment newStartTs (newStartTs + length) false
    | DragStart =>
        let rawStartTs := initialStartTs drag + deltaTimelineMs in
        let minStartTs := Qmax 0 (prevEndTs neighbors + MIN_SEGMENT_GAP_MS) in
        let hardMaxStartTs := initialEndTs drag - 1 in
        let preferredMaxStartTs := initialEndTs drag - MIN_SEGMENT_MS in
        let maxStartTs := Qmax minStartTs (Qmin hardMaxStartTs preferredMaxStartTs) in
        withTimes segment (clamp rawStartTs minStartTs maxStartTs) (endTs segment) false
    | DragEnd =>
        let rawEndTs := initialEndTs drag + deltaTimelineMs in
        let hardMinEndTs := initialStartTs drag + 1 in
        let preferredMinEndTs := initialStartTs drag + MIN_SEGMENT_MS in
        let maxEndTs :=
          Qmin timelineDurationMs (nextStartTs neighbors - MIN_SEGMENT_GAP_MS) in
        let minEndTs :=
          Qmin (Qmax hardMinEndTs preferredMinEndTs) (Qmax hardMinEndTs maxEndTs) in
        withTimes segment (startTs segment)
          (clamp rawEndTs minEndTs (Qmax minEndTs maxEndTs)) false
    end.

(** [onPointerMove]: the new [zoomSegments] of the project after a pointer
    event at [clientX] ([None]: no drag in progress). *)
Definition onPointerMove (dragState : option SegmentDragState)
    (clientX pxPerPreviewMs timelineDurationMs previewDurationMs : Q)
    (zoomSegments : list ZoomSegment) : list ZoomSegment :=
  match dragState with
  | None => zoomSegments
  | Some drag =>
      if Qleb timelineDurationMs 0 || Qleb previewDurationMs 0 then zoomSegments
      else
        let deltaPx := clientX - pointerStartX drag in
        let deltaPreviewMs := deltaPx / Qmax pxPerPreviewMs 0.0001 in
        let deltaTimelineMs :=
          Math_round ((deltaPreviewMs * timelineDurationMs) / previewDurationMs) in
        let neighbors :=
          getSegmentNeighborBounds zoomSegments (segmentId drag) timelineDurationMs in
        sortSegments
          (map (dragSegment drag deltaTimelineMs timelineDurationMs neighbors) zoomSegments)
  end.

(** Grabbing segment ["a"] of the test timeline at [x = 100] to move it. *)
Definition moveA : SegmentDragState := mkDrag "a" DragMove 100 1000 3000.

(** A timeline of 6 s with a first segment that starts at 0 and a second
    one 200 ms after it. *)
Definition tightTimeline : list ZoomSegment :=
  [manualSegment "a" 0 3000; manualSegment "b" 3200 6000].

Definition moveTightA : SegmentDragState := mkDrag "a" DragMove 100 0 3000.

(** Start and end of the segments of a timeline, in lowest terms. *)
Definition spans (segments : list ZoomSegment) : list (string * Q * Q) :=
  map (fun segment => (id segment, Qred (startTs segment), Qred (endTs segment))) segments.
(** * The QA smoke script

    [main] of [scripts/qa-smoke.mjs], from the parsed files to the verdict.
    File-system and [ffmpeg] results are inputs.  A field tested with
    [isFiniteNumber] is [Some q] when it holds the finite number [q]; a
    field read through [Number(...)] is [Some q] when the conversion yields
    the finite number [q]; [None] otherwise.  The [INFO] lines do not
    influence the verdict and are left out. *)

Module QaSmoke.

Definition PROJECT_SCHEMA_VERSION : Q := 1.
Definition EVENTS_SCHEMA_VERSION : Q := 1.

(** A JavaScript string: the sequence of its UTF-16 code units. *)
Definition JsStr : Type := list N.

(** The string of an ASCII literal. *)
Definition ofAscii (s : string) : JsStr :=
  map Ascii.N_of_ascii (list_ascii_of_string s).

(** [a === b] on strings. *)
Fixpoint strEqb (a b : JsStr) : bool :=
  match a, b with
  | [], [] => true
  | x :: a', y :: b' => (x =? y)%N && strEqb a' b'
  | _, _ => false
  end.

(** The JavaScript values [project.id] can hold. *)
Inductive JsValue : Type :=
  | JsUndefined
  | JsNull
  | JsBool (b : bool)
  | JsNumber (q : Q)
  | JsString (s : JsStr)
  | JsObject.

Record ProbeResult : Type := mkProbe {
  probe_durationMs : option Q;
  probe_width : option Q;
  probe_height : option Q
}.

Record RawEvent : Type := mkRawEvent {
  ev_ts : option Q;
  ev_x : option Q;
  ev_y : option Q
}.

Record RawEvents : Type := mkRawEvents {
  ev_schemaVersion : option Q;
  ev_recordingId : option JsStr;
  ev_events : option (list RawEvent);
  ev_screenWidth : option Q;
  ev_screenHeight : option Q;
  ev_scaleFactor : option Q
}.

Record RawSegment : Type := mkRawSegment {
  seg_startTs : option Q;
  seg_endTs : option Q;
  seg_x : option Q;
  seg_y : option Q;
  seg_width : option Q;
  seg_height : option Q
}.

Record RawProject : Type := mkRawProject {
  p_schemaVersion : option Q;
  p_id : JsValue;
  p_durationMs : option Q;
  p_videoWidth : option Q;
  p_videoHeight : option Q;
  p_zoomSegments : option (list RawSegment)
}.

(** What [main] reads: the project, the events file and the probe of the
    source video when they exist, and, under [--check-export], the probed
    duration of the latest export when there is one. *)
Record Inputs : Type := mkInputs {
  in_project : RawProject;
  in_events : option RawEvents;
  in_video : option ProbeResult;
  in_checkExport : option (option (option Q))
}.

(** One constructor per [fail(...)] of the source. *)
Inductive Issue : Type :=
  | ProjectSchemaVersionMissing
  | ProjectSchemaVersionMismatch (got : Q)
  | ProjectIdMissing
  | ProjectDurationInvalid
  | EventsFileNotFound
  | SourceVideoNotFound
  | EventsSchemaVersionMissing
  | EventsSchemaVersionMismatch (got : Q)
  | EventsRecordingIdMissing
  | RecordingIdMismatch
  | EventsNotArray
  | SourceDurationUnparsed
  | CriticalDurationMismatch
  | NegativeTimestamps (minTs : Q)
  | EventsExceedDuration (maxTs : Q)
  | ScreenSizeInvalid
  | NegativeCoordinates
  | ScaleFactorInvalid
  | CoordinatesExceedScreen
  | ZoomSegmentsNotArray
  | SegmentTimesInvalid (index : nat)
  | SegmentRangeInvalid (index : nat)
  | SegmentExceedsDuration (index : nat)
  | SegmentRectInvalid (index : nat)
  | SegmentRectEmpty (index : nat)
  | SegmentRectOutOfBounds (index : nat).

(** One constructor per [warn(...)] of the source. *)
Inductive Warning : Type :=
  | ResolutionDiffers
  | ResolutionUnparsed
  | DurationDrift
  | NoTelemetryEvents
  | EventOrderNotMonotonic (disorderCount : nat)
  | NoPointerEvents
  | LogicalPixelCoordinates
  | SegmentsOverlap (index : nat)
  | NoExportFound
  | ExportDurationUnparsed
  | ExportDurationDiffers.

(** The two arrays [issues] and [warnings] that [fail] and [warn] push to. *)
Definition Report : Type := (list Issue * list Warning)%type.

Definition quiet : Report := ([], []).
Definition fail (i : Issue) : Report := ([i], []).
Definition warn (w : Warning) : Report := ([], [w]).
Definition andThen (a b : Report) : Report := (fst a ++ fst b, snd a ++ snd b).
Notation "a +++ b" := (andThen a b) (at level 61, left associativity).

Definition when (c : bool) (r : Report) : Report := if c then r else quiet.

(** The code units [String.prototype.trim] strips: the WhiteSpace and
    LineTerminator productions of ECMA-262, that is TAB, LF, VT, FF, CR,
    SPACE, U+00A0, U+FEFF, U+2028, U+2029 and the other space separators
    U+1680, U+2000..U+200A, U+202F, U+205F, U+3000. *)
Definition isWhitespace (c : N) : bool :=
  ((9 <=? c) && (c <=? 13) || (c =? 32) || (c =? 160) || (c =? 5760)
   || (8192 <=? c) && (c <=? 8202) || (c =? 8232) || (c =? 8233) || (c =? 8239)
   || (c =? 8287) || (c =? 12288) || (c =? 65279))%N.

(** [s.trim() === ""]. *)
Fixpoint isBlank (s : JsStr) : bool :=
  match s with
  | [] => true
  | c :: s' => isWhitespace c && isBlank s'
  end.

Definition truthy (v : JsValue) : bool :=
  match v with
  | JsUndefined | JsNull => false
  | JsBool b => b
  | JsNumber q => negb (Qeq_bool q 0)
  | JsString s => negb (strEqb s [])
  | JsObject => true
  end.

(** [recordingId !== project.id] for a string [recordingId]. *)
Definition differsFrom (recordingId : JsStr) (v : JsValue) : bool :=
  match v with
  | JsString s => negb (strEqb recordingId s)
  | _ => true
  end.

Definition checkSchemaVersion (version : option Q) (expected : Q)
    (missing : Issue) (mismatch : Q -> Issue) : Report :=
  match version with
  | None => fail missing
  | Some v => when (negb (Qeq_bool v expected)) (fail (mismatch v))
  end.

Definition checkProjectHeader (project : RawProject) : Report :=
  checkSchemaVersion (p_schemaVersion project) PROJECT_SCHEMA_VERSION
    ProjectSchemaVersionMissing ProjectSchemaVersionMismatch
  +++ when (match p_id project with
            | JsString s => isBlank s
            | _ => true
            end) (fail ProjectIdMissing)
  +++ when (match p_durationMs project with
            | Some d => Qleb d 0
            | None => true
            end) (fail ProjectDurationInvalid).

Definition checkEventsHeader (project : RawProject) (events : RawEvents) : Report :=
  checkSchemaVersion (ev_schemaVersion events) EVENTS_SCHEMA_VERSION
    EventsSchemaVersionMissing EventsSchemaVersionMismatch
  +++ match ev_recordingId events with
      | None => fail EventsRecordingIdMissing
      | Some rid =>
          if isBlank rid then fail EventsRecordingIdMissing
          else when (truthy (p_id project) && differsFrom rid (p_id project))
                    (fail RecordingIdMismatch)
      end
  +++ when (match ev_events events with None => true | Some _ => false end)
           (fail EventsNotArray).

Definition checkVideoProbe (project : RawProject) (probe : ProbeResult) : Report :=
  when (match probe_durationMs probe with None => true | Some _ => false end)
       (fail SourceDurationUnparsed)
  +++ match probe_width probe, probe_height probe with
      | Some w, Some h =>
          match p_videoWidth project, p_videoHeight project with
          | Some pw, Some ph =>
              when (negb (Qeq_bool pw w) || negb (Qeq_bool ph h)) (warn ResolutionDiffers)
          | _, _ => quiet
          end
      | _, _ => warn ResolutionUnparsed
      end.

Definition checkDurationDrift (project : RawProject) (video : option ProbeResult)
    : Report :=
  match p_durationMs project, video with
  | Some projectMs, Some probe =>
      match probe_durationMs probe with
      | Some videoMs =>
          let delta := Qabs (projectMs - videoMs) in
          let baseline := Qmax projectMs videoMs in
          let driftRatio := if Qltb 0 baseline then delta / baseline else 0 in
          if Qltb 0.25 driftRatio then fail CriticalDurationMismatch
          else when (Qltb 0.08 driftRatio) (warn DurationDrift)
      | None => quiet
      end
  | _, _ => quiet
  end.

(** [Math.max(...values)] and [Math.min(...values)] of a non-empty array. *)
Definition maxOf (first : Q) (rest : list Q) : Q := fold_left Qmax rest first.
Definition minOf (first : Q) (rest : list Q) : Q := fold_left Qmin rest first.

(** The loop counting the samples that are smaller than their
    predecessor; [previous = None] is the initial [-Infinity]. *)
Fixpoint countDisorder (previous : option Q) (timestamps : list Q) : nat :=
  match timestamps with
  | [] => O
  | ts :: rest =>
      ((match previous with
        | Some p => if Qltb ts p then 1 else 0
        | None => 0
        end) + countDisorder (Some ts) rest)%nat
  end.

(** [events.events.map((event) => Number(event.ts)).filter(Number.isFinite)]. *)
Definition finiteTimestamps (events : list RawEvent) : list Q :=
  flat_map (fun event => match ev_ts event with Some ts => [ts] | None => [] end) events.

Definition checkTimestamps (project : RawProject) (events : list RawEvent) : Report :=
  match finiteTimestamps events with
  | [] => warn NoTelemetryEvents
  | first :: rest =>
      let maxTs := maxOf first rest in
      let minTs := minOf first rest in
      when (Qltb minTs 0) (fail (NegativeTimestamps minTs))
      +++ when (match p_durationMs project with
                | Some d => Qltb (d + 1000) maxTs
                | None => false
                end) (fail (EventsExceedDuration maxTs))
      +++ (let disorderCount := countDisorder None (first :: rest) in
           when (0 <? disorderCount)%nat (warn (EventOrderNotMonotonic disorderCount)))
  end.

(** The events with finite [x] and [y]. *)
Definition coordinates (events : list RawEvent) : list (Q * Q) :=
  flat_map (fun event =>
              match ev_x event, ev_y event with
              | Some x, Some y => [(x, y)]
              | _, _ => []
              end) events.

Definition checkCoordinates (file : RawEvents) (events : list RawEvent) : Report :=
  match coordinates events with
  | [] => warn NoPointerEvents
  | (x0, y0) :: rest =>
      let minX := minOf x0 (map fst rest) in
      let maxX := maxOf x0 (map fst rest) in
      let minY := minOf y0 (map snd rest) in
      let maxY := maxOf y0 (map snd rest) in
      match ev_screenWidth file, ev_screenHeight file with
      | Some screenWidth, Some screenHeight =>
          if Qleb screenWidth 0 || Qleb screenHeight 0 then fail ScreenSizeInvalid
          else
            let fitsPhysical :=
              Qleb maxX (screenWidth * 1.05) && Qleb maxY (screenHeight * 1.05) in
            let validScale :=
              match ev_scaleFactor file with
              | Some s => Qltb 0 s && Qleb s 4
              | None => false
              end in
            let fitsScaled :=
              match ev_scaleFactor file with
              | Some s =>
                  validScale && Qltb 1 s &&
                  Qleb (maxX * s) (screenWidth * 1.05) &&
                  Qleb (maxY * s) (screenHeight * 1.05)
              | None => false
              end in
            when (Qltb minX (-2) || Qltb minY (-2)) (fail NegativeCoordinates)
            +++ when (negb validScale) (fail ScaleFactorInvalid)
            +++ (if negb fitsPhysical && negb fitsScaled then fail CoordinatesExceedScreen
                 else when (negb fitsPhysical && fitsScaled) (warn LogicalPixelCoordinates))
      | _, _ => fail ScreenSizeInvalid
      end
  end.

(** The loop over [project.timeline.zoomSegments]; [previousEnd = None] is
    the initial [-Infinity]. *)
Fixpoint checkSegments (durationMs : option Q) (previousEnd : option Q) (index : nat)
    (segments : list RawSegment) : Report :=
  match segments with
  | [] => quiet
  | segment :: rest =>
      match seg_startTs segment, seg_endTs segment with
      | Some startTs, Some endTs =>
          let previousEnd' :=
            match previousEnd with
            | Some p => Some (Qmax p endTs)
            | None => Some endTs
            end in
          when (Qltb startTs 0 || Qleb endTs startTs) (fail (SegmentRangeInvalid index))
          +++ when (match durationMs with
                    | Some d => Qltb (d + 1) endTs
                    | None => false
                    end) (fail (SegmentExceedsDuration index))
          +++ when (match previousEnd with
                    | Some p => Qltb startTs p
                    | None => false
                    end) (warn (SegmentsOverlap index))
          +++ match seg_x segment, seg_y segment, seg_width segment, seg_height segment with
              | Some x, Some y, Some width, Some height =>
                  when (Qleb width 0 || Qleb height 0) (fail (SegmentRectEmpty index))
                  +++ when (Qltb x 0 || Qltb y 0 || Qltb 1.0001 (x + width)
                            || Qltb 1.0001 (y + height))
                           (fail (SegmentRectOutOfBounds index))
              | _, _, _, _ => fail (SegmentRectInvalid index)
              end
          +++ checkSegments durationMs previousEnd' (S index) rest
      | _, _ =>
          fail (SegmentTimesInvalid index)
          +++ checkSegments durationMs previousEnd (S index) rest
      end
  end.

Definition checkExport (project : RawProject) (export : option (option (option Q)))
    : Report :=
  match export with
  | None => quiet
  | Some None => warn NoExportFound
  | Some (Some None) => warn ExportDurationUnparsed
  | Some (Some (Some exportMs)) =>
      match p_durationMs project with
      | Some projectMs =>
          let delta := Qabs (exportMs - projectMs) in
          let allowed := Qmax 350 (Math_round (projectMs * 0.08)) in
          when (Qltb allowed delta) (warn ExportDurationDiffers)
      | None => quiet
      end
  end.

(** The checks of [main], in source order. *)
Definition smoke (inputs : Inputs) : Report :=
  let project := in_project inputs in
  checkProjectHeader project
  +++ when (match in_events inputs with None => true | Some _ => false end)
           (fail EventsFileNotFound)
  +++ when (match in_video inputs with None => true | Some _ => false end)
           (fail SourceVideoNotFound)
  +++ match in_events inputs with
      | Some events => checkEventsHeader project events
      | None => quiet
      end
  +++ match in_video inputs with
      | Some probe => checkVideoProbe project probe
      | None => quiet
      end
  +++ checkDurationDrift project (in_video inputs)
  +++ match in_events inputs with
      | Some file =>
          match ev_events file with
          | Some events => checkTimestamps project events +++ checkCoordinates file events
          | None => quiet
          end
      | None => quiet
      end
  +++ match p_zoomSegments project with
      | None => fail ZoomSegmentsNotArray
      | Some segments => checkSegments (p_durationMs project) None 0 segments
      end
  +++ checkExport project (in_checkExport inputs).

Definition issues (inputs : Inputs) : list Issue := fst (smoke inputs).
Definition warnings (inputs : Inputs) : list Warning := snd (smoke inputs).

(** [process.exit(1)] when [issues.length > 0]; otherwise [main] returns
    and the process ends with code 0. *)
Definition exitCode (inputs : Inputs) : Z :=
  match issues inputs with
  | [] => 0%Z
  | _ :: _ => 1%Z
  end.

(** Some timestamp is smaller than an earlier one. *)
Definition nonMonotonic (timestamps : list Q) : Prop :=
  exists i j, (i < j < length timestamps)%nat /\ nth j timestamps 0 < nth i timestamps 0.

(** A project and events file that pass every check, with the events at
    20 ms and 10 ms recorded out of order. *)
Definition outOfOrderEvents : list RawEvent :=
  [mkRawEvent (Some 0) (Some 100) (Some 100);
   mkRawEvent (Some 20) (Some 200) (Some 150);
   mkRawEvent (Some 10) (Some 150) (Some 120)].

Definition outOfOrderInputs : Inputs :=
  mkInputs
    (mkRawProject (Some 1) (JsString (ofAscii "rec-1")) (Some 5000) (Some 1920) (Some 1080)
       (Some [mkRawSegment (Some 1000) (Some 3000) (Some 0.2) (Some 0.2)
                (Some 0.5) (Some 0.5)]))
    (Some (mkRawEvents (Some 1) (Some (ofAscii "rec-1")) (Some outOfOrderEvents)
             (Some 1920) (Some 1080) (Some 1)))
    (Some (mkProbe (Some 5000) (Some 1920) (Some 1080)))
    None.

End QaSmoke.
(** * More of the editor: time mapping, markers, rect builders *)

(** [mapTimeMs]; every number is finite here, so only the two duration
    guards remain. *)
Definition mapTimeMs (valueMs fromDurationMs toDurationMs : Q) : Q :=
  if Qleb fromDurationMs 0 || Qleb toDurationMs 0 then 0
  else clamp (Math_round ((valueMs / fromDurationMs) * toDurationMs)) 0 toDurationMs.

Definition markerOptions : list Q :=
  [250; 500; 1000; 2000; 5000; 10000; 15000; 30000; 60000; 120000; 300000; 600000;
   900000; 1800000].

Definition chooseMarkerStepMs (pxPerMs : Q) : Q :=
  let targetSpacingPx := 90 in
  let approxStepMs := targetSpacingPx / Qmax pxPerMs 0.0001 in
  match find (fun option => Qleb approxStepMs option) markerOptions with
  | Some option => option
  | None => 60000
  end.

(** [buildRectFromCenterZoom]; the four [if]s reassign [width] and
    [height] in turn. *)
Definition buildRectFromCenterZoom (centerX centerY zoomStrength aspectRatio : Q)
    : NormalizedRect :=
  let safeAspect := if Qltb 0 aspectRatio then aspectRatio else 16 / 9 in
  let safeZoom := clamp zoomStrength 1 6 in
  let width0 := clamp (1 / safeZoom) MIN_RECT_SIZE 1 in
  let height0 := width0 / safeAspect in
  let '(width1, height1) :=
    if Qltb 1 height0 then (1 * safeAspect, 1) else (width0, height0) in
  let '(width2, height2) :=
    if Qltb height1 MIN_RECT_SIZE then (MIN_RECT_SIZE * safeAspect, MIN_RECT_SIZE)
    else (width1, height1) in
  let '(width3, height3) :=
    if Qltb 1 width2 then (1, 1 / safeAspect) else (width2, height2) in
  let '(width4, height4) :=
    if Qltb width3 MIN_RECT_SIZE then (MIN_RECT_SIZE, MIN_RECT_SIZE / safeAspect)
    else (width3, height3) in
  normalizeRect (mkRect (centerX - width4 / 2) (centerY - height4 / 2) width4 height4).

Definition clampCenterToViewport (centerX centerY viewportWidth viewportHeight : Q)
    : Q * Q :=
  let halfW := clamp (viewportWidth / 2) 0 0.5 in
  let halfH := clamp (viewportHeight / 2) 0 0.5 in
  (clamp centerX halfW (1 - halfW), clamp centerY halfH (1 - halfH)).

Definition buildRectFromCenterAndSize (centerX centerY width height : Q) : NormalizedRect :=
  let safeWidth := clamp width MIN_RECT_SIZE 1 in
  let safeHeight := clamp height MIN_RECT_SIZE 1 in
  let clamped := clampCenterToViewport centerX centerY safeWidth safeHeight in
  normalizeRect
    (mkRect (fst clamped - safeWidth / 2) (snd clamped - safeHeight / 2)
            safeWidth safeHeight).

(** [updateSegmentBaseRect]: the legacy [targetRect] is dropped. *)
Definition updateSegmentBaseRect (segment : ZoomSegment) (rect : NormalizedRect)
    : ZoomSegment :=
  mkSegment (id segment) (startTs segment) (endTs segment) (Some (normalizeRect rect))
    None [] (Some (normalizeSpring (spring segment))) [] (isAuto segment)
    (mode segment) (trigger segment).


(** * More of the cursor pipeline *)

Definition clickTime (event : InputEvent) : list Q :=
  match event with
  | EvClick ts _ _ => [ts]
  | _ => []
  end.

Definition extractClickTimestamps (eventsFile : option EventsFile) : list Q :=
  match eventsFile with
  | None => []
  | Some file => sortBy (fun ts => ts) (flat_map clickTime (events file))
  end.

(** The outcome of the binary searches that return early on an exact
    hit: the index found, or the final [low]. *)
Inductive SearchResult : Type :=
  | Found (mid : Z)
  | NotFound (low : Z).

(** The [while (low <= high)] loop of [interpolateCursor] and
    [sampleCameraTrack], over items with a time [key].  Both callers run it
    only when the last item is later than [ts], so that the final [low] is
    an index of the array (see [searchExact_below_last]) and the default [d]
    of [nth] is never read. *)
Fixpoint searchExact {A : Type} (key : A -> Q) (d : A) (fuel : nat) (items : list A)
    (ts : Q) (low high : Z) : option SearchResult :=
  if (high <? low)%Z then Some (NotFound low)
  else
    match fuel with
    | O => None
    | S fuel' =>
        let mid := ((low + high) / 2)%Z in
        let midTs := key (nth (Z.to_nat mid) items d) in
        if Qeq_bool midTs ts then Some (Found mid)
        else if Qltb midTs ts
             then searchExact key d fuel' items ts (mid + 1)%Z high
             else searchExact key d fuel' items ts low (mid - 1)%Z
    end.

Definition interpolateCursor (samples : list CursorSample) (ts : Q) : option (Q * Q) :=
  match samples with
  | [] => Some (0.5, 0.5)
  | first :: _ =>
      if Qleb ts (cs_ts first) then Some (cs_x first, cs_y first)
      else
        let last := List.last samples first in
        if Qleb (cs_ts last) ts then Some (cs_x last, cs_y last)
        else
          let n := length samples in
          match searchExact cs_ts first n samples ts 0 (Z.of_nat n - 1) with
          | None => None
          | Some (Found mid) =>
              let s := nth (Z.to_nat mid) samples first in
              Some (cs_x s, cs_y s)
          | Some (NotFound low) =>
              let next := nth (Z.to_nat low) samples first in
              let prev := nth (Z.to_nat (Z.max 0 (low - 1))) samples first in
              let span := cs_ts next - cs_ts prev in
              if Qleb span 0 then Some (cs_x prev, cs_y prev)
              else
                let t := (ts - cs_ts prev) / span in
                Some (cs_x prev + (cs_x next - cs_x prev) * t,
                      cs_y prev + (cs_y next - cs_y prev) * t)
          end
  end.

(** * More of the camera track *)

Definition lerpRect (prev next : NormalizedRect) (t : Q) : NormalizedRect :=
  mkRect (rect_x prev + (rect_x next - rect_x prev) * t)
         (rect_y prev + (rect_y next - rect_y prev) * t)
         (rect_width prev + (rect_width next - rect_width prev) * t)
         (rect_height prev + (rect_height next - rect_height prev) * t).

Definition sampleCameraTrack (track : list SpringCameraSample) (ts : Q)
    : option NormalizedRect :=
  match track with
  | [] => Some FULL_RECT
  | first :: _ =>
      if Qleb ts (sample_ts first) then Some (sample_rect first)
      else
        let last := List.last track first in
        if Qleb (sample_ts last) ts then Some (sample_rect last)
        else
          let n := length track in
          match searchExact sample_ts first n track ts 0 (Z.of_nat n - 1) with
          | None => None
          | Some (Found mid) => Some (sample_rect (nth (Z.to_nat mid) track first))
          | Some (NotFound low) =>
              let next := nth (Z.to_nat low) track first in
              let prev := nth (Z.to_nat (Z.max 0 (low - 1))) track first in
              let span := Qmax 1 (sample_ts next - sample_ts prev) in
              let t := (ts - sample_ts prev) / span in
              Some (normalizeRect (lerpRect (sample_rect prev) (sample_rect next) t))
          end
  end.

(** The loop shared by [findTrackIndexAtOrAfter] and
    [findTrackIndexAtOrBefore]: [goRight] is the test that moves [low];
    the result is the final [(low, high)]. *)
Fixpoint searchBoundary {A : Type} (goRight : A -> bool) (d : A) (fuel : nat)
    (items : list A) (low high : Z) : option (Z * Z) :=
  if (high <? low)%Z then Some (low, high)
  else
    match fuel with
    | O => None
    | S fuel' =>
        let mid := ((low + high) / 2)%Z in
        if goRight (nth (Z.to_nat mid) items d)
        then searchBoundary goRight d fuel' items (mid + 1)%Z high
        else searchBoundary goRight d fuel' items low (mid - 1)%Z
    end.

Definition findTrackIndexAtOrAfter (track : list SpringCameraSample) (ts : Q) : option Z :=
  match track with
  | [] => Some (-1)%Z
  | first :: _ =>
      if Qleb ts (sample_ts first) then Some 0%Z
      else
        let n := length track in
        match searchBoundary (fun s => Qltb (sample_ts s) ts) first n track 0
                (Z.of_nat n - 1) with
        | None => None
        | Some (low, _) => Some (Z.min low (Z.of_nat n - 1))
        end
  end.

Definition findTrackIndexAtOrBefore (track : list SpringCameraSample) (ts : Q) : option Z :=
  match track with
  | [] => Some (-1)%Z
  | first :: _ =>
      let n := length track in
      if Qleb (sample_ts (List.last track first)) ts then Some (Z.of_nat n - 1)%Z
      else
        match searchBoundary (fun s => Qleb (sample_ts s) ts) first n track 0
                (Z.of_nat n - 1) with
        | None => None
        | Some (_, high) => Some (Z.max 0 high)
        end
  end.
(** * Follow-cursor target points *)

Definition FOLLOW_SAMPLE_STEP_MS : Q := 75.
Definition FOLLOW_DEAD_ZONE_RATIO : Q := 0.2.
Definition FOLLOW_HARD_EDGE_RATIO : Q := 0.35.
Definition FOLLOW_MAX_SPEED_PX_PER_S : Q := 800.

(** [Math.sign]. *)
Definition Math_sign (v : Q) : Q :=
  if Qltb 0 v then 1 else if Qltb v 0 then -1 else 0.

(** The local variables of the loop of [buildFollowCursorTargetPoints]. *)
Record FollowState : Type := mkFollowState {
  fs_centerX : Q;
  fs_centerY : Q;
  fs_points : list TargetPoint;
  fs_ts : Q;
  fs_lastTs : Q
}.

(** The movement of the centre along one axis in one pass. *)
Definition followAxis (center cursor size maxSpeed dtSec : Q) : Q :=
  let offset := cursor - center in
  let dead := size * 0.5 * FOLLOW_DEAD_ZONE_RATIO in
  let hard := size * 0.5 * FOLLOW_HARD_EDGE_RATIO in
  if Qltb dead (Qabs offset) then
    let excess := Qabs offset - dead in
    let range := Qmax (hard - dead) 0.0001 in
    let speedFactor := clamp (excess / range) 0 1 in
    center + Math_sign offset * speedFactor * maxSpeed * dtSec
  else center.

(** One pass through the body of the [while (ts <= endTs)] loop; [None]
    only if the cursor lookup does not return. *)
Definition followStep (baseRect : NormalizedRect) (cursorSamples : list CursorSample)
    (maxSpeedX maxSpeedY stepMs : Q) (st : FollowState) : option FollowState :=
  let ts := fs_ts st in
  let dtSec := Qmax 0 (ts - fs_lastTs st) / 1000 in
  match interpolateCursor cursorSamples ts with
  | None => None
  | Some (cursorX, cursorY) =>
      let centerX :=
        followAxis (fs_centerX st) cursorX (rect_width baseRect) maxSpeedX dtSec in
      let centerY :=
        followAxis (fs_centerY st) cursorY (rect_height baseRect) maxSpeedY dtSec in
      let rect :=
        buildRectFromCenterAndSize centerX centerY (rect_width baseRect)
                                   (rect_height baseRect) in
      Some (mkFollowState (rect_x rect + rect_width rect / 2)
              (rect_y rect + rect_height rect / 2)
              (fs_points st ++ [mkTargetPoint ts rect])
              (ts + stepMs) ts)
  end.

Fixpoint followLoop (fuel : nat) (baseRect : NormalizedRect)
    (cursorSamples : list CursorSample) (maxSpeedX maxSpeedY stepMs endTs : Q)
    (st : FollowState) : option FollowState :=
  if Qleb (fs_ts st) endTs then
    match fuel with
    | O => None
    | S fuel' =>
        match followStep baseRect cursorSamples maxSpeedX maxSpeedY stepMs st with
        | None => None
        | Some st' =>
            followLoop fuel' baseRect cursorSamples maxSpeedX maxSpeedY stepMs endTs st'
        end
    end
  else Some st.

(** The number of passes of the loop: one per multiple of [stepMs] that
    fits between [startTs] and [endTs], and the first. *)
Definition followPasses (startTs endTs stepMs : Q) : nat :=
  S (Z.to_nat (Qfloor ((endTs - startTs) / stepMs))).

Definition buildFollowCursorTargetPoints (segment : ZoomSegment) (baseRect : NormalizedRect)
    (cursorSamples : list CursorSample) (sourceWidth sourceHeight : Q)
    : option (list TargetPoint) :=
  let start := startTs segment in
  let stop := endTs segment in
  if Qleb stop start
  then Some [mkTargetPoint start baseRect; mkTargetPoint (start + 1) baseRect]
  else
    match cursorSamples with
    | [] => Some [mkTargetPoint start baseRect; mkTargetPoint stop baseRect]
    | _ :: _ =>
        let safeWidthPx := Qmax 1 sourceWidth in
        let safeHeightPx := Qmax 1 sourceHeight in
        let stepMs := Qmax FOLLOW_SAMPLE_STEP_MS 1 in
        let maxSpeedX := FOLLOW_MAX_SPEED_PX_PER_S / safeWidthPx in
        let maxSpeedY := FOLLOW_MAX_SPEED_PX_PER_S / safeHeightPx in
        let st :=
          mkFollowState (rect_x baseRect + rect_width baseRect / 2)
            (rect_y baseRect + rect_height baseRect / 2) [] start start in
        match followLoop (followPasses start stop stepMs) baseRect cursorSamples
                maxSpeedX maxSpeedY stepMs stop st with
        | None => None
        | Some st' =>
            let points := fs_points st' in
            let lastPoint := List.last points (mkTargetPoint start baseRect) in
            if negb (Qeq_bool (tp_ts lastPoint) stop)
            then Some (points ++ [mkTargetPoint stop (tp_rect lastPoint)])
            else Some points
        end
    end.

(** [toRuntimeSegments]; [None] only if a follow-cursor build does not
    return. *)
Definition toRuntimeSegment (cursorSamples : list CursorSample)
    (sourceWidth sourceHeight : Q) (rawSegment : ZoomSegment) : option RuntimeSegment :=
  let segment := normalizeZoomSegment rawSegment in
  let base := getSegmentBaseRect segment in
  let points :=
    match mode segment with
    | Some FollowCursor =>
        buildFollowCursorTargetPoints segment base cursorSamples sourceWidth sourceHeight
    | _ => Some (getSegmentTargetPoints segment)
    end in
  match points with
  | None => None
  | Some targetPoints =>
      Some (mkRuntimeSegment (id segment) (startTs segment) (endTs segment)
              (isAuto segment) (normalizeSegmentMode (mode segment))
              (normalizeSegmentTrigger (trigger segment) (isAuto segment))
              base targetPoints (normalizeSpring (spring segment)))
  end.

Fixpoint mapOption {A B : Type} (f : A -> option B) (l : list A) : option (list B) :=
  match l with
  | [] => Some []
  | a :: l' =>
      match f a, mapOption f l' with
      | Some b, Some bs => Some (b :: bs)
      | _, _ => None
      end
  end.

Definition toRuntimeSegments (segments : list ZoomSegment)
    (cursorSamples : list CursorSample) (sourceWidth sourceHeight : Q)
    : option (list RuntimeSegment) :=
  mapOption (toRuntimeSegment cursorSamples sourceWidth sourceHeight)
            (sortBy startTs segments).
(** * Predicates used in the statements *)

(** A rect inside the unit frame, with the minimum size. *)
Definition rectInFrame (r : NormalizedRect) : Prop :=
  0.05 <= rect_width r <= 1 /\ 0.05 <= rect_height r <= 1 /\
  0 <= rect_x r <= 1 - rect_width r /\ 0 <= rect_y r <= 1 - rect_height r.

(** Two rects with equal fields. *)
Definition rectEq (a b : NormalizedRect) : Prop :=
  rect_x a == rect_x b /\ rect_y a == rect_y b /\
  rect_width a == rect_width b /\ rect_height a == rect_height b.

(** A position inside the unit frame. *)
Definition inFrame (p : Q * Q) : Prop :=
  0 <= fst p <= 1 /\ 0 <= snd p <= 1.

Definition sampleInFrame (s : CursorSample) : Prop :=
  0 <= cs_x s <= 1 /\ 0 <= cs_y s <= 1.

(** The store of [buildSpringCameraTrack] during the loop: object 0 is
    the constant [FULL_RECT] and is never written; the current object is the
    newest one and is as [normalizeRect] returned it; the first sample
    refers to object 0 and the newest sample, when there is a second one, to
    the current object. *)
Definition storeInv (st : TrackState) : Prop :=
  (2 <= length (st_store st))%nat /\
  st_rect st = (length (st_store st) - 1)%nat /\
  deref (st_store st) 0%nat = FULL_RECT /\
  (exists raw, deref (st_store st) (st_rect st) = normalizeRect raw) /\
  (exists rest, st_samples st = mkCell 0 0%nat :: rest /\
                (rest <> [] -> cell_rect (last rest (mkCell 0 0%nat)) = st_rect st)).

(** The camera at rest on the full frame: every object of the store
    equals [FULL_RECT] field by field and the four velocities are 0. *)
Definition restInv (st : TrackState) : Prop :=
  Forall (fun r => rectEq r FULL_RECT) (st_store st) /\
  st_vx st == 0 /\ st_vy st == 0 /\ st_vw st == 0 /\ st_vh st == 0 /\
  0 <= st_previousTs st.

(** The centre of a rect. *)
Definition rectCenterX (r : NormalizedRect) : Q := rect_x r + rect_width r / 2.
Definition rectCenterY (r : NormalizedRect) : Q := rect_y r + rect_height r / 2.

(** Target points in strictly increasing time order whose centres move,
    from one point to the next, by at most [vx] (resp. [vy]) frame widths
    (resp. heights) per second. *)
Fixpoint followChain (vx vy : Q) (points : list TargetPoint) : Prop :=
  match points with
  | a :: ((b :: _) as rest) =>
      tp_ts a < tp_ts b /\
      - (vx * ((tp_ts b - tp_ts a) / 1000))
        <= rectCenterX (tp_rect b) - rectCenterX (tp_rect a)
        <= vx * ((tp_ts b - tp_ts a) / 1000) /\
      - (vy * ((tp_ts b - tp_ts a) / 1000))
        <= rectCenterY (tp_rect b) - rectCenterY (tp_rect a)
        <= vy * ((tp_ts b - tp_ts a) / 1000) /\
      followChain vx vy rest
  | _ => True
  end.

(** The loop invariant of [buildFollowCursorTargetPoints]. *)
Definition followInv (start stop stepMs : Q) (base : NormalizedRect) (vx vy : Q)
    (st : FollowState) : Prop :=
  fs_ts st == start + inject_Z (Z.of_nat (length (fs_points st))) * stepMs /\
  (forall p, In p (fs_points st) ->
     tp_ts p <= stop /\ rectInFrame (tp_rect p) /\
     rect_width (tp_rect p) = rect_width base /\
     rect_height (tp_rect p) = rect_height base) /\
  followChain vx vy (fs_points st) /\
  (fs_points st = [] ->
   fs_ts st = start /\ fs_lastTs st = start /\
   fs_centerX st = rectCenterX base /\ fs_centerY st = rectCenterY base) /\
  (fs_points st <> [] ->
   forall d,
     tp_ts (hd d (fs_points st)) = start /\
     fs_lastTs st = tp_ts (last (fs_points st) d) /\
     fs_ts st = tp_ts (last (fs_points st) d) + stepMs /\
     fs_centerX st = rectCenterX (tp_rect (last (fs_points st) d)) /\
     fs_centerY st = rectCenterY (tp_rect (last (fs_points st) d))).

(** What [toRuntimeSegment] makes of one segment. *)
Definition runtimeOf (raw : ZoomSegment) (segment : RuntimeSegment) : Prop :=
  rt_id segment = id raw /\
  rt_startTs segment = startTs raw /\
  rt_endTs segment = endTs raw /\
  baseRect segment = getSegmentBaseRect raw /\
  rt_spring segment = normalizeSpring (spring raw) /\
  rt_targetPoints segment <> [] /\
  (forall p, In p (rt_targetPoints segment) -> rectInFrame (tp_rect p)).

(** * Editor handlers, as functions of the project's segments *)




(** The segment [handleAddSegment] creates in a slot. *)
Definition newManualSegment (nextId : string) (slot : Slot) (rect : NormalizedRect)
    : ZoomSegment :=
  mkSegment nextId (slot_startTs slot) (slot_endTs slot) (Some (normalizeRect rect))
    None [] (Some DEFAULT_SPRING) [] false (Some Fixed) (Some Manual).

(** [handleAddSegment] on a loaded project: [None] is the early return
    with the message that the timeline has no free space; otherwise the new
    segment list.  [nextId] stands for [`manual-${Date.now()}`]. *)
Definition handleAddSegment (zoomSegments : list ZoomSegment)
    (previewDurationMs timelineDurationMs playhead : Q)
    (previewCameraTrack : list SpringCameraSample) (nextId : string)
    : option (list ZoomSegment) :=
  let livePlayheadTimelineMs := mapTimeMs playhead previewDurationMs timelineDurationMs in
  match findAvailableGapForSegment zoomSegments timelineDurationMs
          livePlayheadTimelineMs with
  | None => None
  | Some slot =>
      let rect :=
        match sampleCameraTrack previewCameraTrack livePlayheadTimelineMs with
        | Some r => r
        | None => DEFAULT_RECT
        end in
      Some (sortSegments (zoomSegments ++ [newManualSegment nextId slot rect]))
  end.

(** * What the smoke script accepts *)

Module QaSmokeProps.

Import QaSmoke.

(** A zoom segment that raises no issue in a project of the given
    duration. *)
Definition segmentOk (durationMs : Q) (segment : RawSegment) : Prop :=
  exists startTs endTs x y width height,
    seg_startTs segment = Some startTs /\ seg_endTs segment = Some endTs /\
    seg_x segment = Some x /\ seg_y segment = Some y /\
    seg_width segment = Some width /\ seg_height segment = Some height /\
    0 <= startTs < endTs /\ endTs <= durationMs + 1 /\
    0 < width /\ 0 < height /\ 0 <= x /\ 0 <= y /\
    x + width <= 1.0001 /\ y + height <= 1.0001.

(** The same run on the same events in another order. *)
Definition withEvents (inputs : Inputs) (events : list RawEvent) : Inputs :=
  mkInputs (in_project inputs)
    (match in_events inputs with
     | Some file =>
         Some (mkRawEvents (ev_schemaVersion file) (ev_recordingId file) (Some events)
                 (ev_screenWidth file) (ev_screenHeight file) (ev_scaleFactor file))
     | None => None
     end)
    (in_video inputs) (in_checkExport inputs).

(** The events in time order (events without a finite time count as 0;
    they carry no timestamp to check). *)
Definition eventTime (event : RawEvent) : Q :=
  match ev_ts event with
  | Some ts => ts
  | None => 0
  end.

Definition inTimeOrder (events : list RawEvent) : list RawEvent :=
  sortBy eventTime events.

End QaSmokeProps.

(** * The bar drawn for a segment on the timeline *)

Definition TIMELINE_VISUAL_ZOOM_EPSILON : Q := 0.0002.
Definition TIMELINE_VISUAL_MOTION_EPSILON : Q := 0.00005.
Definition TIMELINE_VISUAL_RETURN_TAIL_MS : Q := 200.

Record VisualBounds : Type := mkBounds {
  vb_startTs : Q;
  vb_endTs : Q
}.

Definition motionDelta (left right : NormalizedRect) : Q :=
  Qmax (Qmax (Qmax (Qabs (rect_x left - rect_x right))
                   (Qabs (rect_y left - rect_y right)))
             (Qabs (rect_width left - rect_width right)))
       (Qabs (rect_height left - rect_height right)).

(** [isVisuallyActiveAt]; the source only calls it with an index of the
    track, [d] is never read. *)
Definition isVisuallyActiveAt (track : list SpringCameraSample) (d : SpringCameraSample)
    (index : nat) : bool :=
  let sample := nth index track d in
  if Qltb (1 + TIMELINE_VISUAL_ZOOM_EPSILON) (getZoomStrength (sample_rect sample))
  then true
  else if (0 <? index)%nat
       then Qltb TIMELINE_VISUAL_MOTION_EPSILON
                 (motionDelta (sample_rect sample)
                              (sample_rect (nth (index - 1) track d)))
       else false.

(** One pass of the loop looking for the peak zoom; the state is
    [(peakIndex, peakZoom)]. *)
Definition peakStep (track : list SpringCameraSample) (d : SpringCameraSample)
    (st : nat * Q) (index : nat) : nat * Q :=
  let zoom := getZoomStrength (sample_rect (nth index track d)) in
  if Qltb (snd st) zoom then (index, zoom) else st.

(** [while (visualStartIndex > 0 && isVisuallyActiveAt(visualStartIndex - 1))]. *)
Fixpoint extendLeft (track : list SpringCameraSample) (d : SpringCameraSample)
    (index : nat) : nat :=
  match index with
  | O => O
  | S i => if isVisuallyActiveAt track d i then extendLeft track d i else S i
  end.

(** [while (visualEndIndex + 1 < track.length &&
    isVisuallyActiveAt(visualEndIndex + 1))]; [None] when the fuel runs out. *)
Fixpoint extendRight (track : list SpringCameraSample) (d : SpringCameraSample)
    (fuel : nat) (index : nat) : option nat :=
  if (index + 1 <? length track)%nat && isVisuallyActiveAt track d (index + 1)
  then match fuel with
       | O => None
       | S fuel' => extendRight track d fuel' (index + 1)
       end
  else Some index.

Definition resolveSegmentVisualBounds (segment : RuntimeSegment)
    (track : list SpringCameraSample) : option VisualBounds :=
  let own := mkBounds (rt_startTs segment) (rt_endTs segment) in
  match track with
  | [] => Some own
  | first :: _ =>
      match findTrackIndexAtOrAfter track (rt_startTs segment),
            findTrackIndexAtOrBefore track (rt_endTs segment) with
      | Some rangeStart, Some rangeEnd =>
          if (rangeStart <? 0)%Z || (rangeEnd <? rangeStart)%Z then Some own
          else
            let indices :=
              seq (Z.to_nat rangeStart) (S (Z.to_nat rangeEnd) - Z.to_nat rangeStart) in
            let '(peakIndex0, peakZoom) :=
              fold_left (peakStep track first) indices (Z.to_nat rangeStart, 1) in
            let peak :=
              if Qleb peakZoom (1 + TIMELINE_VISUAL_ZOOM_EPSILON)
              then find (isVisuallyActiveAt track first) indices
              else Some peakIndex0 in
            match peak with
            | None => Some own
            | Some peakIndex =>
                let visualStartIndex := extendLeft track first peakIndex in
                match extendRight track first (length track) peakIndex with
                | None => None
                | Some visualEndIndex =>
                    let startTs0 := sample_ts (nth visualStartIndex track first) in
                    let endTs := sample_ts (nth visualEndIndex track first) in
                    let startTs :=
                      if Qltb (rt_startTs segment) startTs0 then rt_startTs segment
                      else startTs0 in
                    if Qleb endTs startTs then Some own
                    else Some (mkBounds startTs endTs)
                end
            end
      | _, _ => None
      end
  end.

(** The time span of one bar in [segmentVisuals], before it is mapped to
    preview time and pixels. *)
Definition segmentVisualSpan (segment : ZoomSegment) (visualBounds : VisualBounds)
    (timelineDurationMs : Q) : Q * Q :=
  let startTs0 := clamp (vb_startTs visualBounds) (startTs segment) timelineDurationMs in
  let endTs0 := clamp (vb_endTs visualBounds) (startTs0 + 1) timelineDurationMs in
  let maxOwnTailEndTs :=
    Qmin timelineDurationMs (endTs segment + TIMELINE_VISUAL_RETURN_TAIL_MS) in
  let endTs1 := clamp endTs0 (startTs0 + 1) (Qmax (startTs0 + 1) maxOwnTailEndTs) in
  if Qleb endTs1 startTs0 then
    let startTs2 := clamp (startTs segment) 0 timelineDurationMs in
    (startTs2,
     clamp (Qmax (endTs segment) (startTs2 + 1)) (startTs2 + 1) timelineDurationMs)
  else (startTs0, endTs1).

(** * The smoothing loop in binary64

    The smoothing part of [extractCursorSamples] (from
    [if (sorted.length <= 1)] on) over the numbers the code computes with:
    IEEE 754 binary64, every operation rounded to nearest. *)

Module Binary64.

Import PrimFloat.
#[local] Set Warnings "-inexact-float".

Record CursorSample64 : Type := mkCursorSample64 {
  cs64_ts : float;
  cs64_x : float;
  cs64_y : float
}.

Definition emptySample64 : CursorSample64 := mkCursorSample64 0 0 0.

(** [Math.max] and [Math.min] of two numbers: [NaN] if one of them is,
    and [-0] below [+0]. *)
Definition Math_max64 (a b : float) : float :=
  if is_nan a || is_nan b then nan
  else if (a <? b)%float then b
  else if (b <? a)%float then a
  else if get_sign a then b else a.

Definition Math_min64 (a b : float) : float :=
  if is_nan a || is_nan b then nan
  else if (a <? b)%float then a
  else if (b <? a)%float then b
  else if get_sign a then a else b.

Definition clamp64 (value min max : float) : float :=
  Math_min64 (Math_max64 value min) max.

(** [const factor = clamp(smoothingFactor, 0, 1);
     const alpha = 1 - factor * 0.9;] *)
Definition ewmaAlpha64 (smoothingFactor : float) : float :=
  let factor := clamp64 smoothingFactor 0 1 in
  (1 - factor * 0.9)%float.

(** The loop from [index = 1]; the state is [(smoothedX, smoothedY)]. *)
Fixpoint smoothSamples64 (alpha smoothedX smoothedY : float)
    (rest : list CursorSample64) : list CursorSample64 :=
  match rest with
  | [] => []
  | sample :: rest' =>
      let smoothedX' := (smoothedX + alpha * (cs64_x sample - smoothedX))%float in
      let smoothedY' := (smoothedY + alpha * (cs64_y sample - smoothedY))%float in
      mkCursorSample64 (cs64_ts sample) smoothedX' smoothedY'
        :: smoothSamples64 alpha smoothedX' smoothedY' rest'
  end.

(** From the sorted samples to the result. *)
Definition smoothSorted64 (sorted : list CursorSample64) (smoothingFactor : float)
    : list CursorSample64 :=
  match sorted with
  | [] | [_] => sorted
  | first :: rest =>
      first :: smoothSamples64 (ewmaAlpha64 smoothingFactor)
                 (cs64_x first) (cs64_y first) rest
  end.

(** Two normalized samples, at 0.9 and at 0.1 of the screen. *)
Definition farSamples64 : list CursorSample64 :=
  [mkCursorSample64 0 0.9 0.9; mkCursorSample64 17 0.1 0.1].

End Binary64.
(** * Properties *)

(** ** Basic facts about the helpers *)

Lemma Qleb_true (a b : Q) : Qleb a b = true <-> a <= b.
Proof. apply Qle_bool_iff. Qed.

Lemma Qleb_false (a b : Q) : Qleb a b = false <-> b < a.
Proof.
  unfold Qleb. split; intro H.
  - apply Qnot_le_lt. intro Hle. apply Qle_bool_iff in Hle. congruence.
  - destruct (Qle_bool a b) eqn:E; [|reflexivity].
    apply Qle_bool_iff in E. lra.
Qed.

Lemma Qltb_true (a b : Q) : Qltb a b = true <-> a < b.
Proof.
  unfold Qltb. rewrite negb_true_iff. apply (Qleb_false b a).
Qed.

Lemma Qltb_false (a b : Q) : Qltb a b = false <-> b <= a.
Proof.
  unfold Qltb. rewrite negb_false_iff. apply (Qleb_true b a).
Qed.

(** Case analysis on the operands [Qmax] and [Qmin] select. *)
Lemma Qmax_case_eq (a b : Q) :
  (a < b /\ Qmax a b = b) \/ (b <= a /\ Qmax a b = a).
Proof.
  unfold Qmax, GenericMinMax.gmax.
  destruct (a ?= b) eqn:E.
  - right. split; [|reflexivity]. apply Qeq_alt in E. lra.
  - left. split; [|reflexivity]. now apply Qlt_alt in E.
  - right. split; [|reflexivity]. apply Qgt_alt in E. lra.
Qed.

Lemma Qmin_case_eq (a b : Q) :
  (a <= b /\ Qmin a b = a) \/ (b < a /\ Qmin a b = b).
Proof.
  unfold Qmin, GenericMinMax.gmin.
  destruct (a ?= b) eqn:E.
  - left. split; [|reflexivity]. apply Qeq_alt in E. lra.
  - left. split; [|reflexivity]. apply Qlt_alt in E. lra.
  - right. split; [|reflexivity]. now apply Qgt_alt in E.
Qed.

(** Replace every [Qmax]/[Qmin] of the goal and context by the operand it
    selects, one case per ordering. *)
Ltac split_minmax :=
  repeat match goal with
  | |- context [Qmax ?a ?b] =>
      let H := fresh "Hmax" in let E := fresh "Emax" in
      destruct (Qmax_case_eq a b) as [[H E] | [H E]]; rewrite E in *; clear E
  | |- context [Qmin ?a ?b] =>
      let H := fresh "Hmin" in let E := fresh "Emin" in
      destruct (Qmin_case_eq a b) as [[H E] | [H E]]; rewrite E in *; clear E
  | _ : context [Qmax ?a ?b] |- _ =>
      let H := fresh "Hmax" in let E := fresh "Emax" in
      destruct (Qmax_case_eq a b) as [[H E] | [H E]]; rewrite E in *; clear E
  | _ : context [Qmin ?a ?b] |- _ =>
      let H := fresh "Hmin" in let E := fresh "Emin" in
      destruct (Qmin_case_eq a b) as [[H E] | [H E]]; rewrite E in *; clear E
  end.

Lemma clamp_bounds (v lo hi : Q) : lo <= hi -> lo <= clamp v lo hi <= hi.
Proof. intro H. unfold clamp. split_minmax; lra. Qed.

Lemma clamp_inside (v lo hi : Q) : lo <= v <= hi -> clamp v lo hi = v.
Proof.
  intros [H1 H2]. unfold clamp.
  destruct (Qmax_case_eq v lo) as [[H E] | [H E]]; rewrite E.
  - lra.
  - destruct (Qmin_case_eq v hi) as [[H' E'] | [H' E']]; rewrite E'; [reflexivity | lra].
Qed.

Lemma clamp_idem (v lo hi : Q) : clamp (clamp v lo hi) lo hi = clamp v lo hi.
Proof. unfold clamp. split_minmax; try reflexivity; exfalso; lra. Qed.


(** Division by a literal becomes multiplication by its inverse, which
    linear arithmetic over [Q] understands. *)
Ltac qdiv_const :=
  unfold Qdiv in *;
  repeat match goal with
  | |- context [Qinv (Qmake ?n ?d)] =>
      let c := eval vm_compute in (Qinv (Qmake n d)) in
      change (Qinv (Qmake n d)) with c in *
  | _ : context [Qinv (Qmake ?n ?d)] |- _ =>
      let c := eval vm_compute in (Qinv (Qmake n d)) in
      change (Qinv (Qmake n d)) with c in *
  end.
(** ** Click pulse *)

Section ClickPulseFacts.

Lemma Sorted_Qle_nth (l : list Q) :
  Sorted Qle l ->
  forall i j, (i <= j < length l)%nat -> nth i l 0 <= nth j l 0.
Proof.
  intros HS. apply Sorted_StronglySorted in HS.
  2:{ intros a b c Hab Hbc. lra. }
  induction HS as [|a l HS IH Hall]; intros i j [Hij Hj]; simpl in *.
  - lia.
  - destruct i as [|i], j as [|j]; try lia.
    + lra.
    + rewrite Forall_forall in Hall. apply Hall, nth_In. lia.
    + apply IH. lia.
Qed.

(** The search returns the last index holding a click at or before [ts]
    ([-1] when there is none), whatever fuel at least as large as the
    remaining interval it is given. *)
Lemma searchLatestClick_spec (clicks : list Q) (ts : Q) :
  Sorted Qle clicks ->
  forall fuel low high nearest,
    (0 <= low)%Z -> (high < Z.of_nat (length clicks))%Z -> (low <= high + 1)%Z ->
    (Z.to_nat (high - low + 1) <= fuel)%nat ->
    nearest = (low - 1)%Z ->
    (forall i, (0 <= i < low)%Z -> nth (Z.to_nat i) clicks 0 <= ts) ->
    (forall i, (high < i < Z.of_nat (length clicks))%Z -> ts < nth (Z.to_nat i) clicks 0) ->
    exists r,
      searchLatestClick fuel clicks ts low high nearest = Some r /\
      (-1 <= r < Z.of_nat (length clicks))%Z /\
      (forall i, (0 <= i <= r)%Z -> nth (Z.to_nat i) clicks 0 <= ts) /\
      (forall i, (r < i < Z.of_nat (length clicks))%Z -> ts < nth (Z.to_nat i) clicks 0).
Proof.
  intros HS. pose proof (Sorted_Qle_nth clicks HS) as Hsorted.
  induction fuel as [|fuel IH]; intros low high nearest Hlow Hhigh Hlh Hfuel Hnear Hle Hgt.
  - simpl. assert (high < low)%Z as Hlt by lia.
    apply Z.ltb_lt in Hlt. rewrite Hlt. exists nearest. subst nearest.
    split; [reflexivity|]. apply Z.ltb_lt in Hlt.
    split; [lia|]. split; intros i Hi; [apply Hle | apply Hgt]; lia.
  - simpl. destruct (high <? low)%Z eqn:Hcmp.
    + apply Z.ltb_lt in Hcmp. exists nearest. subst nearest.
      split; [reflexivity|].
      split; [lia|]. split; intros i Hi; [apply Hle | apply Hgt]; lia.
    + apply Z.ltb_ge in Hcmp.
      assert (low <= (low + high) / 2 <= high)%Z as Hmid.
      { split; [apply Z.div_le_lower_bound | apply Z.div_le_upper_bound]; lia. }
      set (mid := ((low + high) / 2)%Z) in *.
      destruct (Qleb (nth (Z.to_nat mid) clicks 0) ts) eqn:Hq.
      * apply Qleb_true in Hq.
        apply IH; try lia.
        -- intros i Hi.
           apply Qle_trans with (nth (Z.to_nat mid) clicks 0); [|exact Hq].
           apply Hsorted. lia.
        -- exact Hgt.
      * apply Qleb_false in Hq.
        apply IH; try lia.
        -- exact Hle.
        -- intros i Hi.
           apply Qlt_le_trans with (nth (Z.to_nat mid) clicks 0); [exact Hq|].
           apply Hsorted. lia.
Qed.

(** The fuel [sampleClickPulseScale] gives the search always suffices: the
    function returns a scale for every list, sorted or not. *)
Lemma searchLatestClick_total (clicks : list Q) (ts : Q) :
  forall fuel low high nearest,
    (Z.to_nat (high - low + 1) <= fuel)%nat ->
    exists r, searchLatestClick fuel clicks ts low high nearest = Some r.
Proof.
  induction fuel as [|fuel IH]; intros low high nearest Hfuel; simpl.
  - assert ((high <? low)%Z = true) as -> by (apply Z.ltb_lt; lia). eauto.
  - destruct (high <? low)%Z eqn:Hcmp; [eauto|].
    apply Z.ltb_ge in Hcmp.
    assert (low <= (low + high) / 2 <= high)%Z as Hmid.
    { split; [apply Z.div_le_lower_bound | apply Z.div_le_upper_bound]; lia. }
    destruct (Qleb _ ts); apply IH; lia.
Qed.

Lemma sampleClickPulseScale_total (clicks : list Q) (ts : Q) :
  exists v, sampleClickPulseScale clicks ts = Some v.
Proof.
  unfold sampleClickPulseScale. destruct clicks as [|c clicks]; [eauto|].
  destruct (searchLatestClick_total (c :: clicks) ts (length (c :: clicks)) 0
              (Z.of_nat (length (c :: clicks)) - 1) (-1)) as [r Hr]; [lia|].
  cbv zeta. rewrite Hr. destruct (r <? 0)%Z; eauto.
Qed.

(** The three branches of the pulse, as the source computes them. *)
Lemma pulseScaleAt_after (dt : Q) : 150 < dt -> pulseScaleAt dt == 1.
Proof.
  intro H. unfold pulseScaleAt.
  assert (Qltb CLICK_PULSE_TOTAL_MS dt = true) as ->
      by (apply Qltb_true; unfold CLICK_PULSE_TOTAL_MS; lra).
  rewrite orb_true_r. reflexivity.
Qed.

Lemma pulseScaleAt_down (dt : Q) :
  0 <= dt <= 65 -> pulseScaleAt dt == 1 - (1 - 0.82) * (dt / 65).
Proof.
  intros [H0 H1]. unfold pulseScaleAt.
  assert (Qltb dt 0 = false) as -> by (apply Qltb_false; lra).
  assert (Qltb CLICK_PULSE_TOTAL_MS dt = false) as ->
      by (apply Qltb_false; unfold CLICK_PULSE_TOTAL_MS; lra).
  assert (Qleb dt CLICK_PULSE_DOWN_MS = true) as ->
      by (apply Qleb_true; unfold CLICK_PULSE_DOWN_MS; lra).
  reflexivity.
Qed.

Lemma pulseScaleAt_up (dt : Q) :
  65 < dt <= 150 -> pulseScaleAt dt == 0.82 + (1 - 0.82) * ((dt - 65) / 85).
Proof.
  intros [H0 H1]. unfold pulseScaleAt.
  assert (Qltb dt 0 = false) as -> by (apply Qltb_false; lra).
  assert (Qltb CLICK_PULSE_TOTAL_MS dt = false) as ->
      by (apply Qltb_false; unfold CLICK_PULSE_TOTAL_MS; lra).
  assert (Qleb dt CLICK_PULSE_DOWN_MS = false) as ->
      by (apply Qleb_false; unfold CLICK_PULSE_DOWN_MS; lra).
  cbv zeta.
  assert (Qmax 1 (CLICK_PULSE_TOTAL_MS - CLICK_PULSE_DOWN_MS) = 85) as ->
      by (vm_compute; reflexivity).
  reflexivity.
Qed.

Lemma pulseScaleAt_before (dt : Q) : dt < 0 -> pulseScaleAt dt == 1.
Proof.
  intro H. unfold pulseScaleAt.
  assert (Qltb dt 0 = true) as -> by (apply Qltb_true; lra).
  reflexivity.
Qed.

(** The pulse profile changes by at most [0.18/65] per millisecond. *)
Lemma pulseScaleAt_lipschitz (d1 d2 : Q) :
  Qabs (pulseScaleAt d1 - pulseScaleAt d2) <= (18 # 6500) * Qabs (d1 - d2).
Proof.
  assert (forall d, (d < 0 /\ pulseScaleAt d == 1) \/
                    (0 <= d <= 65 /\ pulseScaleAt d == 1 - (1 - 0.82) * (d / 65)) \/
                    (65 < d <= 150 /\ pulseScaleAt d == 0.82 + (1 - 0.82) * ((d - 65) / 85)) \/
                    (150 < d /\ pulseScaleAt d == 1)) as Hcases.
  { intro d.
    destruct (Qlt_le_dec d 0) as [H0|H0]; [left; split; [lra | now apply pulseScaleAt_before]|].
    destruct (Qlt_le_dec 65 d) as [H1|H1].
    - destruct (Qlt_le_dec 150 d) as [H2|H2].
      + right; right; right. split; [lra | now apply pulseScaleAt_after].
      + right; right; left. split; [lra | apply pulseScaleAt_up; lra].
    - right; left. split; [lra | apply pulseScaleAt_down; lra]. }
  destruct (Hcases d1) as [[R1 E1]|[[R1 E1]|[[R1 E1]|[R1 E1]]]];
  destruct (Hcases d2) as [[R2 E2]|[[R2 E2]|[[R2 E2]|[R2 E2]]]];
  rewrite E1, E2; qdiv_const;
  apply Qabs_case; intro; apply Qabs_case; intro; lra.
Qed.

Lemma sampleClickPulseScale_latest (clicks : list Q) (tc ts : Q) :
  Sorted Qle clicks -> latestClick clicks tc ts ->
  exists d, sampleClickPulseScale clicks ts = Some (pulseScaleAt d) /\ d == ts - tc.
Proof.
  intros HS (Hin & Hle & Hlatest).
  unfold sampleClickPulseScale.
  destruct clicks as [|c0 clicks0] eqn:Hclicks; [contradiction|].
  rewrite <- Hclicks in *. cbv zeta.
  assert (0 < length clicks)%nat as Hlen by (rewrite Hclicks; simpl; lia).
  destruct (searchLatestClick_spec clicks ts HS (length clicks) 0
              (Z.of_nat (length clicks) - 1) (-1)) as (r & Hr & Hrange & Hbelow & Habove);
    try lia; try (intros i Hi; lia).
  rewrite Hr.
  destruct (In_nth clicks tc 0 Hin) as (j & Hj & Hnth).
  assert (Z.of_nat j <= r)%Z as Hjr.
  { destruct (Z_le_gt_dec (Z.of_nat j) r) as [|Hgt]; [assumption|].
    specialize (Habove (Z.of_nat j)). rewrite Nat2Z.id, Hnth in Habove.
    assert (ts < tc) by (apply Habove; lia). lra. }
  assert ((r <? 0)%Z = false) as -> by (apply Z.ltb_ge; lia).
  exists (ts - nth (Z.to_nat r) clicks 0). split; [reflexivity|].
  assert (nth (Z.to_nat r) clicks 0 <= ts) as Hrts by (apply Hbelow; lia).
  assert (tc <= nth (Z.to_nat r) clicks 0) as Hlow.
  { rewrite <- Hnth. apply Sorted_Qle_nth; [assumption|]. lia. }
  assert (In (nth (Z.to_nat r) clicks 0) clicks) as Hinr by (apply nth_In; lia).
  destruct (Hlatest _ Hinr); lra.
Qed.

End ClickPulseFacts.

(** C1, as the code has it.  For a sorted list of click times and a click
    [tc] that is the latest one at or before the sample times [ts1] and
    [ts2], the pulse is returned and follows the three-branch profile of
    [dt = ts - tc]: 1 after 150 ms, [1 - (1 - 0.82) * (dt / 65)] up to 65 ms
    and [0.82 + (1 - 0.82) * ((dt - 65) / 85)] in between; so the scale is 1
    at [tc], reaches its minimum 0.82 at [tc + 65] and is back at 1 at
    [tc + 150]; and it is continuous: two samples under the same latest click
    differ by at most [0.18/65] per millisecond. *)
Theorem sampleClickPulseScale_profile (clicks : list Q) (tc ts1 ts2 : Q) :
  Sorted Qle clicks -> latestClick clicks tc ts1 -> latestClick clicks tc ts2 ->
  exists v1 v2,
    sampleClickPulseScale clicks ts1 = Some v1 /\
    sampleClickPulseScale clicks ts2 = Some v2 /\
    (150 < ts1 - tc -> v1 == 1) /\
    (ts1 - tc <= 65 -> v1 == 1 - (1 - 0.82) * ((ts1 - tc) / 65)) /\
    (65 < ts1 - tc <= 150 -> v1 == 0.82 + (1 - 0.82) * ((ts1 - tc - 65) / 85)) /\
    (ts1 == tc -> v1 == 1) /\
    (ts1 == tc + 65 -> v1 == 0.82) /\
    (ts1 == tc + 150 -> v1 == 1) /\
    Qabs (v1 - v2) <= (18 # 6500) * Qabs (ts1 - ts2).
Proof.
  intros HS H1 H2.
  destruct (sampleClickPulseScale_latest clicks tc ts1 HS H1) as (d1 & E1 & Hd1).
  destruct (sampleClickPulseScale_latest clicks tc ts2 HS H2) as (d2 & E2 & Hd2).
  exists (pulseScaleAt d1), (pulseScaleAt d2).
  destruct H1 as (_ & Hle1 & _).
  split; [exact E1|]. split; [exact E2|].
  repeat split.
  - intro H. rewrite pulseScaleAt_after; [reflexivity | lra].
  - intro H. rewrite pulseScaleAt_down by lra. qdiv_const. lra.
  - intros [Ha Hb]. rewrite pulseScaleAt_up by lra. qdiv_const. lra.
  - intro H. rewrite pulseScaleAt_down by lra. qdiv_const. lra.
  - intro H. rewrite pulseScaleAt_down by lra. qdiv_const. lra.
  - intro H. rewrite pulseScaleAt_up by lra. qdiv_const. lra.
  - eapply Qle_trans; [apply pulseScaleAt_lipschitz|].
    assert (d1 - d2 == ts1 - ts2) as -> by lra. lra.
Qed.

(** A single click at 1000 ms sampled at 1065 ms and at 1150 ms. *)
Lemma sampleClickPulseScale_profile_witness :
  exists v1 v2,
    sampleClickPulseScale [1000] 1065 = Some v1 /\
    sampleClickPulseScale [1000] 1150 = Some v2 /\
    v1 == 0.82 /\ Qabs (v1 - v2) <= (18 # 6500) * Qabs (1065 - 1150).
Proof.
  assert (Sorted Qle [1000]) as HS by (repeat constructor).
  assert (forall ts, 1000 <= ts -> latestClick [1000] 1000 ts) as HL.
  { intros ts Hts. split; [left; reflexivity|]. split; [exact Hts|].
    intros c [<-|[]]. left. lra. }
  destruct (sampleClickPulseScale_profile [1000] 1000 1065 1150 HS
              (HL 1065 ltac:(lra)) (HL 1150 ltac:(lra)))
    as (v1 & v2 & E1 & E2 & _ & _ & _ & _ & Hmin & _ & Hlip).
  exists v1, v2. repeat split; try assumption. apply Hmin. reflexivity.
Defined.

(** At the click time itself the code returns 1, not the minimum 0.82. *)
Lemma sampleClickPulseScale_at_click_not_min :
  Sorted Qle [1000] /\ latestClick [1000] 1000 1000 /\
  ~ (exists v, sampleClickPulseScale [1000] 1000 = Some v /\ v == 0.82).
Proof.
  split; [repeat constructor|]. split.
  - split; [left; reflexivity|]. split; [lra|]. intros c [<-|[]]. left. lra.
  - intros (v & Hv & Heq). vm_compute in Hv. injection Hv as <-.
    revert Heq. vm_compute. discriminate.
Qed.

(** ** The stable sort *)

Section SortFacts.

Context {A : Type} (key : A -> Q).

Lemma insertBy_perm (a : A) (l : list A) : Permutation (insertBy key a l) (a :: l).
Proof.
  induction l as [|b l IH]; simpl.
  - apply Permutation_refl.
  - destruct (Qleb (key a) (key b)).
    + apply Permutation_refl.
    + apply perm_trans with (b :: a :: l); [apply perm_skip, IH | apply perm_swap].
Qed.

Lemma sortBy_perm (l : list A) : Permutation (sortBy key l) l.
Proof.
  induction l as [|a l IH]; simpl.
  - apply Permutation_refl.
  - apply perm_trans with (a :: sortBy key l); [apply insertBy_perm | apply perm_skip, IH].
Qed.

Lemma sortBy_In (l : list A) (a : A) : In a (sortBy key l) <-> In a l.
Proof.
  split; apply Permutation_in; [|apply Permutation_sym]; apply sortBy_perm.
Qed.

Lemma sortBy_length (l : list A) : length (sortBy key l) = length l.
Proof. apply Permutation_length, sortBy_perm. Qed.

Lemma insertBy_sorted (a : A) (l : list A) :
  Sorted (keyLe key) l -> Sorted (keyLe key) (insertBy key a l).
Proof.
  induction 1 as [|b l HS IH Hhd]; simpl.
  - repeat constructor.
  - destruct (Qleb (key a) (key b)) eqn:E.
    + apply Qleb_true in E. repeat constructor; assumption.
    + apply Qleb_false in E. constructor; [exact IH|].
      destruct l as [|c l]; simpl.
      * constructor. unfold keyLe. lra.
      * inversion Hhd; subst. destruct (Qleb (key a) (key c));
          constructor; unfold keyLe in *; lra.
Qed.

Lemma sortBy_sorted (l : list A) : Sorted (keyLe key) (sortBy key l).
Proof.
  induction l as [|a l IH]; simpl; [constructor | apply insertBy_sorted, IH].
Qed.

(** Sorting a list that is already in order returns it unchanged. *)
Lemma sortBy_sorted_id (l : list A) : Sorted (keyLe key) l -> sortBy key l = l.
Proof.
  induction 1 as [|a l HS IH Hhd]; simpl; [reflexivity|].
  rewrite IH. destruct Hhd as [|b l Hab]; simpl; [reflexivity|].
  assert (Qleb (key a) (key b) = true) as -> by (apply Qleb_true; exact Hab).
  reflexivity.
Qed.

Lemma keyLe_trans : Relations_1.Transitive (keyLe key).
Proof. intros a b c Hab Hbc. unfold keyLe in *. lra. Qed.

Lemma Sorted_keyLe_all (a : A) (l : list A) :
  Sorted (keyLe key) (a :: l) -> forall b, In b l -> key a <= key b.
Proof.
  intros HS b Hb. apply Sorted_StronglySorted in HS; [|apply keyLe_trans].
  inversion HS as [|? ? _ Hall]; subst.
  rewrite Forall_forall in Hall. apply Hall, Hb.
Qed.

End SortFacts.

(** ** Geometry *)

Lemma normalizeRect_valid (r : NormalizedRect) : rectValid (normalizeRect r).
Proof.
  unfold rectValid, normalizeRect, clamp, MIN_RECT_SIZE. simpl.
  split_minmax; repeat split; lra.
Qed.

Lemma normalizeRect_idem (r : NormalizedRect) :
  normalizeRect (normalizeRect r) = normalizeRect r.
Proof.
  unfold normalizeRect. simpl. rewrite !clamp_idem. reflexivity.
Qed.

Lemma rectValidb_spec (r : NormalizedRect) : rectValidb r = true <-> rectValid r.
Proof.
  unfold rectValidb, rectValid. rewrite !andb_true_iff, !Qleb_true. tauto.
Qed.

Lemma FULL_RECT_valid : rectValid FULL_RECT.
Proof. apply rectValidb_spec. reflexivity. Qed.

(** ** Spring camera integrator *)

(** C3.  One integration step clamps [dt] to [[1e-4, 0.1]] seconds and
    returns [velocity' = velocity + dt * ((target - current) * stiffness -
    damping * velocity) / mass] and [value' = current + velocity' * dt], for
    every state, target, time step and spring with [mass > 0],
    [stiffness > 0] and [damping >= 0]. *)
Theorem springStep_integrates (current velocity0 target dtSeconds : Q)
    (spring : CameraSpring) :
  0 < mass spring -> 0 < stiffness spring -> 0 <= damping spring ->
  let dt := clamp dtSeconds 0.0001 0.1 in
  let next := springStep current velocity0 target spring dtSeconds in
  0.0001 <= dt <= 0.1 /\
  (0.0001 <= dtSeconds <= 0.1 -> dt = dtSeconds) /\
  (dtSeconds < 0.0001 -> dt = 0.0001) /\
  (0.1 < dtSeconds -> dt = 0.1) /\
  velocity next ==
    velocity0
    + dt * ((target - current) * stiffness spring - damping spring * velocity0)
      / mass spring /\
  value next == current + velocity next * dt.
Proof.
  intros Hm Hk Hd dt next. subst dt next. unfold springStep. simpl.
  split; [apply clamp_bounds; lra|].
  split; [intro H; apply clamp_inside; exact H|].
  split; [intro H; unfold clamp; split_minmax; try reflexivity; exfalso; lra|].
  split; [intro H; unfold clamp; split_minmax; try reflexivity; exfalso; lra|].
  split; [|reflexivity].
  field. intro H0. rewrite H0 in Hm. lra.
Qed.

(** The default spring over one preview frame. *)
Lemma springStep_integrates_witness :
  velocity (springStep 0 0 (1 # 2) DEFAULT_SPRING 0.017) == 1.445 /\
  value (springStep 0 0 (1 # 2) DEFAULT_SPRING 0.017) == 0.024565.
Proof.
  destruct (springStep_integrates 0 0 (1 # 2) 0.017 DEFAULT_SPRING)
    as (_ & Hin & _ & _ & Hv & Hx);
    [reflexivity | reflexivity | discriminate |].
  rewrite Hx, Hv, Hin by (split; discriminate).
  split; reflexivity.
Defined.

Section TrackFacts.

Variable runtimeSegments : list RuntimeSegment.
Variables durationMs stepMs : Q.
Hypothesis duration_pos : 0 < durationMs.
Hypothesis step_pos : 0 < stepMs.

Local Abbreviation frameTs := (frameTs durationMs stepMs).
Local Abbreviation trackInv := (trackInv durationMs stepMs).

Lemma strictlyIncreasing_snoc (l : list Q) (b : Q) :
  strictlyIncreasing l -> (forall a, l <> [] -> a = last l 0 -> a < b) ->
  strictlyIncreasing (l ++ [b]).
Proof.
  induction l as [|a l IH]; intros Hl Hlast; simpl.
  - auto.
  - destruct Hl as [Hhd Htl]. split.
    + destruct l as [|c l]; simpl.
      * apply Hlast; [discriminate | reflexivity].
      * exact Hhd.
    + apply IH; [exact Htl|]. intros a' Hne ->.
      apply Hlast; [discriminate|]. destruct l; [contradiction | reflexivity].
Qed.

Lemma frameTs_le (k : Z) : frameTs k <= durationMs.
Proof. unfold frameTs. split_minmax; lra. Qed.

Lemma frameTs_late (k : Z) :
  (Z.of_nat (trackFrames durationMs stepMs) <= k)%Z -> durationMs <= frameTs k.
Proof.
  intro Hk. unfold frameTs.
  assert (durationMs + 1 <= inject_Z k * stepMs) as Hreach.
  { unfold trackFrames in Hk.
    set (q := (durationMs + 1) / stepMs) in *.
    assert (durationMs + 1 == q * stepMs) as -> by (unfold q; field; lra).
    apply Qmult_le_compat_r; [|lra].
    apply Qle_trans with (inject_Z (Qceiling q)); [apply Qle_ceiling|].
    rewrite <- Zle_Qle. lia. }
  assert (durationMs <= Math_round (inject_Z k * stepMs)) as Hround.
  { unfold Math_round.
    pose proof (Qlt_floor (inject_Z k * stepMs + (1 # 2))) as Hfl.
    rewrite inject_Z_plus in Hfl. change (inject_Z 1) with 1 in Hfl. lra. }
  split_minmax; lra.
Qed.

Lemma trackStep_inv (st : TrackState) :
  trackInv st -> trackInv (trackStep runtimeSegments durationMs stepMs st).
Proof.
  intros ((c & rest & Hs & Hc) & Hinc & Hlast & Hle & Hframe & Hseen).
  unfold trackStep. fold (frameTs (st_frame st)).
  destruct (Qleb (frameTs (st_frame st)) (st_previousTs st)) eqn:Hcmp.
  - apply Qleb_true in Hcmp. unfold trackInv. simpl.
    split; [eauto|]. split; [assumption|]. split; [assumption|].
    split; [assumption|]. split; [lia|].
    intros _. replace (st_frame st + 1 - 1)%Z with (st_frame st) by lia. exact Hcmp.
  - apply Qleb_false in Hcmp.
    destruct (alloc _ _) as [store5 rect'] eqn:Halloc.
    unfold trackInv. simpl.
    split; [rewrite Hs; simpl; eauto|].
    rewrite map_app. simpl.
    split.
    { apply strictlyIncreasing_snoc; [assumption|].
      intros a _ ->. rewrite Hlast. exact Hcmp. }
    split; [apply last_last|].
    split; [apply frameTs_le|].
    split; [lia|].
    intros _. replace (st_frame st + 1 - 1)%Z with (st_frame st) by lia. lra.
Qed.

Lemma trackLoop_returns (fuel : nat) :
  forall st,
    trackInv st ->
    (Z.of_nat (trackFrames durationMs stepMs) + 1 - st_frame st <= Z.of_nat fuel)%Z ->
    exists st',
      trackLoop fuel runtimeSegments durationMs stepMs st = Some st' /\
      trackInv st' /\ st_previousTs st' == durationMs.
Proof.
  induction fuel as [|fuel IH]; intros st Hinv Hfuel; simpl.
  - destruct (Qltb (st_previousTs st) durationMs) eqn:Hcond.
    + exfalso. apply Qltb_true in Hcond.
      destruct Hinv as (_ & _ & _ & _ & Hframe & Hseen).
      assert (0 < trackFrames durationMs stepMs)%nat as Hpos.
      { destruct (trackFrames durationMs stepMs) eqn:E; [|lia].
        pose proof (frameTs_late 0) as H0. rewrite E in H0.
        specialize (H0 ltac:(simpl; lia)). unfold frameTs, Math_round in H0.
        assert (inject_Z 0 * stepMs + (1 # 2) == 1 # 2) as Hq by (change (inject_Z 0) with 0; lra).
        rewrite Hq in H0. change (inject_Z (Qfloor (1 # 2))) with 0 in H0.
        revert H0. split_minmax; lra. }
      assert (durationMs <= frameTs (st_frame st - 1)) by (apply frameTs_late; lia).
      specialize (Hseen ltac:(lia)). lra.
    + apply Qltb_false in Hcond. exists st. split; [reflexivity|].
      split; [assumption|]. destruct Hinv as (_ & _ & _ & Hle & _). lra.
  - destruct (Qltb (st_previousTs st) durationMs) eqn:Hcond.
    + apply IH; [apply trackStep_inv; assumption|].
      assert (st_frame (trackStep runtimeSegments durationMs stepMs st)
              = (st_frame st + 1)%Z) as ->.
      { unfold trackStep. destruct (Qleb _ _); [reflexivity|].
        destruct (alloc _ _). reflexivity. }
      lia.
    + apply Qltb_false in Hcond. exists st. split; [reflexivity|].
      split; [assumption|]. destruct Hinv as (_ & _ & _ & Hle & _). lra.
Qed.

(** More fuel never changes the result of the loop. *)
Lemma trackLoop_fuel_mono (fuel : nat) :
  forall st st',
    trackLoop fuel runtimeSegments durationMs stepMs st = Some st' ->
    trackLoop (S fuel) runtimeSegments durationMs stepMs st = Some st'.
Proof.
  induction fuel as [|fuel IH]; intros st st' H.
  - simpl in *. destruct (Qltb _ _); [discriminate | exact H].
  - simpl in H. change (trackLoop (S (S fuel)) runtimeSegments durationMs stepMs st)
      with (if Qltb (st_previousTs st) durationMs
            then trackLoop (S fuel) runtimeSegments durationMs stepMs
                   (trackStep runtimeSegments durationMs stepMs st)
            else Some st).
    destruct (Qltb _ _); [apply IH; exact H | exact H].
Qed.

End TrackFacts.

Lemma readSamples_ts (store : Store) (cells : list SampleCell) :
  map sample_ts (readSamples store cells) = map cell_ts cells.
Proof. unfold readSamples. rewrite map_map. reflexivity. Qed.

(** C4.  For every segment list and every [durationMs > 0] the camera
    track is returned, its sample times increase strictly, the first sample
    is at 0 and the last at [durationMs]. *)
Theorem buildSpringCameraTrack_monotonic (runtimeSegments : list RuntimeSegment)
    (durationMs fps : Q) :
  0 < durationMs ->
  exists track,
    buildSpringCameraTrack runtimeSegments durationMs fps = Some track /\
    strictlyIncreasing (map sample_ts track) /\
    (exists first rest, track = first :: rest /\ sample_ts first = 0) /\
    last (map sample_ts track) 0 == durationMs.
Proof.
  intro Hpos. unfold buildSpringCameraTrack.
  assert (Qleb durationMs 0 = false) as -> by (apply Qleb_false; exact Hpos).
  set (stepMs := 1000 / Qmax 1 fps).
  assert (0 < stepMs) as Hstep.
  { unfold stepMs. apply Qlt_shift_div_l; split_minmax; lra. }
  unfold alloc. cbv iota beta. simpl app. simpl length.
  match goal with
  | |- context [trackLoop ?f ?s ?d ?m ?st] =>
      destruct (trackLoop_returns s d m Hpos Hstep f st) as (st' & Hrun & Hinv & Hend)
  end.
  - unfold trackInv. simpl.
    split; [eauto|]. split; [auto|]. split; [reflexivity|]. split; [lra|].
    split; [lia|]. intro H. lia.
  - simpl. lia.
  - rewrite Hrun. eexists. split; [reflexivity|].
    destruct Hinv as ((c & rest & Hs & Hc) & Hinc & Hlast & _).
    rewrite readSamples_ts.
    split; [assumption|].
    split.
    + rewrite Hs. simpl. eauto.
    + rewrite Hlast. exact Hend.
Qed.

(** A track of 50 ms at the preview rate: samples at 0, 17, 33 and 50. *)
Lemma buildSpringCameraTrack_monotonic_witness :
  exists track,
    buildSpringCameraTrack [] 50 PREVIEW_SPRING_FPS = Some track /\
    strictlyIncreasing (map sample_ts track) /\
    (exists first rest, track = first :: rest /\ sample_ts first = 0) /\
    last (map sample_ts track) 0 == 50.
Proof.
  apply (buildSpringCameraTrack_monotonic [] 50 PREVIEW_SPRING_FPS). reflexivity.
Defined.

(** C10.  When the requested duration is not positive the builder returns
    the single sample [{ts: 0, rect: FULL_RECT}], whatever the segments. *)
Theorem buildSpringCameraTrack_empty_duration (runtimeSegments : list RuntimeSegment)
    (durationMs fps : Q) :
  durationMs <= 0 ->
  buildSpringCameraTrack runtimeSegments durationMs fps
  = Some [mkSample 0 (mkRect 0 0 1 1)].
Proof.
  intro H. unfold buildSpringCameraTrack.
  assert (Qleb durationMs 0 = true) as -> by (apply Qleb_true; exact H).
  reflexivity.
Qed.

Lemma buildSpringCameraTrack_empty_duration_witness :
  buildSpringCameraTrack [stiffSegment] (-5) PREVIEW_SPRING_FPS
  = Some [mkSample 0 (mkRect 0 0 1 1)].
Proof.
  apply (buildSpringCameraTrack_empty_duration [stiffSegment] (-5) PREVIEW_SPRING_FPS).
  discriminate.
Defined.

(** C5 on the code.  Every output of [normalizeRect] satisfies the rect
    invariants ([normalizeRect_valid]), but a camera-track sample need not:
    the sample pushed at step [i] aliases the object step [i + 1] writes
    the raw spring values into.  With one segment at [{0.5, 0.5, 0.5, 0.5}]
    on a stiff undamped spring and a 50 ms track at 60 fps, the sample at
    17 ms reads [x = 1.1177] and [width = -0.1177]. *)
Theorem buildSpringCameraTrack_sample_not_valid :
  exists track s,
    buildSpringCameraTrack [stiffSegment] 50 PREVIEW_SPRING_FPS = Some track /\
    nth_error track 1 = Some s /\
    sample_ts s == 17 /\
    rect_x (sample_rect s) == 1.1177 /\
    rect_width (sample_rect s) == -0.1177 /\
    ~ rectValid (sample_rect s).
Proof.
  eexists. eexists. split; [vm_compute; reflexivity|].
  split; [reflexivity|].
  split; [reflexivity|]. split; [reflexivity|]. split; [reflexivity|].
  rewrite <- rectValidb_spec. vm_compute. discriminate.
Qed.

(** ** Cursor smoothing *)

Section SmoothingFacts.

Lemma smoothSamples_length (alpha sx sy : Q) (rest : list CursorSample) :
  length (smoothSamples alpha sx sy rest) = length rest.
Proof.
  revert sx sy. induction rest as [|s rest IH]; intros sx sy; simpl;
    [reflexivity | now rewrite IH].
Qed.

(** The recurrence of the loop at index [i] of the tail: the previous
    output is the seed for [i = 0]. *)
Lemma smoothSamples_nth (alpha : Q) (rest : list CursorSample) :
  forall sx sy i,
    (i < length rest)%nat ->
    let out := smoothSamples alpha sx sy rest in
    let prevX := match i with O => sx | S j => cs_x (nth j out emptySample) end in
    let prevY := match i with O => sy | S j => cs_y (nth j out emptySample) end in
    cs_ts (nth i out emptySample) = cs_ts (nth i rest emptySample) /\
    cs_x (nth i out emptySample)
      = prevX + alpha * (cs_x (nth i rest emptySample) - prevX) /\
    cs_y (nth i out emptySample)
      = prevY + alpha * (cs_y (nth i rest emptySample) - prevY).
Proof.
  induction rest as [|s rest IH]; intros sx sy i Hi; simpl in Hi; [lia|].
  destruct i as [|i]; simpl.
  - repeat split.
  - specialize (IH (sx + alpha * (cs_x s - sx)) (sy + alpha * (cs_y s - sy)) i ltac:(lia)).
    destruct i as [|i]; simpl in *; exact IH.
Qed.

Lemma smoothSamples_identity (alpha : Q) (rest : list CursorSample) :
  alpha == 1 ->
  forall sx sy, Forall2 sampleEq (smoothSamples alpha sx sy rest) rest.
Proof.
  intro Ha. induction rest as [|s rest IH]; intros sx sy; simpl; constructor.
  - unfold sampleEq. simpl. split; [reflexivity|]. rewrite Ha. split; lra.
  - apply IH.
Qed.

Lemma sampleEq_refl (s : CursorSample) : sampleEq s s.
Proof. unfold sampleEq. repeat split; reflexivity. Qed.

Lemma Forall2_sampleEq_refl (l : list CursorSample) : Forall2 sampleEq l l.
Proof. induction l; constructor; [apply sampleEq_refl | assumption]. Qed.

End SmoothingFacts.

(** A missing events file or a non-positive screen size yields no samples. *)
Lemma extractCursorSamples_guard (file : EventsFile) (smoothingFactor : Q) :
  screenWidth file <= 0 \/ screenHeight file <= 0 ->
  extractCursorSamples None smoothingFactor = [] /\
  extractCursorSamples (Some file) smoothingFactor = [].
Proof.
  intro H. split; [reflexivity|]. unfold extractCursorSamples.
  destruct H as [H|H]; apply Qleb_true in H; rewrite H;
    [|rewrite orb_true_r]; reflexivity.
Qed.

(** The smoothing contract over exact arithmetic.  For every events
    file (with a positive screen size) and every [smoothingFactor] in
    [[0, 1]], the output of the cursor pipeline is the exponential moving
    average [out[i] = out[i-1] + alpha * (in[i] - out[i-1])],
    [out[0] = in[0]], with [alpha = 1 - 0.9 * smoothingFactor], of the
    normalized samples sorted by time; sample times are kept.  With
    [smoothingFactor = 0] the output equals the input samples, and with
    [smoothingFactor = 1] the coefficient is 0.1. *)
Lemma extractCursorSamples_ewma_exact (file : EventsFile) (smoothingFactor : Q) :
  0 < screenWidth file -> 0 < screenHeight file -> 0 <= smoothingFactor <= 1 ->
  let input := sortBy cs_ts (normalizedSamples file) in
  let out := extractCursorSamples (Some file) smoothingFactor in
  let alpha := 1 - 0.9 * smoothingFactor in
  let ewma (a : Q) (i : nat) :=
    cs_ts (nth i out emptySample) = cs_ts (nth i input emptySample) /\
    cs_x (nth i out emptySample)
      == cs_x (nth (i - 1) out emptySample)
         + a * (cs_x (nth i input emptySample) - cs_x (nth (i - 1) out emptySample)) /\
    cs_y (nth i out emptySample)
      == cs_y (nth (i - 1) out emptySample)
         + a * (cs_y (nth i input emptySample) - cs_y (nth (i - 1) out emptySample)) in
  Sorted (keyLe cs_ts) input /\ Permutation input (normalizedSamples file) /\
  length out = length input /\
  nth 0 out emptySample = nth 0 input emptySample /\
  (forall i, (0 < i < length input)%nat -> ewma alpha i) /\
  (smoothingFactor == 0 -> Forall2 sampleEq out input) /\
  (smoothingFactor == 1 -> forall i, (0 < i < length input)%nat -> ewma 0.1 i).
Proof.
  intros Hw Hh Hsf input out alpha ewma.
  split; [apply sortBy_sorted|]. split; [apply sortBy_perm|].
  assert (Hcode :
    out = match input with
          | [] | [_] => input
          | first :: rest =>
              first :: smoothSamples (1 - smoothingFactor * 0.9)
                         (cs_x first) (cs_y first) rest
          end).
  { subst out. unfold extractCursorSamples.
    assert (Qleb (screenWidth file) 0 = false) as -> by (apply Qleb_false; exact Hw).
    assert (Qleb (screenHeight file) 0 = false) as -> by (apply Qleb_false; exact Hh).
    simpl. fold input. rewrite (clamp_inside smoothingFactor 0 1 Hsf).
    destruct input as [|first [|second rest]]; reflexivity. }
  assert (Hrec : forall a, a == 1 - smoothingFactor * 0.9 ->
                 forall i, (0 < i < length input)%nat -> ewma a i).
  { intros a Ha i Hi. subst ewma. cbv beta. rewrite Hcode.
    destruct input as [|first [|second rest]]; simpl in Hi; try lia.
    destruct i as [|i]; [lia|].
    replace (S i - 1)%nat with i by lia.
    pose proof (smoothSamples_nth (1 - smoothingFactor * 0.9) (second :: rest)
                  (cs_x first) (cs_y first) i ltac:(simpl; lia)) as (Hts & Hx & Hy).
    cbv zeta in Hx, Hy.
    change (nth (S i) (first :: ?l) emptySample) with (nth i l emptySample).
    split; [exact Hts|].
    rewrite Hx, Hy, Ha.
    destruct i as [|i]; simpl; split; reflexivity. }
  split; [|split; [|split; [|split]]].
  - rewrite Hcode. destruct input as [|first [|second rest]]; try reflexivity.
    simpl. now rewrite smoothSamples_length.
  - rewrite Hcode. destruct input as [|first [|second rest]]; reflexivity.
  - apply Hrec. subst alpha. lra.
  - intro H0. rewrite Hcode.
    destruct input as [|first [|second rest]]; try apply Forall2_sampleEq_refl.
    constructor; [apply sampleEq_refl|].
    apply smoothSamples_identity. rewrite H0. lra.
  - intro H1. apply Hrec. rewrite H1. reflexivity.
Qed.

(** ** Gap search *)

Section GapFacts.

Variable safeDuration : Q.
Hypothesis duration_nonneg : 0 <= safeDuration.

Lemma scanGaps_clear (sorted : list ZoomSegment) :
  forall (before : list ZoomSegment) (cursor : Q) (gaps : list Gap),
    Sorted (keyLe startTs) sorted ->
    0 <= cursor <= safeDuration ->
    (forall seg, In seg before -> clamp (endTs seg) 0 safeDuration <= cursor) ->
    (forall gap seg, In gap gaps -> In seg (before ++ sorted) ->
                     clearOf (gap_start gap) (gap_end gap) seg) ->
    let '(cursor', gaps') := scanGaps sorted safeDuration cursor gaps in
    0 <= cursor' <= safeDuration /\
    (forall seg, In seg (before ++ sorted) ->
                 clamp (endTs seg) 0 safeDuration <= cursor') /\
    (forall gap seg, In gap gaps' -> In seg (before ++ sorted) ->
                     clearOf (gap_start gap) (gap_end gap) seg).
Proof.
  induction sorted as [|s rest IH]; intros before cursor gaps HS Hcur Hbefore Hgaps.
  - simpl. rewrite app_nil_r in *. auto.
  - simpl scanGaps.
    set (segStart := clamp (startTs s) 0 safeDuration).
    set (segEnd := clamp (endTs s) 0 safeDuration).
    set (gaps' := if Qltb cursor segStart then _ else gaps).
    assert (0 <= segEnd <= safeDuration) as HsegEnd by (apply clamp_bounds; lra).
    assert (0 <= segStart <= safeDuration) as HsegStart by (apply clamp_bounds; lra).
    assert (Sorted (keyLe startTs) rest) as HSrest by (inversion HS; assumption).
    pose proof (Sorted_keyLe_all startTs s rest HS) as Hlater.
    specialize (IH (before ++ [s]) (Qmax cursor segEnd) gaps' HSrest).
    rewrite <- app_assoc in IH. simpl app in IH.
    apply IH; clear IH.
    + split_minmax; lra.
    + intros seg Hin. apply in_app_or in Hin. destruct Hin as [Hin|[<-|[]]].
      * specialize (Hbefore seg Hin). split_minmax; lra.
      * fold segEnd. split_minmax; lra.
    + intros gap seg Hgap Hseg. subst gaps'.
      destruct (Qltb cursor segStart) eqn:Hlt; [|apply Hgaps; assumption].
      apply Qltb_true in Hlt.
      destruct (Qleb MIN_SEGMENT_MS _) eqn:Hlen; [|apply Hgaps; assumption].
      apply in_app_or in Hgap. destruct Hgap as [Hgap|[<-|[]]];
        [apply Hgaps; assumption|].
      simpl gap_start. simpl gap_end. unfold clearOf, MIN_SEGMENT_GAP_MS.
      assert (segStart <= startTs s) as Hstart.
      { subst segStart. revert Hlt. unfold clamp. split_minmax; lra. }
      apply in_app_or in Hseg. destruct Hseg as [Hseg|[<-|Hseg]].
      * right. specialize (Hbefore seg Hseg).
        assert (endTs seg <= cursor) as Hend.
        { revert Hbefore. unfold clamp. split_minmax; lra. }
        destruct (Qleb cursor 0) eqn:Hc0.
        -- apply Qleb_true in Hc0. split; lra.
        -- apply Qleb_false in Hc0. split; lra.
      * left. lra.
      * left. specialize (Hlater seg Hseg). lra.
Qed.

End GapFacts.

Lemma slot_inside_gap (preferred gapStart gapEnd : Q) :
  let startTs0 := clamp preferred gapStart (Qmax gapStart (gapEnd - MIN_SEGMENT_MS)) in
  let endTs0 := Qmin (startTs0 + 1600) gapEnd in
  (gapStart <= startTs0 /\ endTs0 <= gapEnd) /\
  (gapStart <= Qmax gapStart (gapEnd - MIN_SEGMENT_MS)).
Proof.
  unfold clamp, MIN_SEGMENT_MS. cbv zeta. split_minmax; lra.
Qed.

(** Every slot the search returns lies inside a gap that is clear of all
    the segments. *)
Lemma findAvailableGapForSegment_clear (segments : list ZoomSegment)
    (timelineDurationMs preferredStartTs : Q) (slot : Slot) :
  findAvailableGapForSegment segments timelineDurationMs preferredStartTs = Some slot ->
  forall seg, In seg segments -> clearOf (slot_startTs slot) (slot_endTs slot) seg.
Proof.
  unfold findAvailableGapForSegment.
  set (safeDuration := Qmax 0 timelineDurationMs).
  assert (0 <= safeDuration) as Hdur by (subst safeDuration; split_minmax; lra).
  destruct (Qltb safeDuration MIN_SEGMENT_MS); [discriminate|].
  pose proof (scanGaps_clear safeDuration Hdur (sortBy startTs segments) [] 0 []
                (sortBy_sorted startTs segments)) as Hscan.
  destruct (scanGaps (sortBy startTs segments) safeDuration 0 []) as [cursor gaps0].
  simpl app in Hscan.
  destruct Hscan as (Hcur & Hends & Hgaps0); [lra | intros ? [] | intros ? ? [] |].
  set (gaps := if Qltb cursor safeDuration then _ else gaps0).
  assert (forall gap seg, In gap gaps -> In seg segments ->
                          clearOf (gap_start gap) (gap_end gap) seg) as Hgaps.
  { intros gap seg Hgap Hseg.
    apply (proj2 (sortBy_In startTs _ _)) in Hseg.
    subst gaps. destruct (Qltb cursor safeDuration) eqn:Hlt; [|apply Hgaps0; assumption].
    apply Qltb_true in Hlt.
    destruct (Qleb MIN_SEGMENT_MS _); [|apply Hgaps0; assumption].
    apply in_app_or in Hgap. destruct Hgap as [Hgap|[<-|[]]];
      [apply Hgaps0; assumption|].
    simpl. right. specialize (Hends seg Hseg).
    assert (endTs seg <= cursor) as Hend.
    { revert Hends. unfold clamp. split_minmax; lra. }
    unfold MIN_SEGMENT_GAP_MS.
    destruct (Qleb cursor 0) eqn:Hc0.
    - apply Qleb_true in Hc0. split; lra.
    - apply Qleb_false in Hc0. split; lra. }
  clearbody gaps.
  set (preferred := clamp preferredStartTs 0 (safeDuration - MIN_SEGMENT_MS)).
  destruct (find _ gaps) as [gap|] eqn:Hfind; [|discriminate].
  apply find_some in Hfind. destruct Hfind as [Hin _].
  pose proof (slot_inside_gap preferred (gap_start gap) (gap_end gap)) as Hslot.
  cbv zeta in Hslot. destruct Hslot as ((Hs & He) & Hfallback).
  intros Hres seg Hseg. specialize (Hgaps gap seg Hin Hseg).
  set (fallbackStart := Qmax (gap_start gap) (gap_end gap - MIN_SEGMENT_MS)) in *.
  set (startTs0 := clamp preferred (gap_start gap) fallbackStart) in *.
  set (endTs0 := Qmin (startTs0 + 1600) (gap_end gap)) in *.
  assert (gap_start gap <= slot_startTs slot /\ slot_endTs slot <= gap_end gap) as [Hlo Hhi].
  { destruct (Qltb _ MIN_SEGMENT_MS); injection Hres as <-;
      cbn [slot_startTs slot_endTs]; split; lra. }
  unfold clearOf in *. destruct Hgaps as [Hg|[Hg1 Hg2]].
  - left. lra.
  - right. split; [lra|]. intro Hpos. specialize (Hg2 Hpos). lra.
Qed.

(** C8.  Whatever the segment list (sorted or not), timeline duration and
    preferred start, a slot returned by the gap search overlaps no segment:
    it ends before the segment starts or starts at or after the segment's
    end, so the two never overlap by more than zero, and for every segment
    that ends after time 0 the closed intervals [[startTs, endTs]] are
    disjoint.  The search returns none when the timeline duration is below
    [MIN_SEGMENT_MS] = 200 ms. *)
Theorem findAvailableGapForSegment_no_overlap (segments : list ZoomSegment)
    (timelineDurationMs preferredStartTs : Q) :
  (forall slot seg,
     findAvailableGapForSegment segments timelineDurationMs preferredStartTs = Some slot ->
     In seg segments ->
     (slot_endTs slot <= startTs seg \/ endTs seg <= slot_startTs slot) /\
     (0 < endTs seg ->
      slot_endTs slot < startTs seg \/ endTs seg < slot_startTs slot)) /\
  (timelineDurationMs < MIN_SEGMENT_MS ->
   findAvailableGapForSegment segments timelineDurationMs preferredStartTs = None).
Proof.
  split.
  - intros slot seg Hres Hseg.
    pose proof (findAvailableGapForSegment_clear _ _ _ _ Hres seg Hseg) as Hc.
    unfold clearOf in Hc. split.
    + destruct Hc as [Hc|[Hc _]]; [left | right]; lra.
    + intro Hpos. destruct Hc as [Hc|[_ Hc]]; [left | right; specialize (Hc Hpos)]; lra.
  - intro Hshort. unfold findAvailableGapForSegment.
    assert (Qltb (Qmax 0 timelineDurationMs) MIN_SEGMENT_MS = true) as ->.
    { apply Qltb_true. revert Hshort. unfold MIN_SEGMENT_MS. split_minmax; lra. }
    reflexivity.
Qed.

(** On the test timeline [a = [1000, 3000]], [b = [4000, 6000]] of 10 s,
    asking for a slot at 3100 ms yields [[3200, 3800]]. *)
Lemma findAvailableGapForSegment_no_overlap_witness :
  exists slot,
    findAvailableGapForSegment demoTimeline 10000 3100 = Some slot /\
    slot_startTs slot == 3200 /\ slot_endTs slot == 3800 /\
    (forall seg, In seg demoTimeline ->
       slot_endTs slot < startTs seg \/ endTs seg < slot_startTs slot) /\
    findAvailableGapForSegment demoTimeline 150 3100 = None.
Proof.
  destruct (findAvailableGapForSegment demoTimeline 10000 3100) as [slot|] eqn:Hres;
    [|vm_compute in Hres; discriminate].
  exists slot. split; [reflexivity|].
  assert (slot_startTs slot == 3200 /\ slot_endTs slot == 3800) as [Hs He].
  { vm_compute in Hres. injection Hres as <-. split; reflexivity. }
  split; [exact Hs|]. split; [exact He|]. split.
  - intros seg Hseg.
    apply (proj1 (findAvailableGapForSegment_no_overlap demoTimeline 10000 3100)
             slot seg Hres Hseg).
    destruct Hseg as [<-|[<-|[]]]; reflexivity.
  - apply (proj2 (findAvailableGapForSegment_no_overlap demoTimeline 150 3100)).
    reflexivity.
Defined.

(** ** Trimming auto segments *)

Section ListFacts.

Context {A : Type}.

Lemma last_default (l : list A) (d d' : A) : l <> [] -> last l d = last l d'.
Proof.
  induction l as [|a l IH]; intro H; [contradiction|].
  destruct l as [|b l]; [reflexivity|]. simpl in *. apply IH. discriminate.
Qed.

Lemma last_In (l : list A) (d : A) : l <> [] -> In (last l d) l.
Proof.
  induction l as [|a l IH]; intro H; [contradiction|].
  destruct l as [|b l]; [left; reflexivity|].
  right. apply IH. discriminate.
Qed.

Lemma find_app_split (p : A -> bool) (l1 l2 : list A) :
  find p (l1 ++ l2) = match find p l1 with Some x => Some x | None => find p l2 end.
Proof.
  induction l1 as [|a l1 IH]; simpl; [reflexivity|].
  destruct (p a); [reflexivity | exact IH].
Qed.

(** The first match of a list is still the first match after filtering by a
    test it passes. *)
Lemma find_filter_first (p f : A -> bool) (l : list A) (x : A) :
  find p l = Some x -> f x = true -> find p (filter f l) = Some x.
Proof.
  induction l as [|a l IH]; simpl; intros Hfind Hf; [discriminate|].
  destruct (p a) eqn:Hp.
  - injection Hfind as ->. rewrite Hf. simpl. now rewrite Hp.
  - destruct (f a); simpl; [rewrite Hp|]; apply IH; assumption.
Qed.

(** [findIndex] and [find] agree. *)
Lemma findIndex_find (p : A -> bool) (l : list A) (d : A) :
  match find p l with
  | Some x =>
      (0 <= findIndex p l)%Z /\ nth (Z.to_nat (findIndex p l)) l d = x
  | None => (findIndex p l = -1)%Z
  end.
Proof.
  induction l as [|a l IH]; simpl; [reflexivity|].
  destruct (p a); [split; [lia | reflexivity]|].
  destruct (find p l) as [x|].
  - destruct IH as [Hge Hnth].
    assert ((findIndex p l <? 0)%Z = false) as -> by (apply Z.ltb_ge; exact Hge).
    split; [lia|].
    replace (Z.to_nat (findIndex p l + 1)) with (S (Z.to_nat (findIndex p l))) by lia.
    exact Hnth.
  - rewrite IH. reflexivity.
Qed.

Lemma find_before (p : A -> bool) (l : list A) (x : A) :
  find p l = Some x ->
  exists l1 l2, l = l1 ++ x :: l2 /\ p x = true /\ forall a, In a l1 -> p a = false.
Proof.
  induction l as [|a l IH]; simpl; intro H; [discriminate|].
  destruct (p a) eqn:Hp.
  - injection H as ->. exists [], l. repeat split; [assumption | intros ? []].
  - destruct (IH H) as (l1 & l2 & -> & Hx & Hl1).
    exists (a :: l1), l2. repeat split; [assumption|].
    intros b [<-|Hb]; [assumption | apply Hl1, Hb].
Qed.

Lemma filter_all (f : A -> bool) (l : list A) :
  (forall a, In a l -> f a = true) -> filter f l = l.
Proof.
  induction l as [|a l IH]; intro H; simpl; [reflexivity|].
  rewrite (H a (or_introl eq_refl)), IH; [reflexivity|].
  intros b Hb. apply H. right. exact Hb.
Qed.

Lemma filter_last (f : A -> bool) (l : list A) (d : A) :
  l <> [] -> f (last l d) = true -> last (filter f l) d = last l d.
Proof.
  induction l as [|a l IH]; intros Hne Hf; [contradiction|].
  destruct l as [|b l].
  - simpl in *. rewrite Hf. reflexivity.
  - change (last (a :: b :: l) d) with (last (b :: l) d) in *.
    specialize (IH ltac:(discriminate) Hf).
    change (filter f (a :: b :: l))
      with (if f a then a :: filter f (b :: l) else filter f (b :: l)).
    destruct (f a); [|exact IH].
    assert (filter f (b :: l) <> []) as Hne'.
    { intro E. pose proof (last_In (b :: l) d ltac:(discriminate)) as Hin.
      assert (In (last (b :: l) d) (filter f (b :: l))) as Hin'
          by (apply filter_In; split; assumption).
      rewrite E in Hin'. contradiction. }
    destruct (filter f (b :: l)) as [|c r] eqn:E; [contradiction|]. exact IH.
Qed.

Variable key : A -> Q.

Lemma Sorted_snoc (l : list A) (x : A) :
  Sorted (keyLe key) l -> (forall d, l <> [] -> key (last l d) <= key x) ->
  Sorted (keyLe key) (l ++ [x]).
Proof.
  induction 1 as [|a l HS IH Hhd]; intro Hlast; simpl.
  - repeat constructor.
  - constructor.
    + apply IH. intros d Hne. specialize (Hlast d ltac:(discriminate)).
      destruct l; [contradiction | exact Hlast].
    + destruct l as [|b l]; simpl.
      * constructor. apply (Hlast a). discriminate.
      * inversion Hhd; subst. constructor. assumption.
Qed.

Lemma Sorted_filter (f : A -> bool) (l : list A) :
  Sorted (keyLe key) l -> Sorted (keyLe key) (filter f l).
Proof.
  intro HS. apply StronglySorted_Sorted.
  apply Sorted_StronglySorted in HS; [|apply keyLe_trans].
  induction HS as [|a l HS IH Hall]; simpl; [constructor|].
  destruct (f a); [|exact IH].
  constructor; [exact IH|].
  rewrite Forall_forall in *. intros b Hb. apply filter_In in Hb. apply Hall, Hb.
Qed.

Lemma Sorted_last_max (l : list A) (d : A) :
  Sorted (keyLe key) l -> forall x, In x l -> key x <= key (last l d).
Proof.
  induction 1 as [|a l HS IH Hhd]; intros x Hin; [contradiction|].
  destruct l as [|b l].
  - destruct Hin as [<-|[]]. simpl. lra.
  - change (last (a :: b :: l) d) with (last (b :: l) d).
    destruct Hin as [<-|Hin]; [|apply IH, Hin].
    inversion Hhd; subst. unfold keyLe in *.
    apply Qle_trans with (key b); [assumption|]. apply IH. left. reflexivity.
Qed.

Lemma Sorted_hd_min (l : list A) (x d : A) :
  Sorted (keyLe key) l -> In x l -> key (hd d l) <= key x.
Proof.
  intros HS Hin. destruct l as [|a l]; [contradiction|]. simpl.
  destruct Hin as [<-|Hin]; [lra|]. apply (Sorted_keyLe_all key a l HS x Hin).
Qed.

(** In a sorted list, whatever lies strictly before the first match in
    time fails the test. *)
Lemma Sorted_before_first (p : A -> bool) (l : list A) (x a : A) :
  Sorted (keyLe key) l -> find p l = Some x -> In a l -> key a < key x -> p a = false.
Proof.
  intros HS Hfind Hin Hlt.
  destruct (find_before p l x Hfind) as (l1 & l2 & -> & Hx & Hl1).
  apply in_app_or in Hin. destruct Hin as [Hin|Hin]; [apply Hl1, Hin|].
  exfalso. apply Sorted_StronglySorted in HS; [|apply keyLe_trans].
  clear Hfind Hl1. induction l1 as [|b l1 IH]; simpl in HS.
  - inversion HS as [|? ? _ Hall]; subst. rewrite Forall_forall in Hall.
    destruct Hin as [<-|Hin]; [lra|]. specialize (Hall a Hin). unfold keyLe in Hall. lra.
  - inversion HS; subst. apply IH. assumption.
Qed.

End ListFacts.

Section TrimFacts.

Lemma getLegacyPanRect_normalized (segment : ZoomSegment) (ts : Q) :
  normalizeRect (getLegacyPanRectAtTimelineTs segment ts)
  = getLegacyPanRectAtTimelineTs segment ts.
Proof.
  unfold getLegacyPanRectAtTimelineTs.
  destruct (panOffsetAtTime _ _) as [offX offY]. apply normalizeRect_idem.
Qed.

Lemma getSegmentBaseRect_normalized (segment : ZoomSegment) :
  normalizeRect (getSegmentBaseRect segment) = getSegmentBaseRect segment.
Proof. unfold getSegmentBaseRect. apply normalizeRect_idem. Qed.

(** The target points of any segment with [startTs <= endTs] are
    well-shaped. *)
Lemma getSegmentTargetPoints_good (segment : ZoomSegment) :
  startTs segment <= endTs segment ->
  goodPoints (getSegmentTargetPoints segment) (startTs segment) (endTs segment).
Proof.
  intro Hse. unfold getSegmentTargetPoints.
  set (S := startTs segment) in *. set (E := endTs segment) in *.
  set (g := fun point => mkTargetPoint (clamp (tp_ts point) S E)
                           (normalizeRect (tp_rect point))).
  destruct (sortBy tp_ts (map g (targetPoints segment))) as [|first erest] eqn:Hexp.
  - (* no explicit points *)
    destruct (getSortedPanTrajectory segment) as [|k ks] eqn:Hpan.
    + (* base rect *)
      unfold goodPoints. split; [discriminate|]. split.
      * repeat constructor. exact Hse.
      * split.
        -- intros p [<-|[<-|[]]]; simpl;
             (split; [lra | apply getSegmentBaseRect_normalized]).
        -- intro d. simpl. lra.
    + (* legacy pan trajectory *)
      set (inside := filter _ (k :: ks)).
      set (raw := [mkTargetPoint S (getLegacyPanRectAtTimelineTs segment S)]
                  ++ map (fun keyframe =>
                            mkTargetPoint (kf_ts keyframe)
                              (getLegacyPanRectAtTimelineTs segment (kf_ts keyframe)))
                         inside
                  ++ [mkTargetPoint E (getLegacyPanRectAtTimelineTs segment E)]).
      assert (forall p, In p raw ->
                S <= tp_ts p <= E /\ normalizeRect (tp_rect p) = tp_rect p) as Hraw.
      { intros p Hp. subst raw. apply in_app_or in Hp. destruct Hp as [[<-|[]]|Hp].
        - simpl. split; [lra | apply getLegacyPanRect_normalized].
        - apply in_app_or in Hp. destruct Hp as [Hp|[<-|[]]].
          + apply in_map_iff in Hp. destruct Hp as (kf & <- & Hkf).
            subst inside. apply filter_In in Hkf. destruct Hkf as [_ Hkf].
            apply negb_true_iff, orb_false_iff in Hkf. destruct Hkf as [H1 H2].
            apply Qltb_false in H1, H2. simpl.
            split; [lra | apply getLegacyPanRect_normalized].
          + simpl. split; [lra | apply getLegacyPanRect_normalized]. }
      unfold goodPoints. split.
      { intro Hnil. pose proof (sortBy_length tp_ts raw) as Hlen.
        rewrite Hnil in Hlen. subst raw. simpl in Hlen. discriminate. }
      split; [apply sortBy_sorted|]. split.
      * intros p Hp. apply Hraw. apply (proj1 (sortBy_In tp_ts _ _)). exact Hp.
      * intro d.
        change E with (tp_ts (mkTargetPoint E (getLegacyPanRectAtTimelineTs segment E))).
        apply Sorted_last_max; [apply sortBy_sorted|].
        apply (proj2 (sortBy_In tp_ts _ _)). subst raw. apply in_or_app. right.
        apply in_or_app. right. left. reflexivity.
  - (* explicit points *)
    assert (forall p, In p (first :: erest) ->
              S <= tp_ts p <= E /\ normalizeRect (tp_rect p) = tp_rect p) as Hexplicit.
    { intros p Hp. rewrite <- Hexp in Hp. apply (proj1 (sortBy_In tp_ts _ _)) in Hp.
      apply in_map_iff in Hp. destruct Hp as (q & <- & _). subst g. simpl.
      split; [apply clamp_bounds; exact Hse | apply normalizeRect_idem]. }
    assert (Sorted (keyLe tp_ts) (first :: erest)) as Hsorted
        by (rewrite <- Hexp; apply sortBy_sorted).
    set (points := (if Qltb S (tp_ts first) then _ else []) ++ first :: erest).
    assert (points <> []) as Hne by (subst points; destruct (Qltb S (tp_ts first)); discriminate).
    assert (Sorted (keyLe tp_ts) points) as Hpsorted.
    { subst points. destruct (Qltb S (tp_ts first)) eqn:Hlt; [|exact Hsorted].
      apply Qltb_true in Hlt. simpl. constructor; [exact Hsorted|].
      constructor. unfold keyLe. simpl. lra. }
    assert (forall p, In p points ->
              S <= tp_ts p <= E /\ normalizeRect (tp_rect p) = tp_rect p) as Hpoints.
    { intros p Hp. subst points. apply in_app_or in Hp. destruct Hp as [Hp|Hp];
        [|apply Hexplicit, Hp].
      destruct (Qltb S (tp_ts first)); [|contradiction].
      destruct Hp as [<-|[]]. simpl. split; [lra|].
      apply Hexplicit. left. reflexivity. }
    pose proof (last_In points first Hne) as Hlastin.
    destruct (Qltb (tp_ts (last points first)) E) eqn:Hlast.
    + apply Qltb_true in Hlast. unfold goodPoints.
      split; [intro H; apply app_eq_nil in H; destruct H; discriminate|].
      split.
      { apply Sorted_snoc; [exact Hpsorted|]. intros d _. simpl.
        rewrite (last_default points d first Hne). lra. }
      split.
      * intros p Hp. apply in_app_or in Hp. destruct Hp as [Hp|[<-|[]]];
          [apply Hpoints, Hp|].
        simpl. split; [lra | apply Hpoints, Hlastin].
      * intro d. rewrite last_last. simpl. lra.
    + apply Qltb_false in Hlast. unfold goodPoints.
      split; [exact Hne|]. split; [exact Hpsorted|]. split; [exact Hpoints|].
      intro d. rewrite (last_default points d first Hne). exact Hlast.
Qed.

(** A segment whose explicit points are already well-shaped and start at
    the segment's start gets exactly these points back. *)
Lemma getSegmentTargetPoints_fixed (segment : ZoomSegment) :
  goodPoints (targetPoints segment) (startTs segment) (endTs segment) ->
  (forall d, tp_ts (hd d (targetPoints segment)) <= startTs segment) ->
  getSegmentTargetPoints segment = targetPoints segment.
Proof.
  intros (Hne & Hsorted & Hin & Hlast) Hfirst.
  unfold getSegmentTargetPoints.
  assert (map (fun point =>
                 mkTargetPoint (clamp (tp_ts point) (startTs segment) (endTs segment))
                   (normalizeRect (tp_rect point)))
              (targetPoints segment) = targetPoints segment) as ->.
  { rewrite <- (map_id (targetPoints segment)) at 2.
    apply map_ext_in. intros p Hp. destruct (Hin p Hp) as [Hb Hn].
    rewrite (clamp_inside _ _ _ Hb), Hn. destruct p; reflexivity. }
  rewrite (sortBy_sorted_id tp_ts _ Hsorted).
  destruct (targetPoints segment) as [|first rest] eqn:HT; [contradiction|].
  assert (Qltb (startTs segment) (tp_ts first) = false) as ->
      by (apply Qltb_false; apply (Hfirst first)).
  simpl app.
  assert (Qltb (tp_ts (last (first :: rest) first)) (endTs segment) = false) as ->
      by (apply Qltb_false; apply Hlast).
  reflexivity.
Qed.

Lemma getSegmentTargetPoints_nonempty (segment : ZoomSegment) :
  getSegmentTargetPoints segment <> [].
Proof.
  unfold getSegmentTargetPoints.
  destruct (sortBy tp_ts (map _ (targetPoints segment))) as [|first erest].
  - destruct (getSortedPanTrajectory segment); [discriminate|].
    intro Hnil.
    match type of Hnil with sortBy _ ?raw = [] =>
      pose proof (sortBy_length tp_ts raw) as Hlen; rewrite Hnil in Hlen
    end.
    simpl in Hlen. discriminate.
  - destruct (Qltb (startTs segment) (tp_ts first)); simpl;
      match goal with |- context [if ?c then _ else _] => destruct c end;
      try discriminate;
      intro H; apply app_eq_nil in H; destruct H; discriminate.
Qed.

Lemma trimAutoNoopSegment_compute (segment : ZoomSegment) :
  isAuto segment = true ->
  startTs segment <= endTs segment ->
  trimAutoNoopSegment segment =
    match find isEffectivePoint (getSegmentTargetPoints segment) with
    | None => None
    | Some first =>
        if Qleb (endTs segment) (tp_ts first) then None
        else Some (trimmedAt segment first)
    end.
Proof.
  intros Hauto Hse.
  pose proof (getSegmentTargetPoints_good segment Hse) as (Hne & Hsorted & Hin & Hlast).
  unfold trimAutoNoopSegment, trimmedAt. rewrite Hauto. simpl negb. cbv iota.
  set (P := getSegmentTargetPoints segment) in *.
  destruct P as [|p0 P'] eqn:HP; [contradiction|]. rewrite <- HP in *.
  pose proof (findIndex_find isEffectivePoint P p0) as Hidx.
  destruct (find isEffectivePoint P) as [first|] eqn:Hfind.
  2:{ cbv zeta. rewrite Hidx. reflexivity. }
  destruct Hidx as [Hge Hnth]. cbv zeta.
  assert ((findIndex isEffectivePoint P <? 0)%Z = false) as -> by (apply Z.ltb_ge; exact Hge).
  rewrite Hnth.
  assert (In first P) as Hfirst by (apply find_some in Hfind; apply Hfind).
  destruct (Hin first Hfirst) as [Hbounds _].
  rewrite (clamp_inside _ _ _ Hbounds).
  destruct (Qleb (endTs segment) (tp_ts first)) eqn:Hend; [reflexivity|].
  apply Qleb_false in Hend.
  set (f := fun point => Qleb (tp_ts first) (tp_ts point)).
  set (F := filter f P).
  assert (forall p, In p F ->
            (tp_ts first <= tp_ts p <= endTs segment) /\
            normalizeRect (tp_rect p) = tp_rect p) as HF.
  { intros p Hp. apply filter_In in Hp. destruct Hp as [Hp Hfp].
    apply Qleb_true in Hfp. destruct (Hin p Hp) as [Hb Hn].
    split; [lra | exact Hn]. }
  assert (map (fun point =>
                 mkTargetPoint (clamp (tp_ts point) (tp_ts first) (endTs segment))
                   (normalizeRect (tp_rect point))) F = F) as ->.
  { rewrite <- (map_id F) at 2. apply map_ext_in. intros p Hp.
    destruct (HF p Hp) as [Hb Hn].
    rewrite (clamp_inside _ _ _ Hb), Hn. destruct p; reflexivity. }
  assert (In first F) as HfirstF.
  { apply filter_In. split; [exact Hfirst|]. apply Qleb_true. lra. }
  destruct F as [|t0 F'] eqn:HFeq; [contradiction|]. rewrite <- HFeq in *.
  assert (Sorted (keyLe tp_ts) F) as HFsorted by (apply Sorted_filter; exact Hsorted).
  assert (Qltb (tp_ts first) (tp_ts t0) = false) as ->.
  { apply Qltb_false.
    pose proof (Sorted_hd_min tp_ts F first t0 HFsorted HfirstF) as Hhd.
    rewrite HFeq in Hhd. exact Hhd. }
  assert (last F t0 = last P t0) as HlastF.
  { apply filter_last; [exact Hne|]. apply Qleb_true.
    specialize (Hlast t0). lra. }
  assert (Qltb (tp_ts (last F t0)) (endTs segment) = false) as ->.
  { apply Qltb_false. rewrite HlastF. apply Hlast. }
  rewrite HFeq. reflexivity.
Qed.

Lemma trimAutoNoopSegment_invalid (segment : ZoomSegment) :
  isAuto segment = true -> endTs segment < startTs segment ->
  trimAutoNoopSegment segment = None.
Proof.
  intros Hauto Hlt. unfold trimAutoNoopSegment. rewrite Hauto. simpl negb. cbv iota.
  pose proof (getSegmentTargetPoints_nonempty segment) as Hne.
  destruct (getSegmentTargetPoints segment) as [|p0 P']; [contradiction|].
  cbv zeta. destruct (_ <? 0)%Z; [reflexivity|].
  match goal with
  | |- (if Qleb ?e ?c then _ else _) = _ =>
      assert (Qleb e c = true) as ->; [|reflexivity]
  end.
  apply Qleb_true. unfold clamp. split_minmax; lra.
Qed.

(** Trimming the segment that a trim returned gives it back. *)
Lemma trimAutoNoopSegment_trimmedAt (segment : ZoomSegment) (first : TargetPoint) :
  isAuto segment = true ->
  startTs segment <= endTs segment ->
  find isEffectivePoint (getSegmentTargetPoints segment) = Some first ->
  tp_ts first < endTs segment ->
  trimAutoNoopSegment (trimmedAt segment first) = Some (trimmedAt segment first).
Proof.
  intros Hauto Hse Hfind Hend.
  pose proof (getSegmentTargetPoints_good segment Hse) as (Hne & Hsorted & Hin & Hlast).
  set (P := getSegmentTargetPoints segment) in *.
  set (f := fun p => Qleb (tp_ts first) (tp_ts p)).
  set (F := filter f P).
  assert (In first P) as Hfirst by (apply find_some in Hfind; apply Hfind).
  assert (In first F) as HfirstF.
  { apply filter_In. split; [exact Hfirst|]. apply Qleb_true. lra. }
  assert (F <> []) as HFne by (intro E; rewrite E in HfirstF; contradiction).
  assert (Sorted (keyLe tp_ts) F) as HFsorted by (apply Sorted_filter; exact Hsorted).
  assert (goodPoints F (tp_ts first) (endTs segment)) as HgoodF.
  { split; [exact HFne|]. split; [exact HFsorted|]. split.
    - intros p Hp. apply filter_In in Hp. destruct Hp as [Hp Hfp].
      apply Qleb_true in Hfp. destruct (Hin p Hp) as [Hb Hn].
      split; [lra | exact Hn].
    - intro d. unfold F. rewrite (filter_last f P d Hne); [apply Hlast|].
      apply Qleb_true. specialize (Hlast d). lra. }
  assert (getSegmentTargetPoints (trimmedAt segment first) = F) as Hpoints.
  { apply getSegmentTargetPoints_fixed; unfold trimmedAt; simpl; fold P; fold f; fold F.
    - exact HgoodF.
    - intro d. apply (Sorted_hd_min tp_ts F first d HFsorted HfirstF). }
  rewrite trimAutoNoopSegment_compute.
  - rewrite Hpoints.
    assert (find isEffectivePoint F = Some first) as ->.
    { apply find_filter_first; [exact Hfind|]. apply Qleb_true. lra. }
    change (endTs (trimmedAt segment first)) with (endTs segment).
    assert (Qleb (endTs segment) (tp_ts first) = false) as ->
        by (apply Qleb_false; exact Hend).
    unfold trimmedAt at 1. rewrite Hpoints. simpl.
    assert (filter (fun p => Qleb (tp_ts first) (tp_ts p)) F = F) as ->.
    { apply filter_all. intros p Hp. apply filter_In in Hp. apply Hp. }
    reflexivity.
  - exact Hauto.
  - simpl. lra.
Qed.

End TrimFacts.

Lemma find_none_all {A : Type} (p : A -> bool) (l : list A) :
  (forall a, In a l -> p a = false) -> find p l = None.
Proof.
  induction l as [|a l IH]; intro H; simpl; [reflexivity|].
  rewrite (H a (or_introl eq_refl)). apply IH. intros b Hb. apply H. right. exact Hb.
Qed.

(** What the trim does guarantee.  [trimAutoNoopSegment] is idempotent
    (a dropped segment stays dropped); non-auto segments are returned
    unchanged; an auto segment without an effective target point (zoom
    strength above [1 + 1e-3]) is dropped; and a trimmed auto segment starts
    at the time of the first effective point and keeps exactly the target
    points at or after that time, so that every point it drops is timed
    before the first effective one and has zoom strength at most
    [1 + 1e-3]. *)
Lemma trimAutoNoopSegment_idempotent (segment : ZoomSegment) :
  trimAgain (trimAutoNoopSegment segment) = trimAutoNoopSegment segment /\
  (isAuto segment = false -> trimAutoNoopSegment segment = Some segment) /\
  (isAuto segment = true ->
   (forall p, In p (getSegmentTargetPoints segment) -> isEffectivePoint p = false) ->
   trimAutoNoopSegment segment = None) /\
  (isAuto segment = true ->
   forall trimmed, trimAutoNoopSegment segment = Some trimmed ->
   exists first,
     find isEffectivePoint (getSegmentTargetPoints segment) = Some first /\
     startTs trimmed = tp_ts first /\ endTs trimmed = endTs segment /\
     targetPoints trimmed
       = filter (fun p => Qleb (tp_ts first) (tp_ts p)) (getSegmentTargetPoints segment) /\
     (forall p, In p (getSegmentTargetPoints segment) -> ~ In p (targetPoints trimmed) ->
        tp_ts p < tp_ts first /\ isEffectivePoint p = false)).
Proof.
  destruct (isAuto segment) eqn:Hauto.
  2:{ assert (trimAutoNoopSegment segment = Some segment) as Hsame
        by (unfold trimAutoNoopSegment; rewrite Hauto; reflexivity).
      split; [rewrite Hsame; simpl; exact Hsame|].
      split; [intros _; exact Hsame|]. split; discriminate. }
  destruct (Qlt_le_dec (endTs segment) (startTs segment)) as [Hinv|Hse].
  { rewrite (trimAutoNoopSegment_invalid segment Hauto Hinv).
    split; [reflexivity|]. split; [discriminate|]. split; [reflexivity|].
    intros _ trimmed Hres. discriminate. }
  pose proof (trimAutoNoopSegment_compute segment Hauto Hse) as Hcomp.
  pose proof (getSegmentTargetPoints_good segment Hse) as (_ & Hsorted & _ & _).
  destruct (find isEffectivePoint (getSegmentTargetPoints segment)) as [first|] eqn:Hfind.
  2:{ rewrite Hcomp. split; [reflexivity|]. split; [discriminate|].
      split; [reflexivity|]. intros _ trimmed Hres. discriminate. }
  split; [|split; [discriminate|split]].
  - rewrite Hcomp. destruct (Qleb (endTs segment) (tp_ts first)) eqn:Hend; [reflexivity|].
    apply Qleb_false in Hend. simpl.
    apply trimAutoNoopSegment_trimmedAt; assumption.
  - intros _ Hnone. apply find_some in Hfind. destruct Hfind as [Hin Heff].
    rewrite (Hnone first Hin) in Heff. discriminate.
  - intros _ trimmed Hres. rewrite Hcomp in Hres.
    destruct (Qleb (endTs segment) (tp_ts first)); [discriminate|].
    injection Hres as <-. exists first. unfold trimmedAt. simpl.
    split; [reflexivity|]. split; [reflexivity|]. split; [reflexivity|].
    split; [reflexivity|].
    intros p Hp Hdropped.
    assert (tp_ts p < tp_ts first) as Hlt.
    { destruct (Qleb (tp_ts first) (tp_ts p)) eqn:Hkeep.
      - exfalso. apply Hdropped. apply filter_In. split; assumption.
      - apply Qleb_false in Hkeep. exact Hkeep. }
    split; [exact Hlt|].
    apply (Sorted_before_first tp_ts isEffectivePoint _ first p Hsorted Hfind Hp Hlt).
Qed.

(** ** Timeline drag *)

(** What the clamps of one drag step give, for the grabbed segment and
    any neighbour bounds [prevEnd] and [nextStart]:
    - a move either leaves the times unchanged (no admissible start) or
      keeps the length and puts the start at or after
      [max(0, prevEnd + 200)]; when the bounds leave room for the segment,
      the end is at most [nextStart - 200];
    - a start-resize puts the start at or after [max(0, prevEnd + 200)] and
      keeps at least [MIN_SEGMENT_MS] up to the grabbed end when that bound
      allows it;
    - an end-resize keeps the end at least 1 ms after the start, at most
      [nextStart - 200] and the duration when that leaves 1 ms, and at least
      [MIN_SEGMENT_MS] after the start when that leaves 200 ms;
    - every drag marks the segment manual.
    Dragging the first of [[1000, 3000]], [[4000, 6000]] to start 3800
    yields [[1800, 3800]], the example of the specification. *)
Lemma dragSegment_clamped (drag : SegmentDragState)
    (deltaTimelineMs timelineDurationMs : Q) (neighbors : NeighborBounds)
    (segment : ZoomSegment) :
  id segment = segmentId drag ->
  let dragged := dragSegment drag deltaTimelineMs timelineDurationMs neighbors segment in
  let minStartTs := Qmax 0 (prevEndTs neighbors + MIN_SEGMENT_GAP_MS) in
  let maxEndTs := Qmin timelineDurationMs (nextStartTs neighbors - MIN_SEGMENT_GAP_MS) in
  let length := initialEndTs drag - initialStartTs drag in
  isAuto dragged = false /\
  (drag_mode drag = DragMove ->
   ((startTs dragged = startTs segment /\ endTs dragged = endTs segment) \/
    (prevEndTs neighbors + MIN_SEGMENT_GAP_MS <= startTs dragged /\
     0 <= startTs dragged /\
     endTs dragged == startTs dragged + length)) /\
   (minStartTs + length <= maxEndTs ->
    prevEndTs neighbors + MIN_SEGMENT_GAP_MS <= startTs dragged /\
    endTs dragged <= nextStartTs neighbors - MIN_SEGMENT_GAP_MS /\
    endTs dragged <= timelineDurationMs /\
    endTs dragged - startTs dragged == length)) /\
  (drag_mode drag = DragStart ->
   prevEndTs neighbors + MIN_SEGMENT_GAP_MS <= startTs dragged /\
   0 <= startTs dragged /\
   endTs dragged = endTs segment /\
   (minStartTs <= initialEndTs drag - MIN_SEGMENT_MS ->
    MIN_SEGMENT_MS <= initialEndTs drag - startTs dragged)) /\
  (drag_mode drag = DragEnd ->
   startTs dragged = startTs segment /\
   1 <= endTs dragged - initialStartTs drag /\
   (initialStartTs drag + 1 <= maxEndTs ->
    endTs dragged <= nextStartTs neighbors - MIN_SEGMENT_GAP_MS /\
    endTs dragged <= timelineDurationMs) /\
   (initialStartTs drag + MIN_SEGMENT_MS <= maxEndTs ->
    MIN_SEGMENT_MS <= endTs dragged - initialStartTs drag)) /\
  spans (onPointerMove (Some moveA) 2900 1 10000 10000 demoTimeline)
  = [("a"%string, 1800, 3800); ("b"%string, 4000, 6000)].
Proof.
  intros Hid dragged minStartTs maxEndTs length.
  subst dragged minStartTs maxEndTs length. unfold dragSegment.
  rewrite Hid, String.eqb_refl. simpl negb. cbv iota.
  unfold MIN_SEGMENT_GAP_MS, MIN_SEGMENT_MS.
  split; [destruct (drag_mode drag); try reflexivity;
          match goal with |- context [if ?c then _ else _] => destruct c end;
          reflexivity|].
  split; [|split; [|split]].
  - intros ->. cbv zeta.
    match goal with |- context [if Qltb ?a ?b then _ else _] =>
      destruct (Qltb a b) eqn:Hblocked
    end.
    + apply Qltb_true in Hblocked. simpl. split; [left; split; reflexivity|].
      intro Hroom. exfalso. revert Hblocked Hroom. split_minmax; lra.
    + apply Qltb_false in Hblocked. simpl. unfold clamp. split.
      * right. revert Hblocked. split_minmax; intros; repeat split; lra.
      * intro Hroom. revert Hblocked Hroom. split_minmax; intros; repeat split; lra.
  - intros ->. simpl. unfold clamp.
    split; [split_minmax; lra|]. split; [split_minmax; lra|].
    split; [reflexivity|]. split_minmax; intros; lra.
  - intros ->. simpl. unfold clamp.
    split; [reflexivity|]. split; [split_minmax; lra|].
    split; split_minmax; intros; try split; lra.
  - vm_compute. reflexivity.
Qed.

(** C7 on the code.  The clamp of a move puts the lower bound on the
    start first and treats the start of the timeline as a neighbour that
    ends at 0 and asks for its own 200 ms gap.  On the 6 s timeline with
    [a = [0, 3000]] and [b = [3200, 6000]], which keeps the gap, grabbing [a]
    and not moving the pointer (a move of 0 ms) gives, with the neighbour
    bounds [getSegmentNeighborBounds] returns, [a = [200, 3200]]: the end of
    [a] is no longer 200 ms before the start of [b], the two segments now
    touch. *)
Theorem onPointerMove_end_bound_violated :
  (exists a0 b0,
     tightTimeline = [a0; b0] /\ endTs a0 <= startTs b0 - MIN_SEGMENT_GAP_MS) /\
  getSegmentNeighborBounds tightTimeline (segmentId moveTightA) 6000
  = mkNeighbors 0 3200 /\
  exists a b,
    onPointerMove (Some moveTightA) (pointerStartX moveTightA) 1 6000 6000 tightTimeline
    = [a; b] /\
    id a = "a"%string /\ id b = "b"%string /\
    startTs a == 200 /\ endTs a == 3200 /\ startTs b == 3200 /\ endTs b == 6000 /\
    ~ endTs a <= startTs b - MIN_SEGMENT_GAP_MS.
Proof.
  split.
  { eexists. eexists. split; [reflexivity|]. vm_compute. discriminate. }
  split; [vm_compute; reflexivity|].
  eexists. eexists. split; [vm_compute; reflexivity|].
  repeat split; try reflexivity. vm_compute. intro H. apply H. reflexivity.
Qed.

(** ** The QA smoke script *)

Module QaSmokeFacts.
Import QaSmoke QaSmokeProps.

Lemma strEqb_eq (a b : JsStr) : strEqb a b = true -> a = b.
Proof.
  revert b. induction a as [|x a IH]; intros [|y b] H; simpl in H;
    try discriminate; [reflexivity|].
  apply andb_true_iff in H. destruct H as [Hxy Hab].
  apply N.eqb_eq in Hxy. rewrite Hxy, (IH b Hab). reflexivity.
Qed.

Lemma issues_andThen (a b : Report) :
  fst (a +++ b) = [] <-> fst a = [] /\ fst b = [].
Proof.
  unfold andThen. simpl. split.
  - intro H. apply app_eq_nil in H. exact H.
  - intros [-> ->]. reflexivity.
Qed.

Lemma minOf_le (first : Q) (rest : list Q) :
  minOf first rest <= first /\ forall x, In x rest -> minOf first rest <= x.
Proof.
  unfold minOf. revert first. induction rest as [|a rest IH]; intro first; simpl.
  - split; [lra | intros x []].
  - destruct (IH (Qmin first a)) as [H1 H2]. split.
    + revert H1. split_minmax; lra.
    + intros x [<-|Hx]; [|apply H2, Hx]. revert H1. split_minmax; lra.
Qed.

Lemma maxOf_ge (first : Q) (rest : list Q) :
  first <= maxOf first rest /\ forall x, In x rest -> x <= maxOf first rest.
Proof.
  unfold maxOf. revert first. induction rest as [|a rest IH]; intro first; simpl.
  - split; [lra | intros x []].
  - destruct (IH (Qmax first a)) as [H1 H2]. split.
    + revert H1. split_minmax; lra.
    + intros x [<-|Hx]; [|apply H2, Hx]. revert H1. split_minmax; lra.
Qed.

Lemma minOf_In (first : Q) (rest : list Q) : In (minOf first rest) (first :: rest).
Proof.
  unfold minOf. revert first. induction rest as [|a rest IH]; intro first; simpl.
  - left. reflexivity.
  - destruct (IH (Qmin first a)) as [H|H]; [|right; right; exact H].
    rewrite <- H. destruct (Qmin_case_eq first a) as [[_ E]|[_ E]]; rewrite E; auto.
Qed.

Lemma maxOf_In (first : Q) (rest : list Q) : In (maxOf first rest) (first :: rest).
Proof.
  unfold maxOf. revert first. induction rest as [|a rest IH]; intro first; simpl.
  - left. reflexivity.
  - destruct (IH (Qmax first a)) as [H|H]; [|right; right; exact H].
    rewrite <- H. destruct (Qmax_case_eq first a) as [[_ E]|[_ E]]; rewrite E; auto.
Qed.

(** The smallest and the largest value do not depend on the order. *)
Lemma minOf_perm (a a' : Q) (l l' : list Q) :
  Permutation (a :: l) (a' :: l') -> minOf a l == minOf a' l'.
Proof.
  intro Hperm.
  assert (forall b, In b (a :: l) -> minOf a l <= b) as Hlow.
  { intros b [<-|Hb]; [apply (proj1 (minOf_le a l)) | apply (proj2 (minOf_le a l)), Hb]. }
  assert (forall b, In b (a' :: l') -> minOf a' l' <= b) as Hlow'.
  { intros b [<-|Hb]; [apply (proj1 (minOf_le a' l')) | apply (proj2 (minOf_le a' l')), Hb]. }
  apply Qle_antisym.
  - apply Hlow. apply (Permutation_in _ (Permutation_sym Hperm)), minOf_In.
  - apply Hlow'. apply (Permutation_in _ Hperm), minOf_In.
Qed.

Lemma maxOf_perm (a a' : Q) (l l' : list Q) :
  Permutation (a :: l) (a' :: l') -> maxOf a l == maxOf a' l'.
Proof.
  intro Hperm.
  assert (forall b, In b (a :: l) -> b <= maxOf a l) as Hup.
  { intros b [<-|Hb]; [apply (proj1 (maxOf_ge a l)) | apply (proj2 (maxOf_ge a l)), Hb]. }
  assert (forall b, In b (a' :: l') -> b <= maxOf a' l') as Hup'.
  { intros b [<-|Hb]; [apply (proj1 (maxOf_ge a' l')) | apply (proj2 (maxOf_ge a' l')), Hb]. }
  apply Qle_antisym.
  - apply Hup'. apply (Permutation_in _ Hperm), maxOf_In.
  - apply Hup. apply (Permutation_in _ (Permutation_sym Hperm)), maxOf_In.
Qed.

Lemma Qleb_Qeq (a a' b b' : Q) : a == a' -> b == b' -> Qleb a b = Qleb a' b'.
Proof.
  intros Ha Hb. destruct (Qleb a b) eqn:E, (Qleb a' b') eqn:E'; try reflexivity;
    exfalso.
  - apply Qleb_true in E. apply Qleb_false in E'. lra.
  - apply Qleb_false in E. apply Qleb_true in E'. lra.
Qed.

Lemma Qltb_Qeq (a a' b b' : Q) : a == a' -> b == b' -> Qltb a b = Qltb a' b'.
Proof.
  intros Ha Hb. destruct (Qltb a b) eqn:E, (Qltb a' b') eqn:E'; try reflexivity;
    exfalso.
  - apply Qltb_true in E. apply Qltb_false in E'. lra.
  - apply Qltb_false in E. apply Qltb_true in E'. lra.
Qed.

Lemma finiteTimestamps_perm (events events' : list RawEvent) :
  Permutation events events' ->
  Permutation (finiteTimestamps events) (finiteTimestamps events').
Proof. intro H. unfold finiteTimestamps. apply Permutation_flat_map, H. Qed.

Lemma coordinates_perm (events events' : list RawEvent) :
  Permutation events events' ->
  Permutation (coordinates events) (coordinates events').
Proof. intro H. unfold coordinates. apply Permutation_flat_map, H. Qed.

(** The timestamp checks raise an issue for the same events in any
    order, or in none. *)
Lemma checkTimestamps_perm (project : RawProject) (events events' : list RawEvent) :
  Permutation events events' ->
  (fst (checkTimestamps project events) = [] <->
   fst (checkTimestamps project events') = []).
Proof.
  intro Hperm. apply finiteTimestamps_perm in Hperm. unfold checkTimestamps.
  destruct (finiteTimestamps events) as [|first rest],
           (finiteTimestamps events') as [|first' rest'].
  - reflexivity.
  - apply Permutation_nil in Hperm. discriminate.
  - apply Permutation_sym, Permutation_nil in Hperm. discriminate.
  - cbv zeta.
    rewrite (Qltb_Qeq (minOf first rest) (minOf first' rest') 0 0
               (minOf_perm _ _ _ _ Hperm) (Qeq_refl 0)).
    assert (match p_durationMs project with
            | Some d => Qltb (d + 1000) (maxOf first rest)
            | None => false
            end
            = match p_durationMs project with
              | Some d => Qltb (d + 1000) (maxOf first' rest')
              | None => false
              end) as ->.
    { destruct (p_durationMs project) as [d|]; [|reflexivity].
      apply Qltb_Qeq; [reflexivity | apply maxOf_perm, Hperm]. }
    destruct (Qltb (minOf first' rest') 0);
      destruct (match p_durationMs project with Some _ => _ | None => _ end);
      destruct (0 <? countDisorder None (first :: rest))%nat;
      destruct (0 <? countDisorder None (first' :: rest'))%nat;
      simpl; split; intro H; try reflexivity; discriminate.
Qed.

(** The coordinate checks report the same for the same events in any
    order. *)
Lemma checkCoordinates_perm (file : RawEvents) (events events' : list RawEvent) :
  Permutation events events' ->
  checkCoordinates file events = checkCoordinates file events'.
Proof.
  intro Hperm. apply coordinates_perm in Hperm. unfold checkCoordinates.
  destruct (coordinates events) as [|[x0 y0] rest],
           (coordinates events') as [|[x0' y0'] rest'].
  - reflexivity.
  - apply Permutation_nil in Hperm. discriminate.
  - apply Permutation_sym, Permutation_nil in Hperm. discriminate.
  - pose proof (Permutation_map fst Hperm) as Hx.
    pose proof (Permutation_map snd Hperm) as Hy.
    simpl map in Hx, Hy.
    pose proof (minOf_perm _ _ _ _ Hx) as HminX.
    pose proof (maxOf_perm _ _ _ _ Hx) as HmaxX.
    pose proof (minOf_perm _ _ _ _ Hy) as HminY.
    pose proof (maxOf_perm _ _ _ _ Hy) as HmaxY.
    cbv zeta.
    set (minX := minOf x0 (map fst rest)) in *.
    set (maxX := maxOf x0 (map fst rest)) in *.
    set (minY := minOf y0 (map snd rest)) in *.
    set (maxY := maxOf y0 (map snd rest)) in *.
    set (minX' := minOf x0' (map fst rest')) in *.
    set (maxX' := maxOf x0' (map fst rest')) in *.
    set (minY' := minOf y0' (map snd rest')) in *.
    set (maxY' := maxOf y0' (map snd rest')) in *.
    destruct (ev_screenWidth file) as [screenWidth|]; [|reflexivity].
    destruct (ev_screenHeight file) as [screenHeight|]; [|reflexivity].
    destruct (Qleb screenWidth 0 || Qleb screenHeight 0); [reflexivity|].
    rewrite (Qltb_Qeq minX minX' (-2) (-2) HminX (Qeq_refl _)).
    rewrite (Qltb_Qeq minY minY' (-2) (-2) HminY (Qeq_refl _)).
    rewrite (Qleb_Qeq maxX maxX' _ _ HmaxX (Qeq_refl (screenWidth * 1.05))).
    rewrite (Qleb_Qeq maxY maxY' _ _ HmaxY (Qeq_refl (screenHeight * 1.05))).
    destruct (ev_scaleFactor file) as [scale|]; [|reflexivity].
    assert (maxX * scale == maxX' * scale) as HsX by (rewrite HmaxX; reflexivity).
    assert (maxY * scale == maxY' * scale) as HsY by (rewrite HmaxY; reflexivity).
    rewrite (Qleb_Qeq _ _ _ _ HsX (Qeq_refl (screenWidth * 1.05))).
    rewrite (Qleb_Qeq _ _ _ _ HsY (Qeq_refl (screenHeight * 1.05))).
    reflexivity.
Qed.

(** Reordering the events changes no verdict. *)
Lemma issues_withEvents (inputs : Inputs) (file : RawEvents)
    (events events' : list RawEvent) :
  in_events inputs = Some file ->
  ev_events file = Some events ->
  Permutation events events' ->
  (issues (withEvents inputs events') = [] <-> issues inputs = []).
Proof.
  intros Hfile Hevents Hperm. unfold issues, smoke, withEvents.
  cbn [in_project in_events in_video in_checkExport]. rewrite Hfile.
  cbn [ev_events]. rewrite Hevents.
  assert (checkEventsHeader (in_project inputs)
            (mkRawEvents (ev_schemaVersion file) (ev_recordingId file) (Some events')
               (ev_screenWidth file) (ev_screenHeight file) (ev_scaleFactor file))
          = checkEventsHeader (in_project inputs) file) as ->.
  { unfold checkEventsHeader. cbn [ev_schemaVersion ev_recordingId ev_events].
    rewrite Hevents. reflexivity. }
  assert (checkCoordinates
            (mkRawEvents (ev_schemaVersion file) (ev_recordingId file) (Some events')
               (ev_screenWidth file) (ev_screenHeight file) (ev_scaleFactor file)) events'
          = checkCoordinates file events) as ->.
  { rewrite (checkCoordinates_perm file events events' Hperm). reflexivity. }
  pose proof (checkTimestamps_perm (in_project inputs) events events' Hperm) as Hts.
  rewrite !issues_andThen. tauto.
Qed.

Lemma exitCode_issues (a b : Inputs) :
  (issues a = [] <-> issues b = []) -> exitCode a = exitCode b.
Proof.
  unfold exitCode. intros [H1 H2].
  destruct (issues a) as [|i l], (issues b) as [|i' l']; try reflexivity.
  - specialize (H1 eq_refl). discriminate.
  - specialize (H2 eq_refl). discriminate.
Qed.

(** In time order no sample is below its predecessor. *)
Lemma countDisorder_sorted (timestamps : list Q) :
  StronglySorted Qle timestamps ->
  forall previous,
    match previous with
    | Some p => Forall (Qle p) timestamps
    | None => True
    end ->
    countDisorder previous timestamps = O.
Proof.
  induction 1 as [|ts rest Hrest IH Hall]; intros previous Hprev; [reflexivity|].
  simpl. rewrite (IH (Some ts) Hall).
  destruct previous as [p|]; [|reflexivity].
  inversion Hprev as [|? ? Hp _]; subst.
  assert (Qltb ts p = false) as -> by (apply Qltb_false; exact Hp). reflexivity.
Qed.

Lemma finiteTimestamps_inTimeOrder (events : list RawEvent) :
  StronglySorted Qle (finiteTimestamps (inTimeOrder events)).
Proof.
  unfold inTimeOrder.
  pose proof (sortBy_sorted eventTime events) as HS.
  apply Sorted_StronglySorted in HS; [|apply keyLe_trans].
  induction HS as [|e rest Hrest IH Hall]; [constructor|].
  unfold finiteTimestamps in *. simpl.
  destruct (ev_ts e) as [ts|] eqn:Ets; [|exact IH].
  simpl. constructor; [exact IH|].
  apply Forall_forall. intros ts' Hin. apply in_flat_map in Hin.
  destruct Hin as (e' & He' & Hts').
  rewrite Forall_forall in Hall. specialize (Hall e' He').
  unfold keyLe, eventTime in Hall. rewrite Ets in Hall.
  destruct (ev_ts e') as [t|]; [|contradiction].
  destruct Hts' as [<-|[]]. exact Hall.
Qed.

Lemma warn_left (a b : Report) (w : Warning) : In w (snd a) -> In w (snd (a +++ b)).
Proof. intro H. unfold andThen. simpl. apply in_or_app. left. exact H. Qed.

Lemma warn_right (a b : Report) (w : Warning) : In w (snd b) -> In w (snd (a +++ b)).
Proof. intro H. unfold andThen. simpl. apply in_or_app. right. exact H. Qed.

(** No sample below its predecessor means the timestamps are in order. *)
Lemma countDisorder_zero (timestamps : list Q) :
  forall previous,
    countDisorder previous timestamps = O ->
    Sorted Qle timestamps /\
    (forall p, previous = Some p -> forall d, timestamps <> [] -> p <= hd d timestamps).
Proof.
  induction timestamps as [|ts rest IH]; intros previous Hzero.
  - split; [constructor | intros p _ d Hne; contradiction].
  - simpl in Hzero. apply Nat.eq_add_0 in Hzero. destruct Hzero as [Hhere Hrest].
    destruct (IH (Some ts) Hrest) as [Hsorted Hhd]. split.
    + constructor; [exact Hsorted|].
      destruct rest as [|ts' rest']; constructor.
      apply (Hhd ts eq_refl 0). discriminate.
    + intros p -> d _. simpl. destruct (Qltb ts p) eqn:Hlt; [discriminate|].
      apply Qltb_false in Hlt. exact Hlt.
Qed.

Lemma nonMonotonic_disorder (timestamps : list Q) :
  nonMonotonic timestamps -> (0 < countDisorder None timestamps)%nat.
Proof.
  intros (i & j & Hij & Hlt).
  destruct (countDisorder None timestamps) eqn:Hcount; [|lia].
  exfalso. destruct (countDisorder_zero timestamps None Hcount) as [Hsorted _].
  pose proof (Sorted_Qle_nth timestamps Hsorted i j ltac:(lia)). lra.
Qed.

(** C2, as the code has it.  When the events file is read and some event
    timestamp is smaller than an earlier one, the smoke check records a
    warning carrying the number of out-of-order samples, and this alone does
    not fail the run: the same events in any other order, in particular in
    time order (where no sample is out of order), give the same exit code.
    The exit code is 1 exactly when some check failed and 0 exactly when
    none did. *)
Theorem smoke_order_is_warning (inputs : Inputs) (file : RawEvents)
    (events : list RawEvent) :
  in_events inputs = Some file ->
  ev_events file = Some events ->
  nonMonotonic (finiteTimestamps events) ->
  (0 < countDisorder None (finiteTimestamps events))%nat /\
  In (EventOrderNotMonotonic (countDisorder None (finiteTimestamps events)))
     (warnings inputs) /\
  (forall events',
     Permutation events events' ->
     exitCode (withEvents inputs events') = exitCode inputs) /\
  (Permutation events (inTimeOrder events) /\
   countDisorder None (finiteTimestamps (inTimeOrder events)) = O /\
   exitCode (withEvents inputs (inTimeOrder events)) = exitCode inputs) /\
  (exitCode inputs = 1%Z <-> issues inputs <> []) /\
  (exitCode inputs = 0%Z <-> issues inputs = []).
Proof.
  intros Hfile Hevents Hdisorder.
  pose proof (nonMonotonic_disorder _ Hdisorder) as Hcount.
  assert (forall events',
            Permutation events events' ->
            exitCode (withEvents inputs events') = exitCode inputs) as Horder.
  { intros events' Hperm. apply exitCode_issues.
    apply (issues_withEvents inputs file events events' Hfile Hevents Hperm). }
  assert (Permutation events (inTimeOrder events)) as Hsorted
      by (apply Permutation_sym, sortBy_perm).
  split; [exact Hcount|]. split; [|split; [exact Horder|split]].
  - unfold warnings, smoke. rewrite Hfile, Hevents.
    apply warn_left, warn_left, warn_right, warn_left.
    unfold checkTimestamps.
    destruct (finiteTimestamps events) as [|first rest] eqn:Hts.
    + simpl in Hcount. lia.
    + apply warn_right. cbv zeta.
      assert ((0 <? countDisorder None (first :: rest))%nat = true) as ->
          by (apply Nat.ltb_lt; exact Hcount).
      left. reflexivity.
  - split; [exact Hsorted|]. split; [|apply Horder, Hsorted].
    apply countDisorder_sorted; [apply finiteTimestamps_inTimeOrder | exact I].
  - unfold exitCode. destruct (issues inputs); split; split;
      intro H; try reflexivity; try discriminate; try (exfalso; apply H; reflexivity).
Qed.

Lemma outOfOrder_nonMonotonic : nonMonotonic (finiteTimestamps outOfOrderEvents).
Proof. exists 1%nat, 2%nat. split; [simpl; lia | reflexivity]. Qed.

(** The passing run with events at 0, 20 and 10 ms: one warning, and the
    exit code of the same events in time order. *)
Lemma smoke_order_is_warning_witness :
  In (EventOrderNotMonotonic 1) (warnings outOfOrderInputs) /\
  exitCode (withEvents outOfOrderInputs (inTimeOrder outOfOrderEvents))
  = exitCode outOfOrderInputs /\
  (exitCode outOfOrderInputs = 0%Z <-> issues outOfOrderInputs = []).
Proof.
  destruct (smoke_order_is_warning outOfOrderInputs
              (mkRawEvents (Some 1) (Some (ofAscii "rec-1")) (Some outOfOrderEvents)
                 (Some 1920) (Some 1080) (Some 1))
              outOfOrderEvents eq_refl eq_refl outOfOrder_nonMonotonic)
    as (_ & Hwarn & _ & (_ & _ & Hsame) & _ & Hzero).
  split; [exact Hwarn|]. split; [exact Hsame | exact Hzero].
Defined.

(** Out-of-order timestamps alone do not fail the smoke check: the run
    reports no issue and ends with exit code 0. *)
Lemma smoke_out_of_order_passes :
  nonMonotonic (finiteTimestamps outOfOrderEvents) /\
  in_events outOfOrderInputs <> None /\
  issues outOfOrderInputs = [] /\
  warnings outOfOrderInputs = [EventOrderNotMonotonic 1] /\
  exitCode outOfOrderInputs = 0%Z.
Proof.
  split; [exact outOfOrder_nonMonotonic|].
  split; [discriminate|].
  split; [vm_compute; reflexivity|].
  split; vm_compute; reflexivity.
Qed.

End QaSmokeFacts.

(** * Further properties of the editor *)

(** ** Geometry *)

Lemma normalizeRect_inFrame (r : NormalizedRect) : rectInFrame (normalizeRect r).
Proof.
  unfold rectInFrame, normalizeRect, clamp, MIN_RECT_SIZE. simpl.
  split_minmax; repeat split; lra.
Qed.

Lemma normalizeRect_fixed (r : NormalizedRect) : rectInFrame r -> normalizeRect r = r.
Proof.
  intros (Hw & Hh & Hx & Hy). unfold normalizeRect, MIN_RECT_SIZE.
  rewrite (clamp_inside (rect_width r) 0.05 1 Hw).
  rewrite (clamp_inside (rect_height r) 0.05 1 Hh).
  rewrite (clamp_inside (rect_x r) 0 _ Hx), (clamp_inside (rect_y r) 0 _ Hy).
  destruct r; reflexivity.
Qed.

(** [normalizeRect] projects onto the rects inside the frame: its output
    is inside the frame (far edges at most 1, without tolerance), it leaves
    a rect unchanged exactly when the rect is inside the frame, and applying
    it twice is applying it once. *)
Theorem normalizeRect_projection (r : NormalizedRect) :
  rectInFrame (normalizeRect r) /\
  (normalizeRect r = r <-> rectInFrame r) /\
  normalizeRect (normalizeRect r) = normalizeRect r.
Proof.
  split; [apply normalizeRect_inFrame|]. split.
  - split; [intro H; rewrite <- H; apply normalizeRect_inFrame | apply normalizeRect_fixed].
  - apply normalizeRect_fixed, normalizeRect_inFrame.
Qed.

(** The default rect is inside the frame, so normalizing keeps it. *)
Lemma normalizeRect_projection_witness : normalizeRect DEFAULT_RECT = DEFAULT_RECT.
Proof.
  apply (proj2 (proj1 (proj2 (normalizeRect_projection DEFAULT_RECT)))).
  unfold rectInFrame, DEFAULT_RECT. simpl. repeat split; discriminate.
Defined.


Lemma zoom_of_inFrame (r : NormalizedRect) :
  rectInFrame r -> 1 <= getZoomStrength r <= 20.
Proof.
  intros (Hw & Hh & _ & _). unfold getZoomStrength.
  assert (0.05 <= Qmax (rect_width r) (rect_height r) <= 1) as [Hlo Hhi]
      by (split_minmax; lra).
  set (m := Qmax (rect_width r) (rect_height r)) in *.
  assert (0 < m) as Hpos by lra.
  split.
  - apply Qle_shift_div_l; [exact Hpos | lra].
  - apply Qle_shift_div_r; [exact Hpos | lra].
Qed.

(** The zoom strength of a normalized rect stays between 1 and 20: the
    clamp of the size to [[0.05, 1]] keeps [1 / max(w, h)] from exploding. *)
Theorem getZoomStrength_bounded (r : NormalizedRect) :
  1 <= getZoomStrength (normalizeRect r) <= 20.
Proof. apply zoom_of_inFrame, normalizeRect_inFrame. Qed.

Lemma buildRectFromCenterAndSize_shape (centerX centerY width height : Q) :
  let r := buildRectFromCenterAndSize centerX centerY width height in
  let w := clamp width MIN_RECT_SIZE 1 in
  let h := clamp height MIN_RECT_SIZE 1 in
  rectInFrame r /\
  rect_width r = w /\ rect_height r = h /\
  rect_x r + w / 2 == clamp centerX (w / 2) (1 - w / 2) /\
  rect_y r + h / 2 == clamp centerY (h / 2) (1 - h / 2).
Proof.
  cbv zeta. unfold buildRectFromCenterAndSize.
  split; [apply normalizeRect_inFrame|].
  unfold normalizeRect, clampCenterToViewport. cbn [rect_x rect_y rect_width rect_height fst snd].
  rewrite !clamp_idem.
  split; [reflexivity|]. split; [reflexivity|].
  assert (0.05 <= clamp width MIN_RECT_SIZE 1 <= 1) as Hw
      by (apply clamp_bounds; unfold MIN_RECT_SIZE; lra).
  assert (0.05 <= clamp height MIN_RECT_SIZE 1 <= 1) as Hh
      by (apply clamp_bounds; unfold MIN_RECT_SIZE; lra).
  set (w := clamp width MIN_RECT_SIZE 1) in *.
  set (h := clamp height MIN_RECT_SIZE 1) in *.
  qdiv_const. unfold clamp. split; split_minmax; lra.
Qed.

(** [buildRectFromCenterAndSize] returns a rect inside the frame with the
    requested size (clamped to [[0.05, 1]]) whose centre is the requested
    centre, moved as little as needed for the rect to fit. *)
Theorem buildRectFromCenterAndSize_centered (centerX centerY width height : Q) :
  let r := buildRectFromCenterAndSize centerX centerY width height in
  let w := clamp width MIN_RECT_SIZE 1 in
  let h := clamp height MIN_RECT_SIZE 1 in
  rectInFrame r /\
  rect_width r = w /\ rect_height r = h /\
  rect_x r + rect_width r / 2 == clamp centerX (w / 2) (1 - w / 2) /\
  rect_y r + rect_height r / 2 == clamp centerY (h / 2) (1 - h / 2).
Proof.
  cbv zeta.
  destruct (buildRectFromCenterAndSize_shape centerX centerY width height)
    as (Hin & Hw & Hh & Hx & Hy).
  cbv zeta in *. rewrite Hw, Hh.
  split; [exact Hin|]. split; [reflexivity|]. split; [reflexivity|].
  split; assumption.
Qed.

Lemma buildRectFromCenterZoom_shape (centerX centerY zoomStrength aspectRatio : Q) :
  1 <= aspectRatio <= 10 # 3 ->
  let r := buildRectFromCenterZoom centerX centerY zoomStrength aspectRatio in
  rectInFrame r /\
  getZoomStrength r == clamp zoomStrength 1 6 /\
  rect_width r == rect_height r * aspectRatio.
Proof.
  intros [Ha1 Ha2]. cbv zeta. unfold buildRectFromCenterZoom.
  assert (Qltb 0 aspectRatio = true) as -> by (apply Qltb_true; lra).
  assert (1 <= clamp zoomStrength 1 6 <= 6) as [Hs1 Hs6] by (apply clamp_bounds; lra).
  set (s := clamp zoomStrength 1 6) in *.
  assert ((1 # 6) <= 1 / s <= 1) as [Hu1 Hu2].
  { split; [apply Qle_shift_div_l | apply Qle_shift_div_r]; lra. }
  assert (1 / s * s == 1) as Hus by (field; lra).
  set (u := 1 / s) in *.
  assert (clamp u MIN_RECT_SIZE 1 = u) as Hclu
      by (apply clamp_inside; unfold MIN_RECT_SIZE; lra).
  rewrite Hclu.
  assert (0.05 <= u / aspectRatio <= u) as [Hv1 Hv2].
  { split; [apply Qle_shift_div_l | apply Qle_shift_div_r]; try lra. nra. }
  assert (u / aspectRatio * aspectRatio == u) as Hva by (field; lra).
  set (v := u / aspectRatio) in *.
  assert (Qltb 1 v = false) as -> by (apply Qltb_false; lra).
  assert (Qltb v MIN_RECT_SIZE = false) as ->
      by (apply Qltb_false; unfold MIN_RECT_SIZE; lra).
  assert (Qltb 1 u = false) as -> by (apply Qltb_false; lra).
  assert (Qltb u MIN_RECT_SIZE = false) as ->
      by (apply Qltb_false; unfold MIN_RECT_SIZE; lra).
  split; [apply normalizeRect_inFrame|].
  unfold getZoomStrength, normalizeRect. cbn [rect_width rect_height].
  rewrite Hclu.
  assert (clamp v MIN_RECT_SIZE 1 = v) as ->
      by (apply clamp_inside; unfold MIN_RECT_SIZE; lra).
  split; [|rewrite Hva; reflexivity].
  destruct (Qmax_case_eq u v) as [[Hlt _] | [_ ->]]; [lra|].
  assert (0 < u) as Hupos by lra.
  apply Qmult_inj_r with u; [lra|].
  assert (1 / u * u == 1) as -> by (field; lra).
  rewrite Qmult_comm. symmetry. exact Hus.
Qed.

(** For a landscape aspect ratio between 1 and 10/3, the rect built from a
    centre and a zoom strength reads back that zoom strength (clamped to
    [[1, 6]]), has the requested aspect ratio and lies inside the frame. *)
Theorem buildRectFromCenterZoom_zoom (centerX centerY zoomStrength aspectRatio : Q) :
  1 <= aspectRatio <= 10 # 3 ->
  let r := buildRectFromCenterZoom centerX centerY zoomStrength aspectRatio in
  rectInFrame r /\
  getZoomStrength r == clamp zoomStrength 1 6 /\
  rect_width r == rect_height r * aspectRatio.
Proof. apply buildRectFromCenterZoom_shape. Qed.

(** The editor's 16:9 frame at zoom 2. *)
Lemma buildRectFromCenterZoom_zoom_witness :
  getZoomStrength (buildRectFromCenterZoom 0.5 0.5 2 (16 # 9)) == 2.
Proof.
  destruct (buildRectFromCenterZoom_zoom 0.5 0.5 2 (16 # 9)) as (_ & Hz & _);
    [split; discriminate|].
  rewrite Hz. reflexivity.
Defined.

(** ** Time mapping, markers, springs *)

Lemma Math_round_near (x : Q) : x - (1 # 2) < Math_round x <= x + (1 # 2).
Proof.
  unfold Math_round.
  pose proof (Qfloor_le (x + (1 # 2))) as Hle.
  pose proof (Qlt_floor (x + (1 # 2))) as Hlt.
  rewrite inject_Z_plus in Hlt. change (inject_Z 1) with 1 in Hlt.
  split; lra.
Qed.

Lemma Math_round_mono (x y : Q) : x <= y -> Math_round x <= Math_round y.
Proof.
  intro H. unfold Math_round. rewrite <- Zle_Qle.
  apply Qfloor_resp_le. lra.
Qed.

Lemma Math_round_nonneg (x : Q) : 0 <= x -> 0 <= Math_round x.
Proof.
  intro H. change 0 with (inject_Z 0). unfold Math_round. rewrite <- Zle_Qle.
  change 0%Z with (Qfloor (inject_Z 0)). apply Qfloor_resp_le.
  change (inject_Z 0) with 0. lra.
Qed.

Lemma clamp_mono (a b lo hi : Q) : a <= b -> clamp a lo hi <= clamp b lo hi.
Proof. intro H. unfold clamp. split_minmax; lra. Qed.

(** [mapTimeMs] returns 0 when a duration is not positive; otherwise the
    mapped time lies in [[0, toDurationMs]], grows with the input time, and
    for an input inside [[0, fromDurationMs]] it is within half a
    millisecond of the exact proportion. *)
Theorem mapTimeMs_proportional (v1 v2 fromDurationMs toDurationMs : Q) :
  (fromDurationMs <= 0 \/ toDurationMs <= 0 ->
   mapTimeMs v1 fromDurationMs toDurationMs = 0) /\
  (0 < fromDurationMs -> 0 < toDurationMs ->
   0 <= mapTimeMs v1 fromDurationMs toDurationMs <= toDurationMs /\
   (v1 <= v2 ->
    mapTimeMs v1 fromDurationMs toDurationMs <= mapTimeMs v2 fromDurationMs toDurationMs) /\
   (0 <= v1 <= fromDurationMs ->
    Qabs (mapTimeMs v1 fromDurationMs toDurationMs - v1 / fromDurationMs * toDurationMs)
    <= 1 # 2)).
Proof.
  unfold mapTimeMs. split.
  - intros [H|H]; apply Qleb_true in H; rewrite H; [|rewrite orb_true_r]; reflexivity.
  - intros Hf Ht.
    assert (Qleb fromDurationMs 0 = false) as -> by (apply Qleb_false; exact Hf).
    assert (Qleb toDurationMs 0 = false) as -> by (apply Qleb_false; exact Ht).
    simpl orb. cbv iota.
    split; [apply clamp_bounds; lra|]. split.
    + intro Hle. apply clamp_mono, Math_round_mono.
      apply Qmult_le_compat_r; [|lra].
      unfold Qdiv. apply Qmult_le_compat_r; [exact Hle|].
      apply Qlt_le_weak, Qinv_lt_0_compat. exact Hf.
    + intros [H0 H1].
      assert (0 <= v1 / fromDurationMs <= 1) as [Hq0 Hq1].
      { split; [apply Qle_shift_div_l | apply Qle_shift_div_r]; lra. }
      set (q := v1 / fromDurationMs) in *.
      assert (0 <= q * toDurationMs <= toDurationMs) as [Hx0 Hx1] by nra.
      set (x := q * toDurationMs) in *.
      pose proof (Math_round_near x) as [Hr1 Hr2].
      pose proof (Math_round_nonneg x Hx0) as Hr0.
      apply Qabs_Qle_condition. unfold clamp. split_minmax; lra.
Qed.

(** A 20 s preview of a 10 s timeline. *)
Lemma mapTimeMs_proportional_witness :
  0 <= mapTimeMs 5000 20000 10000 <= 10000 /\
  Qabs (mapTimeMs 5000 20000 10000 - 5000 / 20000 * 10000) <= 1 # 2.
Proof.
  destruct (mapTimeMs_proportional 5000 6000 20000 10000) as [_ H].
  destruct (H eq_refl eq_refl) as (Hrange & _ & Herr).
  split; [exact Hrange|]. apply Herr. split; discriminate.
Defined.

(** The marker step is the smallest option that keeps the markers at
    least 90 px apart; the fallback of the source is never reached. *)
Theorem chooseMarkerStepMs_spacing (pxPerMs : Q) :
  let step := chooseMarkerStepMs pxPerMs in
  let density := Qmax pxPerMs 0.0001 in
  exists smaller larger,
    markerOptions = smaller ++ step :: larger /\
    90 <= step * density /\
    forall option, In option smaller -> option * density < 90.
Proof.
  cbv zeta. unfold chooseMarkerStepMs.
  set (density := Qmax pxPerMs 0.0001).
  assert (0.0001 <= density) as Hd by (subst density; split_minmax; lra).
  assert (forall option, Qleb (90 / density) option = true <-> 90 <= option * density)
    as Htest.
  { intro option. rewrite Qleb_true. split; intro H.
    - assert (90 == 90 / density * density) as -> by (field; lra).
      apply Qmult_le_compat_r; [exact H | lra].
    - apply Qle_shift_div_r; lra. }
  destruct (find (fun option => Qleb (90 / density) option) markerOptions)
    as [step|] eqn:Hfind.
  - destruct (find_before _ _ _ Hfind) as (smaller & larger & Hsplit & Hstep & Hsmaller).
    exists smaller, larger. split; [exact Hsplit|].
    split; [apply Htest; exact Hstep|].
    intros option Hin. specialize (Hsmaller option Hin).
    destruct (Qlt_le_dec (option * density) 90) as [Hlt|Hge]; [exact Hlt|].
    apply Htest in Hge. rewrite Hge in Hsmaller. discriminate.
  - exfalso.
    assert (In 1800000 markerOptions) as Hin by (unfold markerOptions; simpl; tauto).
    pose proof (find_none _ _ Hfind 1800000 Hin) as Hnone. cbv beta in Hnone.
    assert (Qleb (90 / density) 1800000 = true) as Hyes by (apply Htest; lra).
    rewrite Hyes in Hnone. discriminate.
Qed.

(** At 0.1 px per millisecond the markers are one second apart. *)
Lemma chooseMarkerStepMs_spacing_witness :
  exists smaller larger,
    markerOptions = smaller ++ chooseMarkerStepMs 0.1 :: larger /\
    90 <= chooseMarkerStepMs 0.1 * Qmax 0.1 0.0001 /\
    forall option, In option smaller -> option * Qmax 0.1 0.0001 < 90.
Proof. apply (chooseMarkerStepMs_spacing 0.1). Defined.


(** Every spring [normalizeSpring] returns has a mass in [[0.001, 50]], a
    stiffness in [[0.001, 5000]] and a damping in [[0, 500]], so the
    integration step never divides by zero; normalizing again changes
    nothing. *)
Theorem normalizeSpring_bounds (spring : option CameraSpring) :
  let s := normalizeSpring spring in
  0.001 <= mass s <= 50 /\
  0.001 <= stiffness s <= 5000 /\
  0 <= damping s <= 500 /\
  normalizeSpring (Some s) = s.
Proof.
  cbv zeta. destruct spring as [s|].
  - unfold normalizeSpring. cbn [mass stiffness damping].
    split; [apply clamp_bounds; lra|]. split; [apply clamp_bounds; lra|].
    split; [apply clamp_bounds; lra|].
    rewrite !clamp_idem. reflexivity.
  - split; [split; discriminate|]. split; [split; discriminate|].
    split; [split; discriminate|]. vm_compute. reflexivity.
Qed.

(** ** Cursor pipeline *)

Lemma pulseScaleAt_range (dt : Q) : 0.82 <= pulseScaleAt dt <= 1.
Proof.
  destruct (Qlt_le_dec dt 0) as [H0|H0];
    [rewrite (pulseScaleAt_before dt H0); lra|].
  destruct (Qlt_le_dec 65 dt) as [H1|H1].
  - destruct (Qlt_le_dec 150 dt) as [H2|H2].
    + rewrite (pulseScaleAt_after dt H2). lra.
    + rewrite (pulseScaleAt_up dt (conj H1 H2)). qdiv_const. lra.
  - rewrite (pulseScaleAt_down dt (conj H0 H1)). qdiv_const. lra.
Qed.

(** Whatever the click list (sorted or not) and the time, the click pulse
    is returned and lies between the minimum scale 0.82 and 1; without
    clicks it is 1. *)
Theorem sampleClickPulseScale_range (clicks : list Q) (ts : Q) :
  (exists v, sampleClickPulseScale clicks ts = Some v /\ 0.82 <= v <= 1) /\
  sampleClickPulseScale [] ts = Some 1.
Proof.
  split; [|reflexivity].
  destruct (sampleClickPulseScale_total clicks ts) as [v Hv].
  exists v. split; [exact Hv|].
  unfold sampleClickPulseScale in Hv. destruct clicks as [|c clicks].
  - injection Hv as <-. lra.
  - cbv zeta in Hv. destruct (searchLatestClick _ _ _ _ _ _) as [r|]; [|discriminate].
    destruct (r <? 0)%Z; injection Hv as <-; [lra | apply pulseScaleAt_range].
Qed.

Lemma clickTime_In (l : list InputEvent) (tc : Q) :
  In tc (flat_map clickTime l) <-> exists x y, In (EvClick tc x y) l.
Proof.
  rewrite in_flat_map. split.
  - intros (e & He & Hin). destruct e; simpl in Hin; try contradiction.
    destruct Hin as [<-|[]]. eauto.
  - intros (x & y & Hin). exists (EvClick tc x y). split; [exact Hin | left; reflexivity].
Qed.

(** The click times extracted from an events file are in ascending order
    and are exactly the times of its click events, so the click pulse can
    search them: under the latest click [tc] at or before [ts] the pulse is
    [1 - 0.18 * dt / 65] in the first 65 ms, 1 after 150 ms, with
    [dt = ts - tc]. *)
Theorem extractClickTimestamps_pulse (file : EventsFile) (tc ts x y : Q) :
  In (EvClick tc x y) (events file) ->
  tc <= ts ->
  (forall c x' y', In (EvClick c x' y') (events file) -> c <= tc \/ ts < c) ->
  let clicks := extractClickTimestamps (Some file) in
  Sorted Qle clicks /\
  Permutation clicks (flat_map clickTime (events file)) /\
  exists v,
    sampleClickPulseScale clicks ts = Some v /\
    (ts - tc <= 65 -> v == 1 - (1 - 0.82) * ((ts - tc) / 65)) /\
    (150 < ts - tc -> v == 1).
Proof.
  intros Hin Hle Hlatest clicks. subst clicks. unfold extractClickTimestamps.
  set (raw := flat_map clickTime (events file)).
  assert (Sorted Qle (sortBy (fun t => t) raw)) as Hsorted
      by (exact (sortBy_sorted (fun t => t) raw)).
  split; [exact Hsorted|]. split; [apply sortBy_perm|].
  assert (latestClick (sortBy (fun t => t) raw) tc ts) as Hlc.
  { split.
    - apply (proj2 (sortBy_In (fun t => t) raw tc)). apply clickTime_In. eauto.
    - split; [exact Hle|]. intros c Hc.
      apply (proj1 (sortBy_In (fun t => t) raw c)) in Hc.
      apply clickTime_In in Hc. destruct Hc as (x' & y' & Hc). eapply Hlatest, Hc. }
  destruct (sampleClickPulseScale_latest _ tc ts Hsorted Hlc) as (d & Hres & Hd).
  exists (pulseScaleAt d). split; [exact Hres|]. split.
  - intro H. rewrite pulseScaleAt_down by lra. qdiv_const. lra.
  - intro H. apply pulseScaleAt_after. lra.
Qed.

(** Two clicks out of order in the file; the pulse 65 ms after the later. *)
Lemma extractClickTimestamps_pulse_witness :
  exists v,
    sampleClickPulseScale
      (extractClickTimestamps (Some (mkEventsFile 100 100 1
                                       [EvClick 900 1 1; EvMove 950 2 2; EvClick 300 5 5])))
      965 = Some v /\
    v == 0.82.
Proof.
  destruct (extractClickTimestamps_pulse
              (mkEventsFile 100 100 1 [EvClick 900 1 1; EvMove 950 2 2; EvClick 300 5 5])
              900 965 1 1) as (_ & _ & v & Hv & Hdown & _).
  - left. reflexivity.
  - discriminate.
  - intros c x' y' [H|[H|[H|[]]]]; inversion H; subst; left; discriminate.
  - exists v. split; [exact Hv|]. rewrite Hdown by discriminate. reflexivity.
Defined.

Lemma smoothSamples_sorted (alpha : Q) (rest : list CursorSample) :
  forall sx sy,
    Sorted (keyLe cs_ts) rest ->
    Sorted (keyLe cs_ts) (smoothSamples alpha sx sy rest) /\
    (forall s, HdRel (keyLe cs_ts) s rest ->
               HdRel (keyLe cs_ts) s (smoothSamples alpha sx sy rest)).
Proof.
  induction rest as [|r rest IH]; intros sx sy HS; simpl.
  - split; [constructor | intros s _; constructor].
  - inversion HS as [|? ? HS' Hhd]; subst.
    destruct (IH (sx + alpha * (cs_x r - sx)) (sy + alpha * (cs_y r - sy)) HS')
      as [IH1 IH2].
    split.
    + constructor; [exact IH1|].
      assert (HdRel (keyLe cs_ts) r (smoothSamples alpha (sx + alpha * (cs_x r - sx))
                                       (sy + alpha * (cs_y r - sy)) rest)) as H
          by (apply IH2; exact Hhd).
      destruct (smoothSamples alpha _ _ rest); constructor.
      inversion H; subst. assumption.
    + intros s Hs. inversion Hs; subst. constructor. assumption.
Qed.

Lemma smoothSamples_inFrame (alpha : Q) (rest : list CursorSample) :
  0 <= alpha <= 1 ->
  forall sx sy,
    0 <= sx <= 1 -> 0 <= sy <= 1 ->
    Forall sampleInFrame rest ->
    Forall sampleInFrame (smoothSamples alpha sx sy rest).
Proof.
  intros Ha. induction rest as [|r rest IH]; intros sx sy Hx Hy Hall; simpl;
    [constructor|].
  inversion Hall as [|? ? [Hrx Hry] Hrest]; subst.
  assert (0 <= sx + alpha * (cs_x r - sx) <= 1) as Hx' by nra.
  assert (0 <= sy + alpha * (cs_y r - sy) <= 1) as Hy' by nra.
  constructor; [split; assumption|]. apply IH; assumption.
Qed.

Lemma normalizedSamples_inFrame (file : EventsFile) :
  Forall sampleInFrame (normalizedSamples file).
Proof.
  apply Forall_forall. intros s Hs. unfold normalizedSamples in Hs.
  apply in_flat_map in Hs. destruct Hs as (e & _ & Hs).
  destruct e; simpl in Hs; try contradiction; destruct Hs as [<-|[]];
    split; simpl; apply clamp_bounds; lra.
Qed.

Lemma extractCursorSamples_shape (eventsFile : option EventsFile) (smoothingFactor : Q) :
  Sorted (keyLe cs_ts) (extractCursorSamples eventsFile smoothingFactor) /\
  Forall sampleInFrame (extractCursorSamples eventsFile smoothingFactor).
Proof.
  unfold extractCursorSamples. destruct eventsFile as [file|]; [|split; constructor].
  destruct (Qleb (screenWidth file) 0 || Qleb (screenHeight file) 0);
    [split; constructor|].
  pose proof (sortBy_sorted cs_ts (normalizedSamples file)) as Hsorted.
  assert (Forall sampleInFrame (sortBy cs_ts (normalizedSamples file))) as Hframe.
  { apply Forall_forall. intros s Hs.
    apply (proj1 (sortBy_In cs_ts _ s)) in Hs.
    pose proof (normalizedSamples_inFrame file) as Hall.
    rewrite Forall_forall in Hall. apply Hall, Hs. }
  destruct (sortBy cs_ts (normalizedSamples file)) as [|first [|second rest]];
    [split; assumption | split; assumption |].
  inversion Hsorted as [|? ? Hrest Hhd]; subst.
  inversion Hframe as [|? ? [Hfx Hfy] Hrestframe]; subst.
  assert (0 <= clamp smoothingFactor 0 1 <= 1) as Hfactor by (apply clamp_bounds; lra).
  destruct (smoothSamples_sorted (1 - clamp smoothingFactor 0 1 * 0.9) (second :: rest)
              (cs_x first) (cs_y first) Hrest) as [Hs1 Hs2].
  split.
  - constructor; [exact Hs1 | apply Hs2; exact Hhd].
  - constructor; [split; assumption|].
    apply smoothSamples_inFrame; try assumption. lra.
Qed.

(** Whatever the events file and the smoothing factor, the cursor samples
    come out in time order and every sample lies inside the frame
    [[0, 1] x [0, 1]]. *)
Theorem extractCursorSamples_ordered_inFrame (eventsFile : option EventsFile)
    (smoothingFactor : Q) :
  Sorted (keyLe cs_ts) (extractCursorSamples eventsFile smoothingFactor) /\
  forall s, In s (extractCursorSamples eventsFile smoothingFactor) ->
            0 <= cs_x s <= 1 /\ 0 <= cs_y s <= 1.
Proof.
  destruct (extractCursorSamples_shape eventsFile smoothingFactor) as [Hs Hf].
  split; [exact Hs|]. rewrite Forall_forall in Hf. exact Hf.
Qed.

(** The demo events, recorded out of order, come out in time order. *)
Lemma extractCursorSamples_ordered_inFrame_witness :
  Sorted (keyLe cs_ts) (extractCursorSamples (Some demoEvents) 0.5).
Proof. apply (proj1 (extractCursorSamples_ordered_inFrame (Some demoEvents) 0.5)). Defined.


(** ** Binary searches over time-ordered arrays *)

Section SearchFacts.

Context {A : Type} (key : A -> Q) (d : A).

Lemma Sorted_keyLe_nth (items : list A) :
  Sorted (keyLe key) items ->
  forall i j, (i <= j < length items)%nat ->
              key (nth i items d) <= key (nth j items d).
Proof.
  intros HS. apply Sorted_StronglySorted in HS; [|apply keyLe_trans].
  induction HS as [|a l HS IH Hall]; intros i j [Hij Hj]; simpl in *.
  - lia.
  - destruct i as [|i], j as [|j]; try lia.
    + lra.
    + rewrite Forall_forall in Hall. apply Hall, nth_In. lia.
    + apply IH. lia.
Qed.

Lemma nth_last_index (items : list A) :
  items <> [] -> nth (length items - 1) items d = last items d.
Proof.
  induction items as [|a l IH]; intro Hne; [contradiction|].
  destruct l as [|b l]; [reflexivity|].
  change (last (a :: b :: l) d) with (last (b :: l) d).
  rewrite <- IH by discriminate. simpl. rewrite Nat.sub_0_r. reflexivity.
Qed.

Lemma midpoint_between (low high : Z) :
  (low <= high)%Z -> (low <= (low + high) / 2 <= high)%Z.
Proof.
  intro H. split; [apply Z.div_le_lower_bound | apply Z.div_le_upper_bound]; lia.
Qed.

(** The loop with the early exit always ends within [high - low + 1]
    passes. *)
Lemma searchExact_total (items : list A) (ts : Q) :
  forall fuel low high,
    (Z.to_nat (high - low + 1) <= fuel)%nat ->
    exists r, searchExact key d fuel items ts low high = Some r.
Proof.
  induction fuel as [|fuel IH]; intros low high Hfuel; simpl.
  - assert ((high <? low)%Z = true) as -> by (apply Z.ltb_lt; lia). eauto.
  - destruct (high <? low)%Z eqn:Hcmp; [eauto|].
    apply Z.ltb_ge in Hcmp. pose proof (midpoint_between low high Hcmp).
    destruct (Qeq_bool _ ts); [eauto|].
    destruct (Qltb _ ts); apply IH; lia.
Qed.

(** On a time-ordered array the loop returns an index holding [ts], or
    the position that splits the earlier from the later items. *)
Lemma searchExact_sorted (items : list A) (ts : Q) :
  Sorted (keyLe key) items ->
  forall fuel low high,
    (0 <= low)%Z -> (high < Z.of_nat (length items))%Z -> (low <= high + 1)%Z ->
    (Z.to_nat (high - low + 1) <= fuel)%nat ->
    (forall i, (0 <= i < low)%Z -> key (nth (Z.to_nat i) items d) < ts) ->
    (forall i, (high < i < Z.of_nat (length items))%Z ->
               ts < key (nth (Z.to_nat i) items d)) ->
    exists r,
      searchExact key d fuel items ts low high = Some r /\
      match r with
      | Found mid =>
          (0 <= mid < Z.of_nat (length items))%Z /\
          key (nth (Z.to_nat mid) items d) == ts
      | NotFound l =>
          (0 <= l <= Z.of_nat (length items))%Z /\
          (forall i, (0 <= i < l)%Z -> key (nth (Z.to_nat i) items d) < ts) /\
          (forall i, (l <= i < Z.of_nat (length items))%Z ->
                     ts < key (nth (Z.to_nat i) items d))
      end.
Proof.
  intro HS. pose proof (Sorted_keyLe_nth items HS) as Hsorted.
  induction fuel as [|fuel IH]; intros low high Hlow Hhigh Hlh Hfuel Hbelow Habove; simpl.
  - assert ((high <? low)%Z = true) as -> by (apply Z.ltb_lt; lia).
    eexists. split; [reflexivity|]. split; [lia|].
    split; [exact Hbelow | intros i Hi; apply Habove; lia].
  - destruct (high <? low)%Z eqn:Hcmp.
    + apply Z.ltb_lt in Hcmp. eexists. split; [reflexivity|]. split; [lia|].
      split; [exact Hbelow | intros i Hi; apply Habove; lia].
    + apply Z.ltb_ge in Hcmp. pose proof (midpoint_between low high Hcmp) as Hmid.
      set (mid := ((low + high) / 2)%Z) in *.
      destruct (Qeq_bool (key (nth (Z.to_nat mid) items d)) ts) eqn:Heq.
      * apply Qeq_bool_iff in Heq. eexists. split; [reflexivity|].
        split; [lia | exact Heq].
      * apply Qeq_bool_neq in Heq.
        destruct (Qltb (key (nth (Z.to_nat mid) items d)) ts) eqn:Hlt.
        -- apply Qltb_true in Hlt. apply IH; try lia; [|exact Habove].
           intros i Hi.
           apply Qle_lt_trans with (key (nth (Z.to_nat mid) items d)); [|exact Hlt].
           apply Hsorted. lia.
        -- apply Qltb_false in Hlt. apply IH; try lia; [exact Hbelow|].
           intros i Hi.
           apply Qlt_le_trans with (key (nth (Z.to_nat mid) items d)).
           ++ destruct (Qlt_le_dec ts (key (nth (Z.to_nat mid) items d))) as [H|H];
                [exact H|]. exfalso. apply Heq. lra.
           ++ apply Hsorted. lia.
Qed.

(** The boundary loop: with a test that holds on an initial part of the
    array only, it ends with [low = high + 1] at the end of that part. *)
Lemma searchBoundary_spec (goRight : A -> bool) (items : list A) :
  (forall i j, (i <= j < length items)%nat ->
               goRight (nth j items d) = true -> goRight (nth i items d) = true) ->
  forall fuel low high,
    (0 <= low)%Z -> (high < Z.of_nat (length items))%Z -> (low <= high + 1)%Z ->
    (Z.to_nat (high - low + 1) <= fuel)%nat ->
    (forall i, (0 <= i < low)%Z -> goRight (nth (Z.to_nat i) items d) = true) ->
    (forall i, (high < i < Z.of_nat (length items))%Z ->
               goRight (nth (Z.to_nat i) items d) = false) ->
    exists l,
      searchBoundary goRight d fuel items low high = Some (l, (l - 1)%Z) /\
      (0 <= l <= Z.of_nat (length items))%Z /\
      (forall i, (0 <= i < l)%Z -> goRight (nth (Z.to_nat i) items d) = true) /\
      (forall i, (l <= i < Z.of_nat (length items))%Z ->
                 goRight (nth (Z.to_nat i) items d) = false).
Proof.
  intro Hmono.
  induction fuel as [|fuel IH]; intros low high Hlow Hhigh Hlh Hfuel Hbelow Habove; simpl.
  - assert ((high <? low)%Z = true) as -> by (apply Z.ltb_lt; lia).
    exists low. replace (low - 1)%Z with high by lia.
    split; [reflexivity|]. split; [lia|].
    split; [exact Hbelow | intros i Hi; apply Habove; lia].
  - destruct (high <? low)%Z eqn:Hcmp.
    + apply Z.ltb_lt in Hcmp.
      exists low. replace (low - 1)%Z with high by lia.
      split; [reflexivity|]. split; [lia|].
      split; [exact Hbelow | intros i Hi; apply Habove; lia].
    + apply Z.ltb_ge in Hcmp. pose proof (midpoint_between low high Hcmp) as Hmid.
      set (mid := ((low + high) / 2)%Z) in *.
      destruct (goRight (nth (Z.to_nat mid) items d)) eqn:Hgo.
      * apply IH; try lia; [|exact Habove].
        intros i Hi. apply (Hmono (Z.to_nat i) (Z.to_nat mid)); [lia | exact Hgo].
      * apply IH; try lia; [exact Hbelow|].
        intros i Hi.
        destruct (goRight (nth (Z.to_nat i) items d)) eqn:Hi'; [|reflexivity].
        rewrite (Hmono (Z.to_nat mid) (Z.to_nat i)) in Hgo; [discriminate | lia | exact Hi'].
Qed.

Lemma searchBoundary_total (goRight : A -> bool) (items : list A) :
  forall fuel low high,
    (Z.to_nat (high - low + 1) <= fuel)%nat ->
    exists r, searchBoundary goRight d fuel items low high = Some r.
Proof.
  induction fuel as [|fuel IH]; intros low high Hfuel; simpl.
  - assert ((high <? low)%Z = true) as -> by (apply Z.ltb_lt; lia). eauto.
  - destruct (high <? low)%Z eqn:Hcmp; [eauto|].
    apply Z.ltb_ge in Hcmp. pose proof (midpoint_between low high Hcmp).
    destruct (goRight _); apply IH; lia.
Qed.

End SearchFacts.

Lemma interpolateCursor_total (samples : list CursorSample) (ts : Q) :
  exists p, interpolateCursor samples ts = Some p.
Proof.
  unfold interpolateCursor. destruct samples as [|first rest]; [eauto|].
  destruct (Qleb ts (cs_ts first)); [eauto|].
  cbv zeta. destruct (Qleb (cs_ts (last (first :: rest) first)) ts); [eauto|].
  destruct (searchExact_total cs_ts first (first :: rest) ts (length (first :: rest)) 0
              (Z.of_nat (length (first :: rest)) - 1)) as [r Hr]; [lia|].
  rewrite Hr. destruct r; [eauto|]. destruct (Qleb _ 0); eauto.
Qed.

Lemma lerp_between (p n t lo hi : Q) :
  0 <= t <= 1 -> lo <= p <= hi -> lo <= n <= hi -> lo <= p + (n - p) * t <= hi.
Proof. intros. nra. Qed.

Lemma interpolateCursor_box (samples : list CursorSample) (ts xlo xhi ylo yhi : Q) :
  Sorted (keyLe cs_ts) samples ->
  samples <> [] ->
  (forall s, In s samples -> xlo <= cs_x s <= xhi /\ ylo <= cs_y s <= yhi) ->
  exists p,
    interpolateCursor samples ts = Some p /\
    xlo <= fst p <= xhi /\ ylo <= snd p <= yhi.
Proof.
  intros HS Hne Hbox. unfold interpolateCursor.
  destruct samples as [|first rest] eqn:Hsamples; [contradiction|].
  rewrite <- Hsamples in *.
  assert (In first samples) as Hfirst by (rewrite Hsamples; left; reflexivity).
  destruct (Qleb ts (cs_ts first)) eqn:Hbefore.
  { eexists. split; [reflexivity|]. apply Hbox, Hfirst. }
  apply Qleb_false in Hbefore. cbv zeta.
  destruct (Qleb (cs_ts (last samples first)) ts) eqn:Hafter.
  { eexists. split; [reflexivity|]. apply Hbox, last_In. exact Hne. }
  apply Qleb_false in Hafter.
  assert (0 < length samples)%nat as Hlen by (rewrite Hsamples; simpl; lia).
  destruct (searchExact_sorted cs_ts first samples ts HS (length samples) 0
              (Z.of_nat (length samples) - 1)) as (r & Hr & Hspec);
    try lia; try (intros i Hi; lia).
  rewrite Hr. destruct r as [mid|l].
  - destruct Hspec as [Hmid _]. eexists. split; [reflexivity|].
    apply Hbox, nth_In. lia.
  - destruct Hspec as (Hl & Hbelow & Habove).
    assert (1 <= l)%Z as Hl1.
    { destruct (Z_le_gt_dec 1 l) as [|Hgt]; [assumption|].
      specialize (Habove 0%Z ltac:(lia)). simpl in Habove.
      rewrite Hsamples in Habove. simpl in Habove. lra. }
    assert (l <= Z.of_nat (length samples) - 1)%Z as Hl2.
    { destruct (Z_le_gt_dec l (Z.of_nat (length samples) - 1)) as [|Hgt]; [assumption|].
      specialize (Hbelow (Z.of_nat (length samples) - 1)%Z ltac:(lia)).
      replace (Z.to_nat (Z.of_nat (length samples) - 1)) with (length samples - 1)%nat
        in Hbelow by lia.
      rewrite (nth_last_index first samples Hne) in Hbelow. lra. }
    replace (Z.max 0 (l - 1)) with (l - 1)%Z by lia.
    specialize (Hbelow (l - 1)%Z ltac:(lia)). specialize (Habove l ltac:(lia)).
    set (prev := nth (Z.to_nat (l - 1)) samples first) in *.
    set (next := nth (Z.to_nat l) samples first) in *.
    assert (In prev samples) as Hprev by (apply nth_In; lia).
    assert (In next samples) as Hnext by (apply nth_In; lia).
    assert (Qleb (cs_ts next - cs_ts prev) 0 = false) as ->
        by (apply Qleb_false; lra).
    assert (0 <= (ts - cs_ts prev) / (cs_ts next - cs_ts prev) <= 1) as Ht.
    { split; [apply Qle_shift_div_l | apply Qle_shift_div_r]; lra. }
    eexists. split; [reflexivity|]. simpl fst. simpl snd.
    destruct (Hbox prev Hprev) as [Hpx Hpy]. destruct (Hbox next Hnext) as [Hnx Hny].
    split; apply lerp_between; assumption.
Qed.

(** [interpolateCursor] always returns a position: the middle of the
    frame without samples, the first sample at or before its time, the last
    sample at or after its time; and on time-ordered samples the position
    never leaves the box that contains the samples. *)
Theorem interpolateCursor_within (samples : list CursorSample) (ts xlo xhi ylo yhi : Q) :
  (exists p, interpolateCursor samples ts = Some p) /\
  interpolateCursor [] ts = Some (0.5, 0.5) /\
  (forall first rest,
     samples = first :: rest ->
     (ts <= cs_ts first -> interpolateCursor samples ts = Some (cs_x first, cs_y first)) /\
     (cs_ts first < ts -> cs_ts (last samples first) <= ts ->
      interpolateCursor samples ts
      = Some (cs_x (last samples first), cs_y (last samples first)))) /\
  (Sorted (keyLe cs_ts) samples -> samples <> [] ->
   (forall s, In s samples -> xlo <= cs_x s <= xhi /\ ylo <= cs_y s <= yhi) ->
   exists p,
     interpolateCursor samples ts = Some p /\
     xlo <= fst p <= xhi /\ ylo <= snd p <= yhi).
Proof.
  split; [apply interpolateCursor_total|]. split; [reflexivity|]. split.
  - intros first rest ->. unfold interpolateCursor. split.
    + intro H. apply Qleb_true in H. rewrite H. reflexivity.
    + intros H1 H2. apply Qleb_false in H1. apply Qleb_true in H2.
      rewrite H1. cbv zeta. rewrite H2. reflexivity.
  - apply interpolateCursor_box.
Qed.

(** Two samples, looked up half way. *)
Lemma interpolateCursor_within_witness :
  exists p,
    interpolateCursor [mkCursorSample 0 0.2 0.4; mkCursorSample 100 0.6 0.8] 50 = Some p /\
    0.2 <= fst p <= 0.6 /\ 0.4 <= snd p <= 0.8.
Proof.
  apply (interpolateCursor_within
           [mkCursorSample 0 0.2 0.4; mkCursorSample 100 0.6 0.8] 50 0.2 0.6 0.4 0.8).
  - repeat constructor. unfold keyLe. simpl. discriminate.
  - discriminate.
  - intros s [<-|[<-|[]]]; simpl; repeat split; discriminate.
Defined.

(** The cursor drawn at any time, for any events file and smoothing
    factor, lies inside the frame. *)
Theorem cursor_position_inFrame (eventsFile : option EventsFile)
    (smoothingFactor ts : Q) :
  exists p,
    interpolateCursor (extractCursorSamples eventsFile smoothingFactor) ts = Some p /\
    0 <= fst p <= 1 /\ 0 <= snd p <= 1.
Proof.
  destruct (extractCursorSamples_shape eventsFile smoothingFactor) as [Hsorted Hframe].
  destruct (extractCursorSamples eventsFile smoothingFactor) as [|first rest] eqn:Hout.
  - exists (0.5, 0.5). split; [reflexivity|]. simpl. split; split; discriminate.
  - rewrite <- Hout in *. apply interpolateCursor_box; [exact Hsorted | |].
    + rewrite Hout. discriminate.
    + rewrite Forall_forall in Hframe. exact Hframe.
Qed.

(** ** The camera track: store invariants *)

Lemma update_length (store : Store) (p : Ref) (f : NormalizedRect -> NormalizedRect) :
  length (update store p f) = length store.
Proof.
  revert p. induction store as [|r store IH]; intros [|p]; simpl; auto.
Qed.

Lemma deref_update_other (store : Store) (p q : Ref)
    (f : NormalizedRect -> NormalizedRect) :
  p <> q -> deref (update store p f) q = deref store q.
Proof.
  unfold deref. revert p q.
  induction store as [|r store IH]; intros [|p] [|q] Hpq; simpl; auto; try lia.
Qed.

Lemma update_Forall (P : NormalizedRect -> Prop) (store : Store) (p : Ref)
    (f : NormalizedRect -> NormalizedRect) :
  (forall r, P r -> P (f r)) -> Forall P store -> Forall P (update store p f).
Proof.
  intros Hf. revert p. induction store as [|r store IH]; intros [|p] H; simpl; auto;
    inversion H; subst; constructor; auto.
Qed.

Lemma deref_Forall (P : NormalizedRect -> Prop) (store : Store) (p : Ref) :
  P FULL_RECT -> Forall P store -> P (deref store p).
Proof.
  intros Hfull H. unfold deref. rewrite Forall_forall in H.
  destruct (Nat.lt_ge_cases p (length store)) as [Hp|Hp].
  - apply H, nth_In, Hp.
  - rewrite nth_overflow by exact Hp. exact Hfull.
Qed.

Lemma deref_alloc_old (store : Store) (r : NormalizedRect) (p : Ref) :
  (p < length store)%nat -> deref (store ++ [r]) p = deref store p.
Proof. intro H. unfold deref. apply app_nth1, H. Qed.

Lemma deref_alloc_new (store : Store) (r : NormalizedRect) (p : Ref) :
  p = length store -> deref (store ++ [r]) p = r.
Proof. intros ->. unfold deref. rewrite app_nth2, Nat.sub_diag by lia. reflexivity. Qed.

Lemma FULL_RECT_inFrame : rectInFrame FULL_RECT.
Proof. unfold rectInFrame, FULL_RECT. simpl. repeat split; discriminate. Qed.

(** Whatever one pass of the loop keeps, the loop keeps. *)
Lemma trackLoop_invariant (P : TrackState -> Prop)
    (runtimeSegments : list RuntimeSegment) (durationMs stepMs : Q) :
  (forall st, P st -> st_previousTs st < durationMs ->
              P (trackStep runtimeSegments durationMs stepMs st)) ->
  forall fuel st st',
    P st -> trackLoop fuel runtimeSegments durationMs stepMs st = Some st' -> P st'.
Proof.
  intro Hstep. induction fuel as [|fuel IH]; intros st st' HP Hrun; simpl in Hrun;
    destruct (Qltb (st_previousTs st) durationMs) eqn:Hcond;
    try discriminate; try (injection Hrun as <-; exact HP).
  apply (IH _ _ (Hstep st HP (proj1 (Qltb_true _ _) Hcond)) Hrun).
Qed.

Lemma trackStep_storeInv (runtimeSegments : list RuntimeSegment) (durationMs stepMs : Q)
    (st : TrackState) :
  storeInv st -> storeInv (trackStep runtimeSegments durationMs stepMs st).
Proof.
  intros (Hlen & Hrect & Hfull & Hin & rest & Hs & Hlast).
  unfold trackStep.
  destruct (Qleb _ (st_previousTs st)).
  - unfold storeInv. simpl. repeat (split; [assumption|]). eauto.
  - unfold alloc. cbv iota beta.
    unfold storeInv. cbn [st_store st_rect st_samples].
    rewrite !length_app, !update_length. cbn [length].
    split; [lia|]. split; [lia|].
    split.
    { rewrite deref_alloc_old by (rewrite !update_length; lia).
      rewrite !deref_update_other by lia. exact Hfull. }
    split.
    { rewrite deref_alloc_new by (rewrite !update_length; lia).
      eexists. reflexivity. }
    exists (rest ++ [mkCell
              (Qmin (Math_round (inject_Z (st_frame st) * stepMs)) durationMs)
              (length (st_store st))]).
    split.
    + rewrite Hs. reflexivity.
    + intros _. rewrite last_last. reflexivity.
Qed.

Lemma last_map {A B : Type} (f : A -> B) (l : list A) (d : A) :
  last (map f l) (f d) = f (last l d).
Proof.
  induction l as [|a l IH]; [reflexivity|].
  destruct l as [|b l]; [reflexivity|]. exact IH.
Qed.

Lemma trackLoop_storeInv (runtimeSegments : list RuntimeSegment) (durationMs stepMs : Q)
    (fuel : nat) (st st' : TrackState) :
  storeInv st ->
  trackLoop fuel runtimeSegments durationMs stepMs st = Some st' ->
  storeInv st'.
Proof.
  apply (trackLoop_invariant storeInv). intros s Hs _.
  apply trackStep_storeInv, Hs.
Qed.

(** The track is returned with the initial state satisfying both
    invariants. *)
Lemma buildSpringCameraTrack_run (runtimeSegments : list RuntimeSegment)
    (durationMs fps : Q) :
  0 < durationMs ->
  exists st',
    buildSpringCameraTrack runtimeSegments durationMs fps
    = Some (readSamples (st_store st') (st_samples st')) /\
    trackLoop (trackFrames durationMs (1000 / Qmax 1 fps)) runtimeSegments durationMs
      (1000 / Qmax 1 fps)
      (mkTrackState [FULL_RECT; FULL_RECT] [mkCell 0 0%nat] 1%nat 0 0 0 0 0 1)
    = Some st' /\
    trackInv durationMs (1000 / Qmax 1 fps) st' /\
    st_previousTs st' == durationMs.
Proof.
  intro Hpos. unfold buildSpringCameraTrack.
  assert (Qleb durationMs 0 = false) as -> by (apply Qleb_false; exact Hpos).
  set (stepMs := 1000 / Qmax 1 fps).
  assert (0 < stepMs) as Hstep.
  { unfold stepMs. apply Qlt_shift_div_l; split_minmax; lra. }
  unfold alloc. cbv iota beta. simpl app. simpl length.
  match goal with
  | |- context [trackLoop ?f ?s ?d ?m ?st] =>
      destruct (trackLoop_returns s d m Hpos Hstep f st) as (st' & Hrun & Hinv & Hend)
  end.
  - unfold trackInv. simpl.
    split; [eauto|]. split; [auto|]. split; [reflexivity|]. split; [lra|].
    split; [lia|]. intro H. lia.
  - simpl. lia.
  - exists st'. rewrite Hrun. auto.
Qed.

Lemma buildSpringCameraTrack_shape (runtimeSegments : list RuntimeSegment)
    (durationMs fps : Q) :
  0 < durationMs ->
  exists first rest,
    buildSpringCameraTrack runtimeSegments durationMs fps = Some (first :: rest) /\
    first = mkSample 0 FULL_RECT /\
    rest <> [] /\
    sample_ts (last rest first) == durationMs /\
    exists raw, sample_rect (last rest first) = normalizeRect raw.
Proof.
  intro Hpos.
  destruct (buildSpringCameraTrack_run runtimeSegments durationMs fps Hpos)
    as (st' & Hbuild & Hrun & Hinv & Hend).
  apply trackLoop_storeInv in Hrun.
  2:{ unfold storeInv. simpl. split; [lia|]. split; [reflexivity|].
      split; [reflexivity|]. split; [exists FULL_RECT; vm_compute; reflexivity|].
      exists []. split; [reflexivity|]. intro H. contradiction. }
  destruct Hrun as (Hlen & Hrect & Hfull & Hin & cells & Hs & Hlast).
  destruct Hinv as (_ & _ & Hlastts & _).
  rewrite Hbuild, Hs. simpl readSamples. rewrite Hfull.
  eexists. eexists. split; [reflexivity|]. split; [reflexivity|].
  assert (cells <> []) as Hne.
  { intros ->. rewrite Hs in Hlastts. simpl in Hlastts. rewrite <- Hlastts in Hend. lra. }
  split; [destruct cells; [contradiction | discriminate]|].
  rewrite Hs in Hlastts.
  change (map cell_ts (mkCell 0 0%nat :: cells)) with (0 :: map cell_ts cells) in Hlastts.
  assert (forall (d : SpringCameraSample) (d' : SampleCell),
            last (map (fun cell => mkSample (cell_ts cell) (deref (st_store st') (cell_rect cell)))
                      cells) d
            = mkSample (cell_ts (last cells d'))
                       (deref (st_store st') (cell_rect (last cells d')))) as Hread.
  { intros d d'. clear - Hne. induction cells as [|c cells IH]; [contradiction|].
    destruct cells as [|c' cells]; [reflexivity|]. apply IH. discriminate. }
  rewrite (Hread _ (mkCell 0 0%nat)). simpl.
  split.
  - rewrite <- Hend, <- Hlastts.
    clear - Hne. destruct cells as [|c cells]; [contradiction|].
    change (last (0 :: map cell_ts (c :: cells)) 0) with (last (map cell_ts (c :: cells)) 0).
    change 0 with (cell_ts (mkCell 0 0%nat)) at 2.
    rewrite last_map. reflexivity.
  - rewrite (Hlast Hne). exact Hin.
Qed.

(** The aliasing of the track reaches neither end.  The camera track of
    a positive duration starts with the full frame at time 0, which no step
    writes to, and has a further sample; its last sample is at [durationMs]
    and holds the rect as [normalizeRect] returned it, which no later step
    has written to; whatever the segments, their springs and the frame
    rate. *)
Theorem buildSpringCameraTrack_ends (runtimeSegments : list RuntimeSegment)
    (durationMs fps : Q) :
  0 < durationMs ->
  exists first rest,
    buildSpringCameraTrack runtimeSegments durationMs fps = Some (first :: rest) /\
    first = mkSample 0 FULL_RECT /\
    rest <> [] /\
    sample_ts (last rest first) == durationMs /\
    exists raw, sample_rect (last rest first) = normalizeRect raw.
Proof. apply buildSpringCameraTrack_shape. Qed.

(** A one-second track with the stiff segment of the aliasing example. *)
Lemma buildSpringCameraTrack_ends_witness :
  exists first rest,
    buildSpringCameraTrack [stiffSegment] 1000 24 = Some (first :: rest) /\
    first = mkSample 0 FULL_RECT /\
    rest <> [] /\
    sample_ts (last rest first) == 1000 /\
    exists raw, sample_rect (last rest first) = normalizeRect raw.
Proof.
  apply (buildSpringCameraTrack_ends [stiffSegment] 1000 24). reflexivity.
Defined.

(** ** The camera at rest *)

(** A spring at its target with no velocity stays there. *)
Lemma springStep_rest (current velocity0 target dtSeconds : Q) :
  current == target -> velocity0 == 0 ->
  value (springStep current velocity0 target DEFAULT_SPRING dtSeconds) == target /\
  velocity (springStep current velocity0 target DEFAULT_SPRING dtSeconds) == 0.
Proof.
  intros Hc Hv. unfold springStep, DEFAULT_SPRING. simpl.
  generalize (clamp dtSeconds 0.0001 0.1). intro dt.
  assert (velocity0 + ((target - current) * 170 - 26 * velocity0) / 1 * dt == 0) as Hvel.
  { rewrite Hc, Hv. field. }
  split; [|exact Hvel]. rewrite Hvel, Hc. ring.
Qed.

Lemma normalizeRect_rest (r : NormalizedRect) :
  rectEq r FULL_RECT -> rectEq (normalizeRect r) FULL_RECT.
Proof.
  unfold rectEq, FULL_RECT. simpl. intros (Hx & Hy & Hw & Hh).
  unfold clamp, MIN_RECT_SIZE. split_minmax; repeat split; lra.
Qed.

Lemma FULL_RECT_rest : rectEq FULL_RECT FULL_RECT.
Proof. unfold rectEq. repeat split; reflexivity. Qed.

Lemma trackStep_restInv (runtimeSegments : list RuntimeSegment) (durationMs stepMs : Q)
    (st : TrackState) :
  (forall ts, 0 <= ts < durationMs -> resolveRuntimeSegment runtimeSegments ts = None) ->
  restInv st -> st_previousTs st < durationMs ->
  restInv (trackStep runtimeSegments durationMs stepMs st).
Proof.
  intros Hnone (Hstore & Hvx & Hvy & Hvw & Hvh & Hprev) Hcond.
  unfold trackStep.
  destruct (Qleb _ (st_previousTs st)) eqn:Hcmp.
  - unfold restInv. simpl. auto 10.
  - apply Qleb_false in Hcmp.
    rewrite (Hnone (st_previousTs st)) by (split; assumption).
    set (dt := (_ - st_previousTs st) / 1000).
    set (rect := st_rect st).
    pose proof FULL_RECT_rest as Hfull.
    (* x *)
    pose proof (deref_Forall (fun r => rectEq r FULL_RECT) (st_store st) rect Hfull Hstore) as (Hx0 & _).
    destruct (springStep_rest _ _ (rect_x FULL_RECT) dt Hx0 Hvx) as [Hx Hvx'].
    set (stepX := springStep _ (st_vx st) _ _ _) in *.
    assert (Forall (fun r => rectEq r FULL_RECT)
              (update (st_store st) rect (set_x (value stepX)))) as Hstore1.
    { apply update_Forall; [|exact Hstore].
      intros r (_ & Hy' & Hw' & Hh'). unfold rectEq. simpl. auto. }
    set (store1 := update (st_store st) rect _) in *.
    (* y *)
    pose proof (deref_Forall (fun r => rectEq r FULL_RECT) store1 rect Hfull Hstore1) as (_ & Hy0 & _).
    destruct (springStep_rest _ _ (rect_y FULL_RECT) dt Hy0 Hvy) as [Hy Hvy'].
    set (stepY := springStep _ (st_vy st) _ _ _) in *.
    assert (Forall (fun r => rectEq r FULL_RECT)
              (update store1 rect (set_y (value stepY)))) as Hstore2.
    { apply update_Forall; [|exact Hstore1].
      intros r (Hx' & _ & Hw' & Hh'). unfold rectEq. simpl. auto. }
    set (store2 := update store1 rect _) in *.
    (* width *)
    pose proof (deref_Forall (fun r => rectEq r FULL_RECT) store2 rect Hfull Hstore2) as (_ & _ & Hw0 & _).
    destruct (springStep_rest _ _ (rect_width FULL_RECT) dt Hw0 Hvw) as [Hw Hvw'].
    set (stepW := springStep _ (st_vw st) _ _ _) in *.
    assert (Forall (fun r => rectEq r FULL_RECT)
              (update store2 rect (set_width (value stepW)))) as Hstore3.
    { apply update_Forall; [|exact Hstore2].
      intros r (Hx' & Hy' & _ & Hh'). unfold rectEq. simpl. auto. }
    set (store3 := update store2 rect _) in *.
    (* height *)
    pose proof (deref_Forall (fun r => rectEq r FULL_RECT) store3 rect Hfull Hstore3) as (_ & _ & _ & Hh0).
    destruct (springStep_rest _ _ (rect_height FULL_RECT) dt Hh0 Hvh) as [Hh Hvh'].
    set (stepH := springStep _ (st_vh st) _ _ _) in *.
    assert (Forall (fun r => rectEq r FULL_RECT)
              (update store3 rect (set_height (value stepH)))) as Hstore4.
    { apply update_Forall; [|exact Hstore3].
      intros r (Hx' & Hy' & Hw' & _). unfold rectEq. simpl. auto. }
    set (store4 := update store3 rect _) in *.
    unfold alloc. cbv iota beta. unfold restInv. cbn [st_store st_vx st_vy st_vw st_vh st_previousTs].
    split.
    { apply Forall_app. split; [exact Hstore4|]. constructor; [|constructor].
      apply normalizeRect_rest.
      apply (deref_Forall (fun r => rectEq r FULL_RECT)); assumption. }
    repeat (split; [assumption|]). lra.
Qed.

(** While no zoom segment is active before the end of the recording, the
    camera never leaves the full frame: the track is returned and every
    sample of it, aliased or not, equals [FULL_RECT] field by field. *)
Theorem buildSpringCameraTrack_rest (runtimeSegments : list RuntimeSegment)
    (durationMs fps : Q) :
  (forall ts, 0 <= ts < durationMs -> resolveRuntimeSegment runtimeSegments ts = None) ->
  exists track,
    buildSpringCameraTrack runtimeSegments durationMs fps = Some track /\
    forall s, In s track -> rectEq (sample_rect s) FULL_RECT.
Proof.
  intro Hnone. destruct (Qlt_le_dec 0 durationMs) as [Hpos|Hneg].
  - destruct (buildSpringCameraTrack_run runtimeSegments durationMs fps Hpos)
      as (st' & Hbuild & Hrun & _ & _).
    apply (trackLoop_invariant restInv) in Hrun.
    + exists (readSamples (st_store st') (st_samples st')). split; [exact Hbuild|].
      intros s Hs. unfold readSamples in Hs. apply in_map_iff in Hs.
      destruct Hs as (cell & <- & _). simpl.
      apply (deref_Forall (fun r => rectEq r FULL_RECT)); [apply FULL_RECT_rest | apply Hrun].
    + intros st. apply trackStep_restInv, Hnone.
    + unfold restInv. simpl.
      split; [repeat constructor; apply FULL_RECT_rest|].
      repeat split; try reflexivity. discriminate.
  - exists [mkSample 0 FULL_RECT]. split.
    + unfold buildSpringCameraTrack.
      assert (Qleb durationMs 0 = true) as -> by (apply Qleb_true; exact Hneg).
      reflexivity.
    + intros s [<-|[]]. apply FULL_RECT_rest.
Qed.

(** A project without zoom segments. *)
Lemma buildSpringCameraTrack_rest_witness :
  exists track,
    buildSpringCameraTrack [] 50 PREVIEW_SPRING_FPS = Some track /\
    forall s, In s track -> rectEq (sample_rect s) FULL_RECT.
Proof.
  apply (buildSpringCameraTrack_rest [] 50 PREVIEW_SPRING_FPS).
  intros ts _. reflexivity.
Defined.

(** ** Sampling the camera track *)

(** Without any order on the array the loop still stays inside it. *)
Lemma searchExact_range {A : Type} (key : A -> Q) (d : A) (items : list A) (ts : Q) :
  forall fuel low high r,
    searchExact key d fuel items ts low high = Some r ->
    match r with
    | Found mid => (low <= mid <= high)%Z /\ key (nth (Z.to_nat mid) items d) == ts
    | NotFound l => (low <= high + 1)%Z -> (low <= l <= high + 1)%Z
    end.
Proof.
  induction fuel as [|fuel IH]; intros low high r Hrun; simpl in Hrun.
  - destruct (high <? low)%Z eqn:Hcmp; [|discriminate].
    injection Hrun as <-. apply Z.ltb_lt in Hcmp. lia.
  - destruct (high <? low)%Z eqn:Hcmp.
    + injection Hrun as <-. apply Z.ltb_lt in Hcmp. lia.
    + apply Z.ltb_ge in Hcmp. pose proof (midpoint_between low high Hcmp) as Hmid.
      destruct (Qeq_bool _ ts) eqn:Heq.
      * injection Hrun as <-. apply Qeq_bool_iff in Heq. split; [lia | exact Heq].
      * destruct (Qltb _ ts); apply IH in Hrun; destruct r; lia || (intuition lia).
Qed.

(** When the last item is later than [ts], the final [low] is an index
    of the array, ordered or not: [items[low]] is never read out of range. *)
Lemma searchExact_below_last {A : Type} (key : A -> Q) (d : A) (items : list A) (ts : Q) :
  ts < key (nth (length items - 1) items d) ->
  forall fuel low high l,
    (0 <= low <= Z.of_nat (length items) - 1)%Z ->
    (high <= Z.of_nat (length items) - 1)%Z ->
    searchExact key d fuel items ts low high = Some (NotFound l) ->
    (0 <= l <= Z.of_nat (length items) - 1)%Z.
Proof.
  intro Hlast.
  induction fuel as [|fuel IH]; intros low high l Hlow Hhigh Hrun; simpl in Hrun.
  - destruct (high <? low)%Z; [|discriminate]. injection Hrun as <-. exact Hlow.
  - destruct (high <? low)%Z eqn:Hcmp; [injection Hrun as <-; exact Hlow|].
    apply Z.ltb_ge in Hcmp. pose proof (midpoint_between low high Hcmp) as Hmid.
    destruct (Qeq_bool _ ts); [discriminate|].
    destruct (Qltb _ ts) eqn:Hlt.
    + apply Qltb_true in Hlt.
      assert ((low + high) / 2 <> Z.of_nat (length items) - 1)%Z as Hne.
      { intro Heq. rewrite Heq in Hlt.
        replace (Z.to_nat (Z.of_nat (length items) - 1)) with (length items - 1)%nat
          in Hlt by lia.
        lra. }
      apply IH in Hrun; [exact Hrun | lia | exact Hhigh].
    + apply IH in Hrun; [exact Hrun | exact Hlow | lia].
Qed.

(** Strictly between two neighbours of a time-ordered array the loop
    ends at the later one. *)
Lemma searchExact_between {A : Type} (key : A -> Q) (d : A) (items : list A) (ts : Q)
    (i : nat) :
  Sorted (keyLe key) items ->
  (S i < length items)%nat ->
  key (nth i items d) < ts < key (nth (S i) items d) ->
  searchExact key d (length items) items ts 0 (Z.of_nat (length items) - 1)
  = Some (NotFound (Z.of_nat (S i))).
Proof.
  intros HS Hi [Hlo Hhi].
  pose proof (Sorted_keyLe_nth key d items HS) as Hsorted.
  destruct (searchExact_sorted key d items ts HS (length items) 0
              (Z.of_nat (length items) - 1)) as (r & Hr & Hspec);
    try lia; try (intros j Hj; lia).
  rewrite Hr. destruct r as [mid|l].
  - exfalso. destruct Hspec as [Hmid Heq].
    destruct (Z_le_gt_dec mid (Z.of_nat i)) as [Hle|Hgt].
    + specialize (Hsorted (Z.to_nat mid) i ltac:(lia)). lra.
    + specialize (Hsorted (S i) (Z.to_nat mid) ltac:(lia)). lra.
  - destruct Hspec as (Hl & Hbelow & Habove).
    assert (l = Z.of_nat (S i)) as ->; [|reflexivity].
    destruct (Z_lt_le_dec (Z.of_nat i) l) as [H1|H1].
    + destruct (Z_le_gt_dec l (Z.of_nat (S i))) as [H2|H2]; [lia|].
      specialize (Hbelow (Z.of_nat (S i)) ltac:(lia)).
      rewrite Nat2Z.id in Hbelow. lra.
    + specialize (Habove (Z.of_nat i) ltac:(lia)).
      rewrite Nat2Z.id in Habove. lra.
Qed.

Lemma sampleCameraTrack_cases (first : SpringCameraSample)
    (rest : list SpringCameraSample) (ts : Q) :
  let track := first :: rest in
  exists r,
    sampleCameraTrack track ts = Some r /\
    ((ts <= sample_ts first /\ r = sample_rect first) \/
     (sample_ts first < ts /\ sample_ts (last track first) <= ts /\
      r = sample_rect (last track first)) \/
     (sample_ts first < ts < sample_ts (last track first) /\
      ((exists s, In s track /\ sample_ts s == ts /\ r = sample_rect s) \/
       exists raw, r = normalizeRect raw))).
Proof.
  intro track. unfold sampleCameraTrack, track. cbv iota. fold track.
  destruct (Qleb ts (sample_ts first)) eqn:Hbefore.
  { apply Qleb_true in Hbefore. exists (sample_rect first). auto. }
  apply Qleb_false in Hbefore. cbv zeta.
  destruct (Qleb (sample_ts (last track first)) ts) eqn:Hafter.
  { apply Qleb_true in Hafter. exists (sample_rect (last track first)). auto 6. }
  apply Qleb_false in Hafter.
  destruct (searchExact_total sample_ts first track ts (length track) 0
              (Z.of_nat (length track) - 1)) as [r Hr]; [lia|].
  rewrite Hr. apply searchExact_range in Hr. destruct r as [mid|l].
  - destruct Hr as [Hmid Heq]. eexists. split; [reflexivity|].
    right. right. split; [split; assumption|]. left.
    exists (nth (Z.to_nat mid) track first).
    split; [apply nth_In; lia|]. split; [exact Heq | reflexivity].
  - eexists. split; [reflexivity|]. right. right. split; [split; assumption|].
    right. eexists. reflexivity.
Qed.

Lemma nth_middle_pair {A : Type} (pre post : list A) (prev next d : A) :
  nth (length pre) (pre ++ prev :: next :: post) d = prev /\
  nth (S (length pre)) (pre ++ prev :: next :: post) d = next.
Proof.
  split.
  - rewrite app_nth2, Nat.sub_diag by lia. reflexivity.
  - rewrite app_nth2 by lia.
    replace (S (length pre) - length pre)%nat with 1%nat by lia. reflexivity.
Qed.

(** The search between two neighbours [prev] and [next] of a
    time-ordered array [first :: rest]: both edge tests fail and the loop
    ends at [next]. *)
Lemma between_neighbours {A : Type} (key : A -> Q) (first : A) (rest pre post : list A)
    (prev next : A) (ts : Q) :
  first :: rest = pre ++ prev :: next :: post ->
  Sorted (keyLe key) (first :: rest) ->
  key prev < ts < key next ->
  key first < ts /\ ts < key (last (first :: rest) first) /\
  searchExact key first (length (first :: rest)) (first :: rest) ts 0
    (Z.of_nat (length (first :: rest)) - 1)
  = Some (NotFound (Z.of_nat (S (length pre)))) /\
  nth (length pre) (first :: rest) first = prev /\
  nth (S (length pre)) (first :: rest) first = next.
Proof.
  intros Hsplit HS [Hlo Hhi].
  pose proof (Sorted_keyLe_nth key first _ HS) as Hsorted.
  destruct (nth_middle_pair pre post prev next first) as [Hprev Hnext].
  rewrite <- Hsplit in Hprev, Hnext.
  assert (S (length pre) < length (first :: rest))%nat as Hlen.
  { rewrite Hsplit, length_app. simpl. lia. }
  split.
  { specialize (Hsorted 0%nat (length pre) ltac:(lia)).
    rewrite Hprev in Hsorted. simpl in Hsorted. lra. }
  split.
  { specialize (Hsorted (S (length pre)) (length (first :: rest) - 1)%nat ltac:(lia)).
    rewrite Hnext, nth_last_index in Hsorted by discriminate. lra. }
  split; [|split; assumption].
  apply searchExact_between; [exact HS | exact Hlen |].
  rewrite Hprev, Hnext. split; assumption.
Qed.

(** [sampleCameraTrack] always returns a rect: [FULL_RECT] for an empty
    track, and a rect inside the frame whenever the rects of the samples are.
    Strictly between two neighbouring samples of a time-ordered track it is
    the normalized linear interpolation of their rects, over a span of at
    least 1 ms. *)
Theorem sampleCameraTrack_interpolates (track : list SpringCameraSample) (ts : Q) :
  (exists r, sampleCameraTrack track ts = Some r) /\
  sampleCameraTrack [] ts = Some FULL_RECT /\
  ((forall s, In s track -> rectInFrame (sample_rect s)) ->
   exists r, sampleCameraTrack track ts = Some r /\ rectInFrame r) /\
  (forall pre prev next post,
     track = pre ++ prev :: next :: post ->
     Sorted (keyLe sample_ts) track ->
     sample_ts prev < ts < sample_ts next ->
     sampleCameraTrack track ts
     = Some (normalizeRect
               (lerpRect (sample_rect prev) (sample_rect next)
                  ((ts - sample_ts prev)
                   / Qmax 1 (sample_ts next - sample_ts prev))))).
Proof.
  split; [|split; [reflexivity|split]].
  - destruct track as [|first rest]; [exists FULL_RECT; reflexivity|].
    destruct (sampleCameraTrack_cases first rest ts) as (r & Hr & _). eauto.
  - intro Hall. destruct track as [|first rest].
    { exists FULL_RECT. split; [reflexivity | apply FULL_RECT_inFrame]. }
    destruct (sampleCameraTrack_cases first rest ts)
      as (r & Hr & [[_ ->]|[(_ & _ & ->)|(_ & [(s & Hs & _ & ->)|(raw & ->)])]]);
      exists r || eexists; (split; [eassumption|]); try assumption.
    + apply Hall. left. reflexivity.
    + apply Hall, last_In. discriminate.
    + apply Hall, Hs.
    + apply normalizeRect_inFrame.
  - intros pre prev next post Hsplit HS Hbetween.
    destruct track as [|first rest]; [destruct pre; discriminate|].
    destruct (between_neighbours sample_ts first rest pre post prev next ts
                Hsplit HS Hbetween) as (Hfirst & Hlast & Hsearch & Hprev & Hnext).
    unfold sampleCameraTrack.
    assert (Qleb ts (sample_ts first) = false) as -> by (apply Qleb_false; exact Hfirst).
    cbv zeta.
    assert (Qleb (sample_ts (last (first :: rest) first)) ts = false) as ->
        by (apply Qleb_false; exact Hlast).
    rewrite Hsearch.
    replace (Z.max 0 (Z.of_nat (S (length pre)) - 1)) with (Z.of_nat (length pre)) by lia.
    rewrite !Nat2Z.id, Hprev, Hnext. reflexivity.
Qed.

(** Half way between two samples 100 ms apart. *)
Lemma sampleCameraTrack_interpolates_witness :
  sampleCameraTrack [mkSample 0 FULL_RECT; mkSample 100 (mkRect 0.2 0.2 0.5 0.5)] 50
  = Some (normalizeRect
            (lerpRect FULL_RECT (mkRect 0.2 0.2 0.5 0.5) ((50 - 0) / Qmax 1 (100 - 0)))).
Proof.
  apply (proj2 (proj2 (proj2 (sampleCameraTrack_interpolates
           [mkSample 0 FULL_RECT; mkSample 100 (mkRect 0.2 0.2 0.5 0.5)] 50)))
           [] (mkSample 0 FULL_RECT) (mkSample 100 (mkRect 0.2 0.2 0.5 0.5)) []).
  - reflexivity.
  - repeat constructor. unfold keyLe. simpl. discriminate.
  - split; reflexivity.
Defined.

(** Strictly between two neighbouring samples of a time-ordered list the
    cursor is their linear interpolation. *)
Theorem interpolateCursor_linear (samples pre post : list CursorSample)
    (prev next : CursorSample) (ts : Q) :
  samples = pre ++ prev :: next :: post ->
  Sorted (keyLe cs_ts) samples ->
  cs_ts prev < ts < cs_ts next ->
  interpolateCursor samples ts
  = Some (cs_x prev + (cs_x next - cs_x prev) * ((ts - cs_ts prev) / (cs_ts next - cs_ts prev)),
          cs_y prev + (cs_y next - cs_y prev) * ((ts - cs_ts prev) / (cs_ts next - cs_ts prev))).
Proof.
  intros Hsplit HS Hbetween.
  destruct samples as [|first rest]; [destruct pre; discriminate|].
  destruct (between_neighbours cs_ts first rest pre post prev next ts
              Hsplit HS Hbetween) as (Hfirst & Hlast & Hsearch & Hprev & Hnext).
  unfold interpolateCursor.
  assert (Qleb ts (cs_ts first) = false) as -> by (apply Qleb_false; exact Hfirst).
  cbv zeta.
  assert (Qleb (cs_ts (last (first :: rest) first)) ts = false) as ->
      by (apply Qleb_false; exact Hlast).
  rewrite Hsearch.
  replace (Z.max 0 (Z.of_nat (S (length pre)) - 1)) with (Z.of_nat (length pre)) by lia.
  rewrite !Nat2Z.id, Hprev, Hnext.
  assert (Qleb (cs_ts next - cs_ts prev) 0 = false) as -> by (apply Qleb_false; lra).
  reflexivity.
Qed.

Lemma interpolateCursor_linear_witness :
  interpolateCursor [mkCursorSample 0 0.2 0.4; mkCursorSample 100 0.6 0.8] 25
  = Some (0.2 + (0.6 - 0.2) * ((25 - 0) / (100 - 0)),
          0.4 + (0.8 - 0.4) * ((25 - 0) / (100 - 0))).
Proof.
  apply (interpolateCursor_linear
           [mkCursorSample 0 0.2 0.4; mkCursorSample 100 0.6 0.8] [] []
           (mkCursorSample 0 0.2 0.4) (mkCursorSample 100 0.6 0.8) 25).
  - reflexivity.
  - repeat constructor. unfold keyLe. simpl. discriminate.
  - split; reflexivity.
Defined.

(** The previewed camera and the aliasing of the track.  Sampling the
    track built for a positive duration always returns a rect.  It is
    [FULL_RECT] up to time 0; from [durationMs] on, and at every time that is
    not exactly the time of a sample, it is a rect as [normalizeRect]
    returned it.  Only an exact hit of a sample time returns a stored sample
    rect as it is. *)
Theorem sampleCameraTrack_of_built_track (runtimeSegments : list RuntimeSegment)
    (durationMs fps ts : Q) :
  0 < durationMs ->
  exists track r,
    buildSpringCameraTrack runtimeSegments durationMs fps = Some track /\
    sampleCameraTrack track ts = Some r /\
    (ts <= 0 -> r = FULL_RECT) /\
    (durationMs <= ts -> exists raw, r = normalizeRect raw) /\
    ((forall s, In s track -> ~ sample_ts s == ts) -> exists raw, r = normalizeRect raw).
Proof.
  intro Hpos.
  destruct (buildSpringCameraTrack_shape runtimeSegments durationMs fps Hpos)
    as (first & rest & Hbuild & -> & Hne & Hts & Hrectin).
  exists (mkSample 0 FULL_RECT :: rest).
  assert (last (mkSample 0 FULL_RECT :: rest) (mkSample 0 FULL_RECT)
          = last rest (mkSample 0 FULL_RECT)) as Hlast
      by (destruct rest; [contradiction | reflexivity]).
  assert (exists raw, FULL_RECT = normalizeRect raw) as Hfull
      by (exists FULL_RECT; vm_compute; reflexivity).
  destruct (sampleCameraTrack_cases (mkSample 0 FULL_RECT) rest ts) as (r & Hr & Hcases).
  exists r. split; [exact Hbuild|]. split; [exact Hr|].
  rewrite Hlast in Hcases. simpl sample_ts in Hcases. simpl sample_rect in Hcases.
  destruct Hcases as [[H1 ->]|[(H1 & H2 & ->)|((H1 & H2) & [(s & Hs' & Heq & ->)|Hframe])]].
  - split; [reflexivity|]. split; intros; exact Hfull.
  - split; [intro; lra|]. split; intros; exact Hrectin.
  - split; [intro; lra|]. split; [intro; lra|].
    intro Hno. destruct (Hno s Hs' Heq).
  - split; [intro; lra|]. split; intros; exact Hframe.
Qed.

(** The preview of a one-second recording, sampled after its end. *)
Lemma sampleCameraTrack_of_built_track_witness :
  exists track r,
    buildSpringCameraTrack [stiffSegment] 1000 24 = Some track /\
    sampleCameraTrack track 1200 = Some r /\
    (1200 <= 0 -> r = FULL_RECT) /\
    (1000 <= 1200 -> exists raw, r = normalizeRect raw) /\
    ((forall s, In s track -> ~ sample_ts s == 1200) -> exists raw, r = normalizeRect raw).
Proof.
  apply (sampleCameraTrack_of_built_track [stiffSegment] 1000 24 1200). reflexivity.
Defined.

(** ** Track indices around a time *)

(** [findTrackIndexAtOrAfter] on a time-ordered track returns the index
    of the first sample at or after [ts], and the last index when every
    sample is earlier; on an empty track it returns -1. *)
Theorem findTrackIndexAtOrAfter_first (track : list SpringCameraSample) (ts : Q)
    (d : SpringCameraSample) :
  findTrackIndexAtOrAfter [] ts = Some (-1)%Z /\
  (Sorted (keyLe sample_ts) track -> track <> [] ->
   exists i,
     findTrackIndexAtOrAfter track ts = Some (Z.of_nat i) /\
     (i < length track)%nat /\
     (forall j, (j < i)%nat -> sample_ts (nth j track d) < ts) /\
     (ts <= sample_ts (last track d) -> ts <= sample_ts (nth i track d)) /\
     (sample_ts (last track d) < ts -> i = (length track - 1)%nat)).
Proof.
  split; [reflexivity|]. intros HS Hne.
  destruct track as [|first rest]; [contradiction|].
  set (track := first :: rest) in *.
  assert (0 < length track)%nat as Hlen by (unfold track; simpl; lia).
  assert (forall j, (j < length track)%nat -> nth j track d = nth j track first) as Hd
      by (intros j Hj; apply nth_indep, Hj).
  assert (last track d = last track first) as Hlastd.
  { rewrite <- !nth_last_index by exact Hne. apply Hd. lia. }
  rewrite Hlastd.
  pose proof (Sorted_keyLe_nth sample_ts first track HS) as Hsorted.
  assert (nth 0 track first = first) as H0 by reflexivity.
  change (findTrackIndexAtOrAfter track ts)
    with (if Qleb ts (sample_ts first) then Some 0%Z
          else match searchBoundary (fun s => Qltb (sample_ts s) ts) first (length track)
                       track 0 (Z.of_nat (length track) - 1) with
               | None => None
               | Some (low, _) => Some (Z.min low (Z.of_nat (length track) - 1))
               end).
  destruct (Qleb ts (sample_ts first)) eqn:Hbefore.
  - apply Qleb_true in Hbefore. exists 0%nat. split; [reflexivity|].
    split; [exact Hlen|]. split; [intros j Hj; lia|].
    rewrite Hd, H0 by exact Hlen. split; [auto|].
    intro Hlate. specialize (Hsorted 0%nat (length track - 1)%nat ltac:(lia)).
    rewrite nth_last_index, H0 in Hsorted by exact Hne. lra.
  - apply Qleb_false in Hbefore.
    destruct (searchBoundary_spec first (fun s => Qltb (sample_ts s) ts) track)
      with (fuel := length track) (low := 0%Z) (high := (Z.of_nat (length track) - 1)%Z)
      as (l & Hrun & Hl & Hbelow & Habove); try lia; try (intros j Hj; lia).
    { intros i j Hij Hj. apply Qltb_true in Hj. apply Qltb_true.
      specialize (Hsorted i j Hij). lra. }
    rewrite Hrun.
    assert (1 <= l)%Z as Hl1.
    { destruct (Z_le_gt_dec 1 l) as [|Hgt]; [assumption|].
      specialize (Habove 0%Z ltac:(lia)). simpl in Habove. try rewrite H0 in Habove.
      apply Qltb_false in Habove. lra. }
    exists (Z.to_nat (Z.min l (Z.of_nat (length track) - 1))).
    split; [f_equal; lia|]. split; [lia|].
    split.
    { intros j Hj. rewrite Hd by lia.
      specialize (Hbelow (Z.of_nat j) ltac:(lia)). rewrite Nat2Z.id in Hbelow.
      apply Qltb_true in Hbelow. exact Hbelow. }
    destruct (Z_le_gt_dec l (Z.of_nat (length track) - 1)) as [Hin|Hout].
    + replace (Z.min l (Z.of_nat (length track) - 1)) with l by lia.
      specialize (Habove l ltac:(lia)). apply Qltb_false in Habove.
      split; [intros _; rewrite Hd by lia; exact Habove|].
      intro Hlate.
      specialize (Hsorted (Z.to_nat l) (length track - 1)%nat ltac:(lia)).
      rewrite nth_last_index in Hsorted by exact Hne. lra.
    + replace (Z.min l (Z.of_nat (length track) - 1))
        with (Z.of_nat (length track) - 1)%Z by lia.
      split; [|intros _; lia].
      intro Hearly.
      specialize (Hbelow (Z.of_nat (length track) - 1)%Z ltac:(lia)).
      replace (Z.to_nat (Z.of_nat (length track) - 1)) with (length track - 1)%nat
        in Hbelow by lia.
      rewrite nth_last_index in Hbelow by exact Hne.
      apply Qltb_true in Hbelow. lra.
Qed.

Lemma findTrackIndexAtOrAfter_first_witness :
  let track := [mkSample 0 FULL_RECT; mkSample 17 FULL_RECT; mkSample 33 FULL_RECT] in
  let d := mkSample 0 FULL_RECT in
  exists i,
     findTrackIndexAtOrAfter track 20 = Some (Z.of_nat i) /\
     (i < length track)%nat /\
     (forall j, (j < i)%nat -> sample_ts (nth j track d) < 20) /\
     (20 <= sample_ts (last track d) -> 20 <= sample_ts (nth i track d)) /\
     (sample_ts (last track d) < 20 -> i = (length track - 1)%nat).
Proof.
  intros track d. apply (proj2 (findTrackIndexAtOrAfter_first track 20 d)).
  - repeat constructor; unfold keyLe; simpl; discriminate.
  - discriminate.
Defined.

(** [findTrackIndexAtOrBefore] on a time-ordered track returns the index
    of the last sample at or before [ts], and 0 when every sample is later;
    on an empty track it returns -1. *)
Theorem findTrackIndexAtOrBefore_last (track : list SpringCameraSample) (ts : Q)
    (d : SpringCameraSample) :
  findTrackIndexAtOrBefore [] ts = Some (-1)%Z /\
  (Sorted (keyLe sample_ts) track -> track <> [] ->
   exists i,
     findTrackIndexAtOrBefore track ts = Some (Z.of_nat i) /\
     (i < length track)%nat /\
     (forall j, (i < j < length track)%nat -> ts < sample_ts (nth j track d)) /\
     (sample_ts (nth 0 track d) <= ts -> sample_ts (nth i track d) <= ts) /\
     (ts < sample_ts (nth 0 track d) -> i = 0%nat)).
Proof.
  split; [reflexivity|]. intros HS Hne.
  destruct track as [|first rest]; [contradiction|].
  set (track := first :: rest) in *.
  assert (0 < length track)%nat as Hlen by (unfold track; simpl; lia).
  assert (forall j, (j < length track)%nat -> nth j track d = nth j track first) as Hd
      by (intros j Hj; apply nth_indep, Hj).
  pose proof (Sorted_keyLe_nth sample_ts first track HS) as Hsorted.
  rewrite (Hd 0%nat Hlen).
  change (findTrackIndexAtOrBefore track ts)
    with (if Qleb (sample_ts (last track first)) ts
          then Some (Z.of_nat (length track) - 1)%Z
          else match searchBoundary (fun s => Qleb (sample_ts s) ts) first (length track)
                       track 0 (Z.of_nat (length track) - 1) with
               | None => None
               | Some (_, high) => Some (Z.max 0 high)
               end).
  destruct (Qleb (sample_ts (last track first)) ts) eqn:Hafter.
  - apply Qleb_true in Hafter. exists (length track - 1)%nat.
    split; [f_equal; lia|]. split; [lia|]. split; [intros j Hj; lia|].
    rewrite Hd, nth_last_index by (exact Hne || lia).
    split; [auto|]. intro Hearly.
    specialize (Hsorted 0%nat (length track - 1)%nat ltac:(lia)).
    rewrite nth_last_index in Hsorted by exact Hne. lra.
  - apply Qleb_false in Hafter.
    destruct (searchBoundary_spec first (fun s => Qleb (sample_ts s) ts) track)
      with (fuel := length track) (low := 0%Z) (high := (Z.of_nat (length track) - 1)%Z)
      as (l & Hrun & Hl & Hbelow & Habove); try lia; try (intros j Hj; lia).
    { intros i j Hij Hj. apply Qleb_true in Hj. apply Qleb_true.
      specialize (Hsorted i j Hij). lra. }
    rewrite Hrun.
    assert (l <= Z.of_nat (length track) - 1)%Z as Hl1.
    { destruct (Z_le_gt_dec l (Z.of_nat (length track) - 1)) as [|Hgt]; [assumption|].
      specialize (Hbelow (Z.of_nat (length track) - 1)%Z ltac:(lia)).
      replace (Z.to_nat (Z.of_nat (length track) - 1)) with (length track - 1)%nat
        in Hbelow by lia.
      rewrite nth_last_index in Hbelow by exact Hne.
      apply Qleb_true in Hbelow. lra. }
    exists (Z.to_nat (Z.max 0 (l - 1))).
    split; [f_equal; lia|]. split; [lia|].
    split.
    { intros j Hj. rewrite Hd by lia.
      specialize (Habove (Z.of_nat j) ltac:(lia)). rewrite Nat2Z.id in Habove.
      apply Qleb_false in Habove. exact Habove. }
    destruct (Z_le_gt_dec 1 l) as [Hin|Hout].
    + replace (Z.max 0 (l - 1)) with (l - 1)%Z by lia.
      specialize (Hbelow (l - 1)%Z ltac:(lia)). apply Qleb_true in Hbelow.
      split; [intros _; rewrite Hd by lia; exact Hbelow|].
      intro Hearly.
      specialize (Hsorted 0%nat (Z.to_nat (l - 1)) ltac:(lia)). lra.
    + replace (Z.max 0 (l - 1)) with 0%Z by lia.
      split; [|intros _; reflexivity].
      intro Hlate. specialize (Habove 0%Z ltac:(lia)). apply Qleb_false in Habove.
      simpl in Habove, Hlate. lra.
Qed.

Lemma findTrackIndexAtOrBefore_last_witness :
  let track := [mkSample 0 FULL_RECT; mkSample 17 FULL_RECT; mkSample 33 FULL_RECT] in
  let d := mkSample 0 FULL_RECT in
  exists i,
     findTrackIndexAtOrBefore track 20 = Some (Z.of_nat i) /\
     (i < length track)%nat /\
     (forall j, (i < j < length track)%nat -> 20 < sample_ts (nth j track d)) /\
     (sample_ts (nth 0 track d) <= 20 -> sample_ts (nth i track d) <= 20) /\
     (20 < sample_ts (nth 0 track d) -> i = 0%nat).
Proof.
  intros track d. apply (proj2 (findTrackIndexAtOrBefore_last track 20 d)).
  - repeat constructor; unfold keyLe; simpl; discriminate.
  - discriminate.
Defined.

(** ** The slot offered to a new segment *)

Lemma scanGaps_bounds (safeDuration : Q) (sorted : list ZoomSegment) :
  forall (cursor : Q) (gaps : list Gap),
    0 <= safeDuration -> 0 <= cursor ->
    (forall gap, In gap gaps -> 0 <= gap_start gap /\ gap_end gap <= safeDuration) ->
    0 <= fst (scanGaps sorted safeDuration cursor gaps) /\
    (forall gap, In gap (snd (scanGaps sorted safeDuration cursor gaps)) ->
                 0 <= gap_start gap /\ gap_end gap <= safeDuration).
Proof.
  induction sorted as [|s rest IH]; intros cursor gaps Hdur Hcur Hgaps.
  - simpl. auto.
  - simpl scanGaps. apply IH; [exact Hdur | split_minmax; lra |].
    intros gap Hgap.
    destruct (Qltb cursor _); [|apply Hgaps, Hgap].
    destruct (Qleb MIN_SEGMENT_MS _); [|apply Hgaps, Hgap].
    apply in_app_or in Hgap. destruct Hgap as [Hgap|[<-|[]]]; [apply Hgaps, Hgap|].
    simpl. unfold MIN_SEGMENT_GAP_MS. split.
    + destruct (Qleb cursor 0); lra.
    + pose proof (clamp_bounds (startTs s) 0 safeDuration Hdur). lra.
Qed.

(** The slot inside a gap of at least [MIN_SEGMENT_MS]: the corrective
    branch is never needed. *)
Lemma slot_length (preferred gapStart gapEnd : Q) :
  MIN_SEGMENT_MS <= gapEnd - gapStart ->
  let startTs0 := clamp preferred gapStart (Qmax gapStart (gapEnd - MIN_SEGMENT_MS)) in
  let endTs0 := Qmin (startTs0 + 1600) gapEnd in
  200 <= endTs0 - startTs0 <= 1600 /\
  (gapStart <= preferred <= gapEnd - MIN_SEGMENT_MS -> startTs0 = preferred).
Proof.
  unfold MIN_SEGMENT_MS. intro Hlen. cbv zeta. split.
  - unfold clamp. split_minmax; lra.
  - intro Hin. apply clamp_inside. split_minmax; lra.
Qed.

Lemma findAvailableGapForSegment_shape (segments : list ZoomSegment)
    (timelineDurationMs preferredStartTs : Q) (slot : Slot) :
  findAvailableGapForSegment segments timelineDurationMs preferredStartTs = Some slot ->
  0 <= slot_startTs slot /\
  slot_endTs slot <= Qmax 0 timelineDurationMs /\
  200 <= slot_endTs slot - slot_startTs slot <= 1600.
Proof.
  unfold findAvailableGapForSegment.
  set (safeDuration := Qmax 0 timelineDurationMs).
  assert (0 <= safeDuration) as Hdur by (subst safeDuration; split_minmax; lra).
  destruct (Qltb safeDuration MIN_SEGMENT_MS); [discriminate|].
  pose proof (scanGaps_bounds safeDuration (sortBy startTs segments) 0 [] Hdur) as Hscan.
  destruct (scanGaps (sortBy startTs segments) safeDuration 0 []) as [cursor gaps0].
  simpl fst in Hscan. simpl snd in Hscan.
  destruct Hscan as (Hcur & Hgaps0); [lra | intros ? [] |].
  set (gaps := if Qltb cursor safeDuration then _ else gaps0).
  assert (forall gap, In gap gaps ->
                      0 <= gap_start gap /\ gap_end gap <= safeDuration) as Hgaps.
  { intros gap Hgap. subst gaps.
    destruct (Qltb cursor safeDuration); [|apply Hgaps0, Hgap].
    destruct (Qleb MIN_SEGMENT_MS _); [|apply Hgaps0, Hgap].
    apply in_app_or in Hgap. destruct Hgap as [Hgap|[<-|[]]]; [apply Hgaps0, Hgap|].
    simpl. unfold MIN_SEGMENT_GAP_MS. split; [destruct (Qleb cursor 0); lra | lra]. }
  clearbody gaps.
  set (preferred := clamp preferredStartTs 0 (safeDuration - MIN_SEGMENT_MS)).
  destruct (find _ gaps) as [gap|] eqn:Hfind; [|discriminate].
  apply find_some in Hfind. destruct Hfind as [Hin Hok].
  apply andb_true_iff in Hok. destruct Hok as [Hlen _]. apply Qleb_true in Hlen.
  destruct (Hgaps gap Hin) as [Hg0 Hg1].
  pose proof (slot_inside_gap preferred (gap_start gap) (gap_end gap)) as Hslot.
  pose proof (slot_length preferred (gap_start gap) (gap_end gap) Hlen) as Hslen.
  cbv zeta in Hslot, Hslen. destruct Hslot as ((Hs & He) & _). destruct Hslen as [Hslen _].
  set (fallbackStart := Qmax (gap_start gap) (gap_end gap - MIN_SEGMENT_MS)) in *.
  set (startTs0 := clamp preferred (gap_start gap) fallbackStart) in *.
  set (endTs0 := Qmin (startTs0 + 1600) (gap_end gap)) in *.
  assert (Qltb (endTs0 - startTs0) MIN_SEGMENT_MS = false) as ->
      by (apply Qltb_false; unfold MIN_SEGMENT_MS; lra).
  intro Hres. injection Hres as <-. cbn [slot_startTs slot_endTs].
  split; [lra|]. split; [lra | exact Hslen].
Qed.

(** On an empty timeline of at least 200 ms the slot starts at the
    preferred time, moved into [[0, duration - 200]], and lasts up to 1.6 s. *)
Lemma findAvailableGapForSegment_empty (timelineDurationMs preferredStartTs : Q) :
  200 <= timelineDurationMs ->
  let start := clamp preferredStartTs 0 (timelineDurationMs - 200) in
  findAvailableGapForSegment [] timelineDurationMs preferredStartTs
  = Some (mkSlot start (Qmin (start + 1600) timelineDurationMs)).
Proof.
  intro Hdur. cbv zeta. unfold findAvailableGapForSegment.
  assert (Qmax 0 timelineDurationMs = timelineDurationMs) as ->.
  { destruct (Qmax_case_eq 0 timelineDurationMs) as [[_ E]|[H _]];
      [exact E | exfalso; lra]. }
  unfold MIN_SEGMENT_MS, MIN_SEGMENT_GAP_MS.
  assert (Qltb timelineDurationMs 200 = false) as -> by (apply Qltb_false; lra).
  simpl sortBy. simpl scanGaps. cbv iota beta.
  assert (Qltb 0 timelineDurationMs = true) as -> by (apply Qltb_true; lra).
  change (Qleb 0 0) with true. cbv iota.
  assert (Qleb 200 (timelineDurationMs - 0) = true) as -> by (apply Qleb_true; lra).
  simpl app.
  set (preferred := clamp preferredStartTs 0 (timelineDurationMs - 200)).
  assert (0 <= preferred <= timelineDurationMs - 200) as Hpref
      by (apply clamp_bounds; lra).
  simpl find. cbn [gap_start gap_end].
  assert (Qleb 200 (timelineDurationMs - 0) = true) as -> by (apply Qleb_true; lra).
  assert (Qltb preferred timelineDurationMs = true) as -> by (apply Qltb_true; lra).
  simpl andb. cbv iota. cbn [gap_start gap_end].
  rewrite (clamp_inside preferred 0 (Qmax 0 (timelineDurationMs - 200)))
    by (split_minmax; lra).
  assert (Qltb (Qmin (preferred + 1600) timelineDurationMs - preferred) 200 = false) as ->.
  { apply Qltb_false. split_minmax; lra. }
  reflexivity.
Qed.

(** A slot returned by the gap search lies inside the timeline, lasts
    between 200 ms and 1.6 s, and keeps 200 ms away from every segment
    (except that it may start right at a segment that ends at time 0).  On an
    empty timeline of at least 200 ms the search succeeds, at the preferred
    start moved into [[0, duration - 200]]. *)
Theorem findAvailableGapForSegment_slot (segments : list ZoomSegment)
    (timelineDurationMs preferredStartTs : Q) :
  (forall slot,
     findAvailableGapForSegment segments timelineDurationMs preferredStartTs = Some slot ->
     0 <= slot_startTs slot /\
     slot_endTs slot <= timelineDurationMs /\
     200 <= slot_endTs slot - slot_startTs slot <= 1600 /\
     forall seg, In seg segments ->
       slot_endTs slot + 200 <= startTs seg \/
       (endTs seg <= slot_startTs slot /\
        (0 < endTs seg -> endTs seg + 200 <= slot_startTs slot))) /\
  (200 <= timelineDurationMs ->
   findAvailableGapForSegment [] timelineDurationMs preferredStartTs
   = Some (mkSlot (clamp preferredStartTs 0 (timelineDurationMs - 200))
             (Qmin (clamp preferredStartTs 0 (timelineDurationMs - 200) + 1600)
                   timelineDurationMs))).
Proof.
  split; [|apply findAvailableGapForSegment_empty].
  intros slot Hres.
  destruct (findAvailableGapForSegment_shape _ _ _ _ Hres) as (H0 & Hend & Hlen).
  split; [exact H0|]. split.
  - revert Hend. split_minmax; lra.
  - split; [exact Hlen|]. apply (findAvailableGapForSegment_clear _ _ _ _ Hres).
Qed.

(** The slot offered at 3.4 s on the test timeline: the free second
    between the two segments is too short once the 200 ms margins are taken,
    so the slot follows the last segment. *)
Lemma findAvailableGapForSegment_slot_witness :
  exists slot,
    findAvailableGapForSegment demoTimeline 10000 3400 = Some slot /\
    0 <= slot_startTs slot /\
    slot_endTs slot <= 10000 /\
    200 <= slot_endTs slot - slot_startTs slot <= 1600.
Proof.
  destruct (findAvailableGapForSegment demoTimeline 10000 3400) as [slot|] eqn:Hres;
    [|vm_compute in Hres; discriminate].
  exists slot. split; [reflexivity|].
  destruct (proj1 (findAvailableGapForSegment_slot demoTimeline 10000 3400) slot Hres)
    as (H0 & H1 & H2 & _).
  auto.
Defined.

(** ** The canonical segment list *)

Lemma normalizeZoomSegment_idem (segment : ZoomSegment) :
  normalizeZoomSegment (normalizeZoomSegment segment) = normalizeZoomSegment segment.
Proof.
  unfold normalizeZoomSegment. simpl.
  destruct (isAuto segment); [reflexivity|].
  destruct (mode segment) as [[|]|]; reflexivity.
Qed.

(** A segment is in normal form when [normalizeZoomSegment] has nothing
    to change, which depends on its [isAuto], [mode] and [trigger] only. *)
Lemma normalizeZoomSegment_same_fields (a b : ZoomSegment) :
  isAuto b = isAuto a -> mode b = mode a -> trigger b = trigger a ->
  normalizeZoomSegment a = a -> normalizeZoomSegment b = b.
Proof.
  destruct a, b. unfold normalizeZoomSegment. simpl.
  intros -> -> -> H. injection H as Hm Ht. f_equal; assumption.
Qed.

Lemma trimAutoNoopSegment_cases (segment trimmed : ZoomSegment) :
  trimAutoNoopSegment segment = Some trimmed ->
  (isAuto segment = false /\ trimmed = segment) \/
  (isAuto segment = true /\ startTs segment <= endTs segment /\
   exists first,
     find isEffectivePoint (getSegmentTargetPoints segment) = Some first /\
     tp_ts first < endTs segment /\ trimmed = trimmedAt segment first).
Proof.
  intro Hres. destruct (isAuto segment) eqn:Hauto.
  - right. split; [reflexivity|].
    destruct (Qlt_le_dec (endTs segment) (startTs segment)) as [Hinv|Hse].
    { rewrite (trimAutoNoopSegment_invalid segment Hauto Hinv) in Hres. discriminate. }
    split; [exact Hse|].
    rewrite (trimAutoNoopSegment_compute segment Hauto Hse) in Hres.
    destruct (find isEffectivePoint (getSegmentTargetPoints segment)) as [first|];
      [|discriminate].
    destruct (Qleb (endTs segment) (tp_ts first)) eqn:Hend; [discriminate|].
    apply Qleb_false in Hend. injection Hres as <-. eauto.
  - left. split; [reflexivity|].
    unfold trimAutoNoopSegment in Hres. rewrite Hauto in Hres. simpl in Hres.
    congruence.
Qed.

(** What [sortSegments] keeps of one segment. *)
Lemma kept_fixed (segment kept : ZoomSegment) :
  trimAutoNoopSegment (normalizeZoomSegment segment) = Some kept ->
  trimAutoNoopSegment (normalizeZoomSegment kept) = Some kept.
Proof.
  intro Hres. pose proof (normalizeZoomSegment_idem segment) as Hnorm.
  destruct (trimAutoNoopSegment_cases _ _ Hres)
    as [[Hauto ->]|(Hauto & Hse & first & Hfind & Hend & ->)].
  - rewrite Hnorm. exact Hres.
  - rewrite (normalizeZoomSegment_same_fields (normalizeZoomSegment segment)
               (trimmedAt (normalizeZoomSegment segment) first));
      try reflexivity; [|exact Hnorm].
    apply trimAutoNoopSegment_trimmedAt; assumption.
Qed.

Lemma flat_map_fixed {A : Type} (f : A -> list A) (l : list A) :
  (forall a, In a l -> f a = [a]) -> flat_map f l = l.
Proof.
  induction l as [|a l IH]; intro H; simpl; [reflexivity|].
  rewrite (H a (or_introl eq_refl)), IH; [reflexivity|].
  intros b Hb. apply H. right. exact Hb.
Qed.

Lemma sortSegments_In (segments : list ZoomSegment) (s : ZoomSegment) :
  In s (sortSegments segments) <->
  exists seg, In seg segments /\
              trimAutoNoopSegment (normalizeZoomSegment seg) = Some s.
Proof.
  unfold sortSegments. rewrite sortBy_In, in_flat_map. split.
  - intros (seg & Hseg & Hs). exists seg. split; [exact Hseg|].
    destruct (trimAutoNoopSegment (normalizeZoomSegment seg)) as [t|];
      [destruct Hs as [->|[]]; reflexivity | contradiction].
  - intros (seg & Hseg & Hs). exists seg. split; [exact Hseg|].
    rewrite Hs. left. reflexivity.
Qed.

(** [sortSegments] returns the segments in start order, and only
    segments it would keep as they are: sorting its own output changes
    nothing.  Its members are the normalized segments after trimming; every
    manual segment is kept, and every auto segment it keeps has a positive
    length. *)
Theorem sortSegments_canonical (segments : list ZoomSegment) :
  Sorted (keyLe startTs) (sortSegments segments) /\
  sortSegments (sortSegments segments) = sortSegments segments /\
  (forall s, In s (sortSegments segments) <->
             exists seg, In seg segments /\
                         trimAutoNoopSegment (normalizeZoomSegment seg) = Some s) /\
  (forall seg, In seg segments -> isAuto seg = false ->
               In (normalizeZoomSegment seg) (sortSegments segments)) /\
  (forall s, In s (sortSegments segments) -> isAuto s = true -> startTs s < endTs s).
Proof.
  split; [apply sortBy_sorted|]. split; [|split; [apply sortSegments_In|split]].
  - unfold sortSegments at 1.
    rewrite flat_map_fixed.
    + apply sortBy_sorted_id. apply sortBy_sorted.
    + intros s Hs. apply sortSegments_In in Hs. destruct Hs as (seg & _ & Hs).
      rewrite (kept_fixed seg s Hs). reflexivity.
  - intros seg Hseg Hauto. apply sortSegments_In. exists seg. split; [exact Hseg|].
    unfold trimAutoNoopSegment. simpl. rewrite Hauto. reflexivity.
  - intros s Hs Hauto. apply sortSegments_In in Hs. destruct Hs as (seg & _ & Hs).
    destruct (trimAutoNoopSegment_cases _ _ Hs)
      as [[Hf ->]|(_ & _ & first & _ & Hend & ->)].
    + congruence.
    + simpl. exact Hend.
Qed.

(** The test timeline: the manual segment [a] is kept, normalized. *)
Lemma sortSegments_canonical_witness :
  In (normalizeZoomSegment (manualSegment "a" 1000 3000)) (sortSegments demoTimeline).
Proof.
  apply (proj1 (proj2 (proj2 (proj2 (sortSegments_canonical demoTimeline))))).
  - right. left. reflexivity.
  - reflexivity.
Defined.

(** ** Target points *)

Lemma getSegmentTargetPoints_head (segment : ZoomSegment) (d : TargetPoint) :
  tp_ts (hd d (getSegmentTargetPoints segment)) <= startTs segment.
Proof.
  unfold getSegmentTargetPoints.
  set (S := startTs segment). set (E := endTs segment).
  destruct (sortBy tp_ts (map _ (targetPoints segment))) as [|first erest] eqn:Hexp.
  - destruct (getSortedPanTrajectory segment) as [|k ks] eqn:Hpan.
    + simpl. lra.
    + match goal with
      | |- tp_ts (hd d (sortBy tp_ts ?raw)) <= _ =>
          apply (Sorted_hd_min tp_ts (sortBy tp_ts raw)
                   (mkTargetPoint S (getLegacyPanRectAtTimelineTs segment S)) d);
          [apply sortBy_sorted | apply sortBy_In; left; reflexivity]
      end.
  - cbv zeta.
    destruct (Qltb S (tp_ts first)) eqn:Hpre.
    + match goal with |- context [if ?c then _ else _] => destruct c end; simpl; lra.
    + apply Qltb_false in Hpre.
      match goal with |- context [if ?c then _ else _] => destruct c end; simpl; lra.
Qed.

(** The target points of a segment with [startTs <= endTs] span exactly
    the segment: there is at least one, they are in time order, the first
    is at the segment's start and the last at its end, and every rect lies
    inside the frame. *)
Theorem getSegmentTargetPoints_span (segment : ZoomSegment) :
  startTs segment <= endTs segment ->
  let points := getSegmentTargetPoints segment in
  points <> [] /\
  Sorted (keyLe tp_ts) points /\
  (forall p, In p points ->
     startTs segment <= tp_ts p <= endTs segment /\ rectInFrame (tp_rect p)) /\
  (forall d, tp_ts (hd d points) == startTs segment) /\
  (forall d, tp_ts (last points d) == endTs segment).
Proof.
  intro Hse. cbv zeta.
  destruct (getSegmentTargetPoints_good segment Hse) as (Hne & Hsorted & Hin & Hlast).
  split; [exact Hne|]. split; [exact Hsorted|]. split; [|split].
  - intros p Hp. destruct (Hin p Hp) as [Hb Hn]. split; [exact Hb|].
    rewrite <- Hn. apply normalizeRect_inFrame.
  - intro d. apply Qle_antisym; [apply getSegmentTargetPoints_head|].
    apply Hin. destruct (getSegmentTargetPoints segment); [contradiction | left; reflexivity].
  - intro d. apply Qle_antisym; [|apply Hlast].
    apply Hin, last_In, Hne.
Qed.

(** The auto segment whose zoom starts late: three points, from 1000 to
    3000. *)
Lemma getSegmentTargetPoints_span_witness :
  let points := getSegmentTargetPoints lateZoomSegment in
  points <> [] /\
  Sorted (keyLe tp_ts) points /\
  (forall p, In p points -> 1000 <= tp_ts p <= 3000 /\ rectInFrame (tp_rect p)) /\
  (forall d, tp_ts (hd d points) == 1000) /\
  (forall d, tp_ts (last points d) == 3000).
Proof.
  apply (getSegmentTargetPoints_span lateZoomSegment). discriminate.
Defined.

(** The scan of [getTargetRectAtTs] from the last point down. *)
Lemma find_rev_hold (pre post : list TargetPoint) (p q : TargetPoint) (ts : Q) :
  Sorted (keyLe tp_ts) (pre ++ p :: q :: post) ->
  tp_ts p <= ts < tp_ts q ->
  find (fun point => Qleb (tp_ts point) ts) (rev (pre ++ p :: q :: post)) = Some p.
Proof.
  intros HS [Hp Hq].
  assert (forall x, In x (q :: post) -> Qleb (tp_ts x) ts = false) as Hlater.
  { intros x Hx. apply Qleb_false.
    pose proof (Sorted_keyLe_nth tp_ts p _ HS) as Hnth.
    destruct (In_nth _ _ p Hx) as (k & Hk & <-).
    specialize (Hnth (S (length pre)) (S (length pre) + k)%nat).
    rewrite !app_nth2 in Hnth by lia.
    replace (S (length pre) - length pre)%nat with 1%nat in Hnth by lia.
    replace (S (length pre) + k - length pre)%nat with (S k) in Hnth by lia.
    simpl nth at 1 in Hnth. change (nth (S k) (p :: q :: post) p) with (nth k (q :: post) p) in Hnth.
    assert (tp_ts q <= tp_ts (nth k (q :: post) p)) as Hle.
    { apply Hnth. rewrite length_app. simpl in *. lia. }
    lra. }
  rewrite rev_app_distr.
  change (p :: q :: post) with ([p] ++ q :: post). rewrite rev_app_distr.
  rewrite <- app_assoc. simpl rev at 2. simpl app at 2.
  assert (forall l rest, (forall x, In x l -> Qleb (tp_ts x) ts = false) ->
            find (fun point => Qleb (tp_ts point) ts) (l ++ rest)
            = find (fun point => Qleb (tp_ts point) ts) rest) as Hskip.
  { induction l as [|a l IH]; intros rest Hl; [reflexivity|]. simpl.
    rewrite (Hl a (or_introl eq_refl)). apply IH. intros x Hx. apply Hl. right. exact Hx. }
  rewrite Hskip by (intros x Hx; apply Hlater, in_rev, Hx).
  simpl. assert (Qleb (tp_ts p) ts = true) as -> by (apply Qleb_true; exact Hp).
  reflexivity.
Qed.

(** The camera target inside a segment is held, not interpolated: from
    a target point on, and until the next one, [getTargetRectAtTs] returns
    that point's rect.  Up to the time of the first point it returns the
    first rect, from the time of the last point on the last rect, and the
    base rect when there are no points. *)
Theorem getTargetRectAtTs_holds (segment : RuntimeSegment) (timelineTs : Q) :
  (rt_targetPoints segment = [] -> getTargetRectAtTs segment timelineTs = baseRect segment) /\
  (forall first rest,
     rt_targetPoints segment = first :: rest ->
     (timelineTs <= tp_ts first -> getTargetRectAtTs segment timelineTs = tp_rect first) /\
     (tp_ts first < timelineTs ->
      tp_ts (last (first :: rest) first) <= timelineTs ->
      getTargetRectAtTs segment timelineTs = tp_rect (last (first :: rest) first)) /\
     (forall pre p q post,
        first :: rest = pre ++ p :: q :: post ->
        Sorted (keyLe tp_ts) (first :: rest) ->
        tp_ts first < timelineTs ->
        tp_ts p <= timelineTs < tp_ts q ->
        getTargetRectAtTs segment timelineTs = tp_rect p)).
Proof.
  unfold getTargetRectAtTs. split; [intros ->; reflexivity|].
  intros first rest ->. split; [|split].
  - intro H. apply Qleb_true in H. rewrite H. reflexivity.
  - intros H1 H2. apply Qleb_false in H1. apply Qleb_true in H2.
    rewrite H1. cbv zeta. rewrite H2. reflexivity.
  - intros pre p q post Hsplit HS Hfirst Hbetween.
    assert (Qleb timelineTs (tp_ts first) = false) as -> by (apply Qleb_false; exact Hfirst).
    cbv zeta.
    assert (Qleb (tp_ts (last (first :: rest) first)) timelineTs = false) as ->.
    { apply Qleb_false.
      apply Qlt_le_trans with (tp_ts q); [apply Hbetween|].
      apply (Sorted_last_max tp_ts _ first HS).
      rewrite Hsplit. apply in_or_app. right. right. left. reflexivity. }
    rewrite Hsplit in *. rewrite (find_rev_hold pre post p q timelineTs HS Hbetween).
    reflexivity.
Qed.

(** Three target points; at 1200 ms the second one is held. *)
Lemma getTargetRectAtTs_holds_witness :
  getTargetRectAtTs
    (mkRuntimeSegment "s" 0 2000 false Fixed Manual DEFAULT_RECT
       [mkTargetPoint 0 FULL_RECT; mkTargetPoint 1000 DEFAULT_RECT;
        mkTargetPoint 2000 FULL_RECT] DEFAULT_SPRING) 1200
  = DEFAULT_RECT.
Proof.
  apply (proj2 (proj2 (proj2 (getTargetRectAtTs_holds
           (mkRuntimeSegment "s" 0 2000 false Fixed Manual DEFAULT_RECT
              [mkTargetPoint 0 FULL_RECT; mkTargetPoint 1000 DEFAULT_RECT;
               mkTargetPoint 2000 FULL_RECT] DEFAULT_SPRING) 1200)
           (mkTargetPoint 0 FULL_RECT)
           [mkTargetPoint 1000 DEFAULT_RECT; mkTargetPoint 2000 FULL_RECT] eq_refl))
           [mkTargetPoint 0 FULL_RECT] (mkTargetPoint 1000 DEFAULT_RECT)
           (mkTargetPoint 2000 FULL_RECT) []).
  - reflexivity.
  - repeat constructor; unfold keyLe; simpl; discriminate.
  - reflexivity.
  - split; [discriminate | reflexivity].
Defined.

(** ** Follow-cursor target points *)

Lemma Math_sign_cases (v : Q) :
  (0 < v /\ Math_sign v = 1) \/ (v < 0 /\ Math_sign v = -1) \/ (v == 0 /\ Math_sign v = 0).
Proof.
  unfold Math_sign.
  destruct (Qltb 0 v) eqn:Hpos; [left; split; [apply Qltb_true, Hpos | reflexivity]|].
  destruct (Qltb v 0) eqn:Hneg;
    [right; left; split; [apply Qltb_true, Hneg | reflexivity]|].
  right. right. apply Qltb_false in Hpos, Hneg. split; [lra | reflexivity].
Qed.

(** One pass moves the centre by at most [maxSpeed * dtSec]. *)
Lemma followAxis_speed (center cursor size maxSpeed dtSec : Q) :
  0 <= maxSpeed -> 0 <= dtSec ->
  - (maxSpeed * dtSec) <= followAxis center cursor size maxSpeed dtSec - center
                       <= maxSpeed * dtSec.
Proof.
  intros Hv Hdt. unfold followAxis.
  assert (0 <= maxSpeed * dtSec) as Hprod by nra.
  destruct (Qltb _ (Qabs (cursor - center))); [|lra].
  match goal with
  | |- context [clamp ?e 0 1] =>
      pose proof (clamp_bounds e 0 1 ltac:(lra)) as Hf; set (f := clamp e 0 1) in *
  end.
  destruct (Math_sign_cases (cursor - center)) as [[_ ->]|[[_ ->]|[_ ->]]]; nra.
Qed.

Lemma clamp_nonexpansive (v c lo hi : Q) :
  lo <= c <= hi ->
  (c <= v -> c <= clamp v lo hi <= v) /\ (v <= c -> v <= clamp v lo hi <= c).
Proof. intro H. unfold clamp. split; intro; split_minmax; lra. Qed.

Lemma followChain_snoc (vx vy : Q) (points : list TargetPoint) (a b : TargetPoint) :
  followChain vx vy (points ++ [a]) ->
  tp_ts a < tp_ts b ->
  - (vx * ((tp_ts b - tp_ts a) / 1000))
    <= rectCenterX (tp_rect b) - rectCenterX (tp_rect a)
    <= vx * ((tp_ts b - tp_ts a) / 1000) ->
  - (vy * ((tp_ts b - tp_ts a) / 1000))
    <= rectCenterY (tp_rect b) - rectCenterY (tp_rect a)
    <= vy * ((tp_ts b - tp_ts a) / 1000) ->
  followChain vx vy ((points ++ [a]) ++ [b]).
Proof.
  intros Hchain Hts Hx Hy.
  induction points as [|p points IH]; simpl.
  - auto.
  - simpl in Hchain.
    destruct (points ++ [a]) as [|q rest] eqn:Happ.
    + destruct points; discriminate.
    + simpl. destruct Hchain as (H1 & H2 & H3 & H4).
      repeat (split; [assumption|]). apply IH. exact H4.
Qed.

Lemma list_snoc_cases {A : Type} (l : list A) :
  l = [] \/ exists l' a, l = l' ++ [a].
Proof.
  destruct l as [|x l]; [left; reflexivity | right].
  destruct (exists_last (l := x :: l)) as (l' & a & H); [discriminate | eauto].
Qed.

Section FollowFacts.

Variables start stop : Q.
Variable base : NormalizedRect.
Variable cursorSamples : list CursorSample.
Variables vx vy : Q.
Hypothesis base_inFrame : rectInFrame base.
Hypothesis vx_nonneg : 0 <= vx.
Hypothesis vy_nonneg : 0 <= vy.

Local Abbreviation stepMs := (Qmax FOLLOW_SAMPLE_STEP_MS 1).
Local Abbreviation Inv := (followInv start stop stepMs base vx vy).

Lemma stepMs_value : stepMs = 75.
Proof. reflexivity. Qed.

Lemma followStep_inv (st : FollowState) :
  Inv st -> fs_ts st <= stop ->
  exists st',
    followStep base cursorSamples vx vy stepMs st = Some st' /\
    Inv st' /\
    length (fs_points st') = S (length (fs_points st)).
Proof.
  intros (Hts & Hall & Hchain & Hempty & Hshape) Hcond.
  unfold followStep.
  destruct (interpolateCursor_total cursorSamples (fs_ts st)) as [[cursorX cursorY] ->].
  set (dtSec := Qmax 0 (fs_ts st - fs_lastTs st) / 1000).
  set (cx := followAxis (fs_centerX st) cursorX (rect_width base) vx dtSec).
  set (cy := followAxis (fs_centerY st) cursorY (rect_height base) vy dtSec).
  set (rect := buildRectFromCenterAndSize cx cy (rect_width base) (rect_height base)).
  destruct (buildRectFromCenterAndSize_shape cx cy (rect_width base) (rect_height base))
    as (Hin & Hw & Hh & Hcx & Hcy).
  fold rect in Hin, Hw, Hh, Hcx, Hcy.
  destruct base_inFrame as (Hbw & Hbh & Hbx & Hby).
  rewrite (clamp_inside (rect_width base) MIN_RECT_SIZE 1) in Hw, Hcx
    by (unfold MIN_RECT_SIZE; lra).
  rewrite (clamp_inside (rect_height base) MIN_RECT_SIZE 1) in Hh, Hcy
    by (unfold MIN_RECT_SIZE; lra).
  eexists. split; [reflexivity|].
  split; [|simpl; rewrite length_app; simpl; lia].
  unfold followInv. cbn [fs_ts fs_points fs_lastTs fs_centerX fs_centerY].
  split.
  { rewrite length_app. simpl length.
    replace (Z.of_nat (length (fs_points st) + 1))
      with (Z.of_nat (length (fs_points st)) + 1)%Z by lia.
    rewrite inject_Z_plus. change (inject_Z 1) with 1. rewrite Hts. ring. }
  split.
  { intros p Hp. apply in_app_or in Hp. destruct Hp as [Hp|[<-|[]]]; [apply Hall, Hp|].
    simpl. auto. }
  destruct (list_snoc_cases (fs_points st)) as [Hnil|(points & a & Hsnoc)].
  - destruct (Hempty Hnil) as (Hs & _). rewrite Hnil in *. simpl.
    split; [exact I|]. split; [discriminate|]. intros _ d. auto.
  - assert (fs_points st <> []) as Hne by (rewrite Hsnoc; destruct points; discriminate).
    destruct (Hshape Hne a) as (Hfirst & HlastTs & Hnext & Hcenx & Hceny).
    rewrite Hsnoc in *. rewrite last_last in *.
    destruct (Hall a ltac:(apply in_or_app; right; left; reflexivity))
      as (_ & (Haw & Hah & Hax & Hay) & Haw' & Hah').
    assert (dtSec == 75 / 1000) as Hdt.
    { unfold dtSec. rewrite Hnext, HlastTs.
      assert (tp_ts a + stepMs - tp_ts a == 75) as -> by (rewrite stepMs_value; ring).
      reflexivity. }
    assert (0 <= dtSec) as Hdt0 by (rewrite Hdt; discriminate).
    pose proof (followAxis_speed (fs_centerX st) cursorX (rect_width base) vx dtSec
                  vx_nonneg Hdt0) as Hsx.
    pose proof (followAxis_speed (fs_centerY st) cursorY (rect_height base) vy dtSec
                  vy_nonneg Hdt0) as Hsy.
    fold cx in Hsx. fold cy in Hsy.
    assert (tp_ts a + stepMs - tp_ts a == 75) as Hspan by (rewrite stepMs_value; ring).
    split.
    { rewrite Hnext. apply followChain_snoc; [exact Hchain | | |];
        cbn [tp_ts tp_rect]; [rewrite stepMs_value; lra | |].
      - unfold rectCenterX. rewrite Hw. fold rect. rewrite Hcx.
        rewrite Hcenx in Hsx. unfold rectCenterX in Hsx. rewrite Haw' in *.
        rewrite Hspan. rewrite Hdt in Hsx.
        set (c := rect_x (tp_rect a) + rect_width base / 2) in *.
        assert (rect_width base / 2 <= c <= 1 - rect_width base / 2) as Hc
            by (unfold c; qdiv_const; lra).
        destruct (clamp_nonexpansive cx c _ _ Hc) as [Hup Hdown].
        destruct (Qlt_le_dec cx c) as [Hlt|Hge].
        + specialize (Hdown ltac:(lra)). lra.
        + specialize (Hup Hge). lra.
      - unfold rectCenterY. rewrite Hh. fold rect. rewrite Hcy.
        rewrite Hceny in Hsy. unfold rectCenterY in Hsy. rewrite Hah' in *.
        rewrite Hspan. rewrite Hdt in Hsy.
        set (c := rect_y (tp_rect a) + rect_height base / 2) in *.
        assert (rect_height base / 2 <= c <= 1 - rect_height base / 2) as Hc
            by (unfold c; qdiv_const; lra).
        destruct (clamp_nonexpansive cy c _ _ Hc) as [Hup Hdown].
        destruct (Qlt_le_dec cy c) as [Hlt|Hge].
        + specialize (Hdown ltac:(lra)). lra.
        + specialize (Hup Hge). lra. }
    split; [intro H; apply app_eq_nil in H; destruct H; discriminate|].
    intros _ d. rewrite last_last. cbn [tp_ts tp_rect].
    split; [|auto].
    destruct (Hshape Hne d) as (Hhd & _).
    destruct (points ++ [a]) as [|f r] eqn:Happ; [destruct points; discriminate|].
    exact Hhd.
Qed.

Lemma followLoop_returns (fuel : nat) :
  forall st,
    Inv st ->
    (Qfloor ((stop - start) / stepMs) + 1 - Z.of_nat (length (fs_points st))
     <= Z.of_nat fuel)%Z ->
    exists st',
      followLoop fuel base cursorSamples vx vy stepMs stop st = Some st' /\
      Inv st' /\ stop < fs_ts st' /\
      (length (fs_points st) <= length (fs_points st'))%nat.
Proof.
  induction fuel as [|fuel IH]; intros st Hinv Hfuel.
  - simpl. destruct (Qleb (fs_ts st) stop) eqn:Hcond.
    + exfalso. apply Qleb_true in Hcond. destruct Hinv as (Hts & _).
      rewrite Hts in Hcond.
      assert (inject_Z (Z.of_nat (length (fs_points st))) <= (stop - start) / stepMs) as Hq.
      { apply Qle_shift_div_l; [rewrite stepMs_value; reflexivity | lra]. }
      apply Qfloor_resp_le in Hq. rewrite Qfloor_Z in Hq. change (Z.of_nat 0) with 0%Z in Hfuel. lia.
    + apply Qleb_false in Hcond. exists st. auto.
  - simpl. destruct (Qleb (fs_ts st) stop) eqn:Hcond.
    + apply Qleb_true in Hcond.
      destruct (followStep_inv st Hinv Hcond) as (st1 & -> & Hinv1 & Hlen1).
      destruct (IH st1 Hinv1) as (st' & Hrun & Hinv' & Hend & Hlen'); [lia|].
      exists st'. repeat (split; [assumption|]). lia.
    + apply Qleb_false in Hcond. exists st. auto.
Qed.

End FollowFacts.

Lemma hd_app_nonempty {A : Type} (l l' : list A) (d : A) :
  l <> [] -> hd d (l ++ l') = hd d l.
Proof. destruct l; [contradiction | reflexivity]. Qed.

Lemma followChain_pair (vx vy : Q) (a b : Q) (rect : NormalizedRect) :
  0 <= vx -> 0 <= vy -> a < b ->
  followChain vx vy [mkTargetPoint a rect; mkTargetPoint b rect].
Proof.
  intros Hvx Hvy Hab. simpl.
  assert (0 <= (b - a) / 1000) as Hdt by (qdiv_const; lra).
  set (dt := (b - a) / 1000) in *.
  split; [exact Hab|]. repeat split; try exact I; nra.
Qed.

Lemma buildFollowCursorTargetPoints_shape (segment : ZoomSegment)
    (baseRect : NormalizedRect) (cursorSamples : list CursorSample)
    (sourceWidth sourceHeight : Q) :
  rectInFrame baseRect ->
  exists points,
    buildFollowCursorTargetPoints segment baseRect cursorSamples sourceWidth sourceHeight
    = Some points /\
    points <> [] /\
    (forall d, tp_ts (hd d points) = startTs segment) /\
    (forall d, tp_ts (last points d)
               == if Qleb (endTs segment) (startTs segment)
                  then startTs segment + 1 else endTs segment) /\
    (forall p, In p points ->
       rectInFrame (tp_rect p) /\
       rect_width (tp_rect p) = rect_width baseRect /\
       rect_height (tp_rect p) = rect_height baseRect) /\
    followChain (FOLLOW_MAX_SPEED_PX_PER_S / Qmax 1 sourceWidth)
                (FOLLOW_MAX_SPEED_PX_PER_S / Qmax 1 sourceHeight) points.
Proof.
  intro Hbase.
  set (vx := FOLLOW_MAX_SPEED_PX_PER_S / Qmax 1 sourceWidth).
  set (vy := FOLLOW_MAX_SPEED_PX_PER_S / Qmax 1 sourceHeight).
  assert (0 <= vx) as Hvx.
  { unfold vx, FOLLOW_MAX_SPEED_PX_PER_S. apply Qle_shift_div_l; split_minmax; lra. }
  assert (0 <= vy) as Hvy.
  { unfold vy, FOLLOW_MAX_SPEED_PX_PER_S. apply Qle_shift_div_l; split_minmax; lra. }
  unfold buildFollowCursorTargetPoints.
  set (start := startTs segment). set (stop := endTs segment).
  destruct (Qleb stop start) eqn:Horder.
  { eexists. split; [reflexivity|]. split; [discriminate|].
    split; [reflexivity|]. split; [intro; reflexivity|].
    split; [intros p [<-|[<-|[]]]; simpl; auto|].
    apply followChain_pair; [assumption | assumption | lra]. }
  apply Qleb_false in Horder.
  destruct cursorSamples as [|sample0 samples] eqn:Hsamples.
  { eexists. split; [reflexivity|]. split; [discriminate|].
    split; [reflexivity|]. split; [intro; reflexivity|].
    split; [intros p [<-|[<-|[]]]; simpl; auto|].
    apply followChain_pair; assumption. }
  rewrite <- Hsamples. cbv zeta. fold vx vy.
  set (st0 := mkFollowState _ _ [] start start).
  destruct (followLoop_returns start stop baseRect cursorSamples vx vy Hbase Hvx Hvy
              (followPasses start stop (Qmax FOLLOW_SAMPLE_STEP_MS 1)) st0)
    as (st' & Hrun & Hinv & Hend & _).
  { unfold followInv, st0. simpl.
    split; [ring|]. split; [intros p []|]. split; [exact I|].
    split; [auto | intro H; contradiction]. }
  { unfold followPasses, st0. simpl fs_points. simpl length. lia. }
  rewrite Hrun.
  destruct Hinv as (Hts & Hall & Hchain & _ & Hshape).
  assert (fs_points st' <> []) as Hne.
  { intro Hnil. rewrite Hnil in Hts. simpl in Hts.
    assert (fs_ts st' == start) as Hs by (rewrite Hts; ring). lra. }
  set (d0 := mkTargetPoint start baseRect).
  destruct (Hshape Hne d0) as (Hhd0 & _).
  destruct (negb (Qeq_bool (tp_ts (last (fs_points st') d0)) stop)) eqn:Hneq.
  - apply negb_true_iff in Hneq. apply Qeq_bool_neq in Hneq.
    destruct (Hall _ (last_In _ d0 Hne)) as (Hle & Hin & Hw & Hh).
    assert (tp_ts (last (fs_points st') d0) < stop) as Hlt.
    { destruct (Qlt_le_dec (tp_ts (last (fs_points st') d0)) stop) as [H|H]; [exact H|].
      exfalso. apply Hneq. lra. }
    eexists. split; [reflexivity|].
    split; [intro H; apply app_eq_nil in H; destruct H; discriminate|].
    split.
    { intro d. rewrite hd_app_nonempty by exact Hne. apply (Hshape Hne d). }
    split; [intro d; rewrite last_last; reflexivity|].
    split.
    { intros p Hp. apply in_app_or in Hp. destruct Hp as [Hp|[<-|[]]].
      - destruct (Hall p Hp) as (_ & H1 & H2 & H3). auto.
      - simpl. auto. }
    destruct (list_snoc_cases (fs_points st')) as [Hnil|(points & a & Hsnoc)];
      [contradiction|].
    rewrite Hsnoc in *. rewrite last_last in *.
    assert (0 <= (stop - tp_ts a) / 1000) as Hdt by (qdiv_const; lra).
    apply followChain_snoc; [exact Hchain | exact Hlt | |]; cbn [tp_ts tp_rect];
      set (dt := (stop - tp_ts a) / 1000) in *; split; nra.
  - apply negb_false_iff in Hneq. apply Qeq_bool_iff in Hneq.
    eexists. split; [reflexivity|]. split; [exact Hne|].
    split; [intro d; apply (Hshape Hne d)|].
    split.
    { intro d. rewrite <- Hneq. clear - Hne.
      induction (fs_points st') as [|a l IH]; [contradiction|].
      destruct l as [|b l]; [reflexivity|]. apply IH. discriminate. }
    split; [|exact Hchain].
    intros p Hp. destruct (Hall p Hp) as (_ & H1 & H2 & H3). auto.
Qed.

(** The follow-cursor path of a segment over a base rect inside the
    frame is always returned and is never empty.  It starts at the segment's
    start and ends at its end (one millisecond after the start for a segment
    that does not end after it starts); its times increase strictly; every
    rect lies inside the frame with the size of the base rect; and between
    two consecutive points the centre moves by at most 800 source pixels
    per second along each axis. *)
Theorem buildFollowCursorTargetPoints_path (segment : ZoomSegment)
    (baseRect : NormalizedRect) (cursorSamples : list CursorSample)
    (sourceWidth sourceHeight : Q) :
  rectInFrame baseRect ->
  exists points,
    buildFollowCursorTargetPoints segment baseRect cursorSamples sourceWidth sourceHeight
    = Some points /\
    points <> [] /\
    (forall d, tp_ts (hd d points) = startTs segment) /\
    (forall d, tp_ts (last points d)
               == if Qleb (endTs segment) (startTs segment)
                  then startTs segment + 1 else endTs segment) /\
    (forall p, In p points ->
       rectInFrame (tp_rect p) /\
       rect_width (tp_rect p) = rect_width baseRect /\
       rect_height (tp_rect p) = rect_height baseRect) /\
    followChain (FOLLOW_MAX_SPEED_PX_PER_S / Qmax 1 sourceWidth)
                (FOLLOW_MAX_SPEED_PX_PER_S / Qmax 1 sourceHeight) points.
Proof. apply buildFollowCursorTargetPoints_shape. Qed.

(** The auto segment of the examples, following the demo cursor on a
    1920 x 1080 source. *)
Lemma buildFollowCursorTargetPoints_path_witness :
  exists points,
    buildFollowCursorTargetPoints lateZoomSegment DEFAULT_RECT
      (extractCursorSamples (Some demoEvents) 0.5) 1920 1080 = Some points /\
    points <> [] /\
    (forall d, tp_ts (hd d points) = 1000) /\
    (forall d, tp_ts (last points d) == 3000) /\
    (forall p, In p points ->
       rectInFrame (tp_rect p) /\
       rect_width (tp_rect p) = rect_width DEFAULT_RECT /\
       rect_height (tp_rect p) = rect_height DEFAULT_RECT) /\
    followChain (FOLLOW_MAX_SPEED_PX_PER_S / Qmax 1 1920)
                (FOLLOW_MAX_SPEED_PX_PER_S / Qmax 1 1080) points.
Proof.
  apply (buildFollowCursorTargetPoints_path lateZoomSegment DEFAULT_RECT
           (extractCursorSamples (Some demoEvents) 0.5) 1920 1080).
  unfold rectInFrame, DEFAULT_RECT. simpl. repeat split; discriminate.
Defined.

(** ** Runtime segments *)

Lemma normalizeSpring_mass (spring : option CameraSpring) :
  0.001 <= mass (normalizeSpring spring) /\ 0.001 <= stiffness (normalizeSpring spring) /\
  0 <= damping (normalizeSpring spring).
Proof.
  destruct spring as [s|].
  - unfold normalizeSpring. cbn [mass stiffness damping].
    split; [apply clamp_bounds; lra|]. split; apply clamp_bounds; lra.
  - repeat split; discriminate.
Qed.

(** Whatever the segment, the rects of its target points are inside the
    frame. *)
Lemma getSegmentTargetPoints_rects (segment : ZoomSegment) :
  forall p, In p (getSegmentTargetPoints segment) -> rectInFrame (tp_rect p).
Proof.
  unfold getSegmentTargetPoints.
  set (S := startTs segment). set (E := endTs segment).
  set (g := fun point => mkTargetPoint (clamp (tp_ts point) S E)
                           (normalizeRect (tp_rect point))).
  assert (forall p, In p (sortBy tp_ts (map g (targetPoints segment))) ->
                    rectInFrame (tp_rect p)) as Hexplicit.
  { intros p Hp. apply (proj1 (sortBy_In tp_ts _ _)) in Hp. apply in_map_iff in Hp.
    destruct Hp as (q & <- & _). apply normalizeRect_inFrame. }
  assert (forall ts, rectInFrame (getLegacyPanRectAtTimelineTs segment ts)) as Hpan.
  { intro ts. rewrite <- getLegacyPanRect_normalized. apply normalizeRect_inFrame. }
  destruct (sortBy tp_ts (map g (targetPoints segment))) as [|first erest] eqn:Hexp.
  - destruct (getSortedPanTrajectory segment) as [|k ks].
    + intros p [<-|[<-|[]]]; simpl;
        rewrite <- getSegmentBaseRect_normalized; apply normalizeRect_inFrame.
    + intros p Hp. apply (proj1 (sortBy_In tp_ts _ _)) in Hp.
      apply in_app_or in Hp. destruct Hp as [[<-|[]]|Hp]; [apply Hpan|].
      apply in_app_or in Hp. destruct Hp as [Hp|[<-|[]]]; [|apply Hpan].
      apply in_map_iff in Hp. destruct Hp as (q & <- & _). apply Hpan.
  - cbv zeta.
    set (points := (if Qltb S (tp_ts first) then [mkTargetPoint S (tp_rect first)] else [])
                   ++ first :: erest).
    assert (forall p, In p points -> rectInFrame (tp_rect p)) as Hpoints.
    { intros p Hp. unfold points in Hp. apply in_app_or in Hp. destruct Hp as [Hp|Hp].
      - destruct (Qltb S (tp_ts first)); [|contradiction].
        destruct Hp as [<-|[]]. simpl. apply Hexplicit. left. reflexivity.
      - apply Hexplicit, Hp. }
    assert (points <> []) as Hne.
    { unfold points. intro H. apply app_eq_nil in H. destruct H. discriminate. }
    destruct (Qltb _ E); [|exact Hpoints].
    intros p Hp. apply in_app_or in Hp. destruct Hp as [Hp|[<-|[]]]; [apply Hpoints, Hp|].
    simpl. apply Hpoints, last_In, Hne.
Qed.

Lemma getTargetRectAtTs_In (segment : RuntimeSegment) (timelineTs : Q) :
  getTargetRectAtTs segment timelineTs = baseRect segment \/
  exists p, In p (rt_targetPoints segment) /\ getTargetRectAtTs segment timelineTs = tp_rect p.
Proof.
  unfold getTargetRectAtTs.
  destruct (rt_targetPoints segment) as [|first rest] eqn:Hpoints; [left; reflexivity|].
  right. destruct (Qleb timelineTs (tp_ts first)).
  { exists first. split; [left; reflexivity | reflexivity]. }
  cbv zeta. destruct (Qleb _ timelineTs).
  { eexists. split; [apply last_In; discriminate | reflexivity]. }
  destruct (find _ (rev (first :: rest))) as [point|] eqn:Hfind.
  - apply find_some in Hfind. destruct Hfind as [Hin _].
    exists point. split; [apply in_rev, Hin | reflexivity].
  - exists first. split; [left; reflexivity | reflexivity].
Qed.

Lemma toRuntimeSegment_returns (cursorSamples : list CursorSample)
    (sourceWidth sourceHeight : Q) (raw : ZoomSegment) :
  exists segment,
    toRuntimeSegment cursorSamples sourceWidth sourceHeight raw = Some segment /\
    runtimeOf raw segment.
Proof.
  unfold toRuntimeSegment. cbv zeta.
  set (segment := normalizeZoomSegment raw).
  assert (getSegmentBaseRect segment = getSegmentBaseRect raw) as Hbase by reflexivity.
  assert (rectInFrame (getSegmentBaseRect segment)) as Hin
      by (unfold getSegmentBaseRect; apply normalizeRect_inFrame).
  assert (exists points,
            match mode segment with
            | Some FollowCursor =>
                buildFollowCursorTargetPoints segment (getSegmentBaseRect segment)
                  cursorSamples sourceWidth sourceHeight
            | _ => Some (getSegmentTargetPoints segment)
            end = Some points /\
            points <> [] /\
            forall p, In p points -> rectInFrame (tp_rect p)) as (points & -> & Hne & Hrects).
  { destruct (mode segment) as [[|]|].
    - eexists. split; [reflexivity|].
      split; [apply getSegmentTargetPoints_nonempty | apply getSegmentTargetPoints_rects].
    - destruct (buildFollowCursorTargetPoints_shape segment (getSegmentBaseRect segment)
                  cursorSamples sourceWidth sourceHeight Hin)
        as (points & Hrun & Hne & _ & _ & Hall & _).
      exists points. split; [exact Hrun|]. split; [exact Hne|].
      intros p Hp. apply Hall, Hp.
    - eexists. split; [reflexivity|].
      split; [apply getSegmentTargetPoints_nonempty | apply getSegmentTargetPoints_rects]. }
  eexists. split; [reflexivity|].
  unfold runtimeOf. simpl. auto 10.
Qed.

Lemma mapOption_Forall2 {A B : Type} (f : A -> option B) (P : A -> B -> Prop)
    (l : list A) :
  (forall a, exists b, f a = Some b /\ P a b) ->
  exists bs, mapOption f l = Some bs /\ Forall2 P l bs.
Proof.
  intro Hf. induction l as [|a l (bs & Hbs & Hall)].
  - exists []. split; [reflexivity | constructor].
  - destruct (Hf a) as (b & Hb & HP). exists (b :: bs). simpl.
    rewrite Hb, Hbs. split; [reflexivity | constructor; assumption].
Qed.

Lemma Forall2_In_r {A B : Type} (P : A -> B -> Prop) (l : list A) (bs : list B) :
  Forall2 P l bs -> forall b, In b bs -> exists a, In a l /\ P a b.
Proof.
  induction 1 as [|a b' l bs Hab Hall IH]; intros b Hb; [contradiction|].
  destruct Hb as [<-|Hb].
  - exists a. split; [left; reflexivity | exact Hab].
  - destruct (IH b Hb) as (a' & Ha' & HP). exists a'. split; [right; exact Ha' | exact HP].
Qed.

Lemma Forall2_sorted_keys {A B : Type} (ka : A -> Q) (kb : B -> Q) (l : list A)
    (bs : list B) :
  Forall2 (fun a b => kb b = ka a) l bs ->
  Sorted (keyLe ka) l -> Sorted (keyLe kb) bs.
Proof.
  induction 1 as [|a b l bs Hab Hall IH]; intro HS; [constructor|].
  inversion HS as [|? ? HS' Hhd]; subst. constructor; [apply IH, HS'|].
  destruct Hall as [|a' b' l' bs' Hab' _]; [constructor|].
  inversion Hhd; subst. constructor. unfold keyLe in *. rewrite Hab, Hab'. assumption.
Qed.

(** [toRuntimeSegments] always returns, one runtime segment per segment,
    in start order.  Each has a base rect inside the frame, a spring with
    mass and stiffness of at least 0.001 and no negative damping, and at
    least one target point; and at every time the rect the camera is sent to
    lies inside the frame. *)
Theorem toRuntimeSegments_sound (segments : list ZoomSegment)
    (cursorSamples : list CursorSample) (sourceWidth sourceHeight : Q) :
  exists runtimeSegments,
    toRuntimeSegments segments cursorSamples sourceWidth sourceHeight
    = Some runtimeSegments /\
    length runtimeSegments = length segments /\
    Sorted (keyLe rt_startTs) runtimeSegments /\
    forall segment, In segment runtimeSegments ->
      (exists raw, In raw segments /\ runtimeOf raw segment) /\
      rectInFrame (baseRect segment) /\
      0.001 <= mass (rt_spring segment) /\
      0.001 <= stiffness (rt_spring segment) /\
      0 <= damping (rt_spring segment) /\
      forall timelineTs, rectInFrame (getTargetRectAtTs segment timelineTs).
Proof.
  unfold toRuntimeSegments.
  destruct (mapOption_Forall2 (toRuntimeSegment cursorSamples sourceWidth sourceHeight)
              runtimeOf (sortBy startTs segments)
              (toRuntimeSegment_returns cursorSamples sourceWidth sourceHeight))
    as (rts & Hrun & Hall).
  exists rts. split; [exact Hrun|].
  split; [rewrite <- (Forall2_length Hall); apply sortBy_length|].
  split.
  { apply (Forall2_sorted_keys startTs rt_startTs (sortBy startTs segments));
      [|apply sortBy_sorted].
    eapply Forall2_impl; [|exact Hall]. intros a b Hab. apply Hab. }
  intros segment Hseg.
  destruct (Forall2_In_r runtimeOf _ _ Hall segment Hseg) as (raw & Hraw & Hof).
  apply (proj1 (sortBy_In startTs _ _)) in Hraw.
  split; [eauto|].
  destruct Hof as (_ & _ & _ & Hbase & Hspring & _ & Hrects).
  assert (rectInFrame (baseRect segment)) as Hin
      by (rewrite Hbase; unfold getSegmentBaseRect; apply normalizeRect_inFrame).
  split; [exact Hin|]. rewrite Hspring.
  destruct (normalizeSpring_mass (spring raw)) as (Hm & Hk & Hd).
  repeat (split; [assumption|]).
  intro timelineTs.
  destruct (getTargetRectAtTs_In segment timelineTs) as [->|(p & Hp & ->)];
    [exact Hin | apply Hrects, Hp].
Qed.

(** The test timeline, given out of order, without cursor samples. *)
Lemma toRuntimeSegments_sound_witness :
  exists runtimeSegments,
    toRuntimeSegments demoTimeline [] 1920 1080 = Some runtimeSegments /\
    length runtimeSegments = 2%nat /\
    Sorted (keyLe rt_startTs) runtimeSegments.
Proof.
  destruct (toRuntimeSegments_sound demoTimeline [] 1920 1080)
    as (runtimeSegments & Hrun & Hlen & Hsorted & _).
  exists runtimeSegments. auto.
Defined.


(** ** Editing and adding segments *)


Lemma updateSegmentBaseRect_points (segment : ZoomSegment) (rect : NormalizedRect) :
  getSegmentBaseRect (updateSegmentBaseRect segment rect) = normalizeRect rect /\
  getSegmentTargetPoints (updateSegmentBaseRect segment rect)
  = [mkTargetPoint (startTs segment) (normalizeRect rect);
     mkTargetPoint (endTs segment) (normalizeRect rect)].
Proof.
  unfold getSegmentTargetPoints, getSegmentBaseRect, updateSegmentBaseRect. simpl.
  rewrite normalizeRect_idem. split; reflexivity.
Qed.


(** A segment [sortSegments] keeps lies inside the segment it comes
    from and ends where that one ends. *)
Lemma kept_span (segment kept : ZoomSegment) :
  trimAutoNoopSegment (normalizeZoomSegment segment) = Some kept ->
  id kept = id segment /\ isAuto kept = isAuto segment /\
  startTs segment <= startTs kept /\ endTs kept = endTs segment.
Proof.
  intro Hres.
  destruct (trimAutoNoopSegment_cases _ _ Hres)
    as [[_ ->]|(_ & Hse & first & Hfind & _ & ->)].
  - simpl. repeat split; try reflexivity. lra.
  - simpl. repeat split; try reflexivity.
    apply find_some in Hfind. destruct Hfind as [Hin _].
    destruct (getSegmentTargetPoints_good _ Hse) as (_ & _ & Hall & _).
    apply (Hall first Hin).
Qed.



(** Adding a segment.  When [handleAddSegment] finds a slot, the new list
    is in start order and holds the new manual segment, which lies inside
    the timeline, lasts between 200 ms and 1.6 s, frames a rect inside the
    frame, and keeps 200 ms away from every other segment of the list
    (except that it may start right at a segment that ends at time 0). *)
Theorem handleAddSegment_no_overlap (zoomSegments : list ZoomSegment)
    (previewDurationMs timelineDurationMs playhead : Q)
    (previewCameraTrack : list SpringCameraSample) (nextId : string)
    (result : list ZoomSegment) :
  handleAddSegment zoomSegments previewDurationMs timelineDurationMs playhead
    previewCameraTrack nextId = Some result ->
  Sorted (keyLe startTs) result /\
  exists added,
    In added result /\
    id added = nextId /\ isAuto added = false /\
    0 <= startTs added /\ endTs added <= timelineDurationMs /\
    200 <= endTs added - startTs added <= 1600 /\
    (exists rect, initialRect added = Some rect /\ rectInFrame rect) /\
    forall other, In other result ->
      other = added \/
      endTs added + 200 <= startTs other \/
      (endTs other <= startTs added /\
       (0 < endTs other -> endTs other + 200 <= startTs added)).
Proof.
  unfold handleAddSegment. cbv zeta.
  set (live := mapTimeMs playhead previewDurationMs timelineDurationMs).
  destruct (findAvailableGapForSegment zoomSegments timelineDurationMs live)
    as [slot|] eqn:Hslot; [|discriminate].
  set (rect := match sampleCameraTrack previewCameraTrack live with
               | Some r => r
               | None => DEFAULT_RECT
               end).
  set (added := newManualSegment nextId slot rect).
  intro Hres. injection Hres as <-.
  split; [apply sortBy_sorted|].
  destruct (findAvailableGapForSegment_shape _ _ _ _ Hslot) as (H0 & Hend & Hlen).
  pose proof (findAvailableGapForSegment_clear _ _ _ _ Hslot) as Hclear.
  exists (normalizeZoomSegment added).
  split.
  { apply sortSegments_In. exists added. split; [|reflexivity].
    apply in_or_app. right. left. reflexivity. }
  split; [reflexivity|]. split; [reflexivity|].
  cbn [startTs endTs normalizeZoomSegment added newManualSegment].
  split; [exact H0|]. split; [revert Hend; split_minmax; lra|].
  split; [exact Hlen|].
  split; [eexists; split; [reflexivity | apply normalizeRect_inFrame]|].
  intros other Hother. apply sortSegments_In in Hother.
  destruct Hother as (seg & Hseg & Hkept).
  apply in_app_or in Hseg. destruct Hseg as [Hseg|[<-|[]]].
  - right. destruct (kept_span seg other Hkept) as (_ & _ & Hstart & Hstop).
    specialize (Hclear seg Hseg). unfold clearOf in Hclear. rewrite Hstop.
    destruct Hclear as [Hc|Hc]; [left; lra | right; exact Hc].
  - left. unfold trimAutoNoopSegment in Hkept. simpl in Hkept. congruence.
Qed.

(** A segment added at the playhead of the test timeline. *)
Lemma handleAddSegment_no_overlap_witness :
  exists result,
    handleAddSegment demoTimeline 10000 10000 3400 [] "manual-1" = Some result /\
    Sorted (keyLe startTs) result /\
    exists added,
      In added result /\ id added = "manual-1"%string /\ isAuto added = false /\
      0 <= startTs added /\ endTs added <= 10000.
Proof.
  destruct (handleAddSegment demoTimeline 10000 10000 3400 [] "manual-1")
    as [result|] eqn:Hres; [|vm_compute in Hres; discriminate].
  exists result. split; [reflexivity|].
  destruct (handleAddSegment_no_overlap demoTimeline 10000 10000 3400 [] "manual-1"
              result Hres) as (Hsorted & added & Hin & Hid & Hauto & H0 & H1 & _).
  split; [exact Hsorted|]. exists added. auto.
Defined.

(** ** What exit code 0 of the smoke script guarantees *)

Module QaSmokePass.

Import QaSmoke QaSmokeProps QaSmokeFacts.

Lemma issues_when_fail (c : bool) (i : Issue) :
  fst (when c (fail i)) = [] -> c = false.
Proof. destruct c; [discriminate | reflexivity]. Qed.

Lemma checkSchemaVersion_pass (version : option Q) (expected : Q)
    (missing : Issue) (mismatch : Q -> Issue) :
  fst (checkSchemaVersion version expected missing mismatch) = [] ->
  exists v, version = Some v /\ v == expected.
Proof.
  unfold checkSchemaVersion. destruct version as [v|]; [|discriminate].
  intro H. apply issues_when_fail in H. apply negb_false_iff in H.
  exists v. split; [reflexivity | apply Qeq_bool_iff, H].
Qed.

Lemma checkTimestamps_pass (project : RawProject) (events : list RawEvent)
    (durationMs : Q) :
  p_durationMs project = Some durationMs ->
  fst (checkTimestamps project events) = [] ->
  forall ts, In ts (finiteTimestamps events) -> 0 <= ts <= durationMs + 1000.
Proof.
  intros Hdur. unfold checkTimestamps. rewrite Hdur.
  destruct (finiteTimestamps events) as [|first rest]; [intros _ ts []|].
  cbv zeta. intro H.
  apply issues_andThen in H. destruct H as [H _].
  apply issues_andThen in H. destruct H as [Hmin Hmax].
  apply issues_when_fail in Hmin, Hmax. apply Qltb_false in Hmin, Hmax.
  destruct (minOf_le first rest) as [Hm1 Hm2]. destruct (maxOf_ge first rest) as [HM1 HM2].
  intros ts [<-|Hts].
  - split; lra.
  - specialize (Hm2 ts Hts). specialize (HM2 ts Hts). split; lra.
Qed.

Lemma checkSegments_pass (durationMs : Q) (segments : list RawSegment) :
  forall previousEnd index,
    fst (checkSegments (Some durationMs) previousEnd index segments) = [] ->
    forall segment, In segment segments -> segmentOk durationMs segment.
Proof.
  induction segments as [|s rest IH]; intros previousEnd index H segment Hin;
    [contradiction|].
  simpl in H.
  destruct (seg_startTs s) as [startTs|] eqn:Es;
    [|apply issues_andThen in H; destruct H; discriminate].
  destruct (seg_endTs s) as [endTs|] eqn:Ee;
    [|apply issues_andThen in H; destruct H; discriminate].
  apply issues_andThen in H. destruct H as [H Hrest].
  destruct Hin as [<-|Hin]; [|apply (IH _ _ Hrest segment Hin)].
  apply issues_andThen in H. destruct H as [H Hrect].
  apply issues_andThen in H. destruct H as [H _].
  apply issues_andThen in H. destruct H as [Hrange Hend].
  apply issues_when_fail in Hrange, Hend.
  apply orb_false_iff in Hrange. destruct Hrange as [Hr1 Hr2].
  apply Qltb_false in Hr1, Hend. apply Qleb_false in Hr2.
  destruct (seg_x s) as [x|] eqn:Ex; [|discriminate].
  destruct (seg_y s) as [y|] eqn:Ey; [|discriminate].
  destruct (seg_width s) as [width|] eqn:Ew; [|discriminate].
  destruct (seg_height s) as [height|] eqn:Eh; [|discriminate].
  apply issues_andThen in Hrect. destruct Hrect as [Hsize Hbounds].
  apply issues_when_fail in Hsize, Hbounds.
  apply orb_false_iff in Hsize. destruct Hsize as [Hw Hh].
  apply Qleb_false in Hw, Hh.
  repeat (apply orb_false_iff in Hbounds; destruct Hbounds as [Hbounds ?Hb]).
  apply Qltb_false in Hbounds, Hb, Hb0, Hb1.
  exists startTs, endTs, x, y, width, height.
  repeat split; assumption.
Qed.

(** Exit code 0 of the smoke script means: both schema versions are 1;
    the project has a non-blank id, equal to the recording id of the events
    file, and a positive duration; the events file and the source video
    exist and the video's duration was read and differs from the project's
    by at most a quarter of the larger of the two; every event time lies
    between 0 and one second past the project's end; and every zoom segment
    has a non-negative start before its end, an end at most 1 ms past the
    project's end, and a target rect of positive size inside the frame, up to
    0.0001. *)
Theorem exit_zero_sound (inputs : Inputs) :
  exitCode inputs = 0%Z ->
  exists version name durationMs file probe videoMs events segments,
    p_schemaVersion (in_project inputs) = Some version /\ version == 1 /\
    p_id (in_project inputs) = JsString name /\ isBlank name = false /\
    p_durationMs (in_project inputs) = Some durationMs /\ 0 < durationMs /\
    in_events inputs = Some file /\
    (exists v, ev_schemaVersion file = Some v /\ v == 1) /\
    ev_recordingId file = Some name /\
    in_video inputs = Some probe /\
    probe_durationMs probe = Some videoMs /\
    Qabs (durationMs - videoMs) <= 0.25 * Qmax durationMs videoMs /\
    ev_events file = Some events /\
    (forall ts, In ts (finiteTimestamps events) -> 0 <= ts <= durationMs + 1000) /\
    p_zoomSegments (in_project inputs) = Some segments /\
    (forall segment, In segment segments -> segmentOk durationMs segment).
Proof.
  unfold exitCode, issues, smoke. cbv zeta.
  set (project := in_project inputs).
  intro Hexit.
  match type of Hexit with
  | match fst ?r with _ => _ end = _ => assert (fst r = []) as H by (destruct (fst r); [reflexivity | discriminate])
  end.
  clear Hexit.
  apply issues_andThen in H. destruct H as [H _].
  apply issues_andThen in H. destruct H as [H Hsegments].
  apply issues_andThen in H. destruct H as [H Hevents].
  apply issues_andThen in H. destruct H as [H Hdrift].
  apply issues_andThen in H. destruct H as [H Hprobe].
  apply issues_andThen in H. destruct H as [H Hheader].
  apply issues_andThen in H. destruct H as [H Hvideo].
  apply issues_andThen in H. destruct H as [Hproject Hfile].
  (* the project header *)
  unfold checkProjectHeader in Hproject.
  apply issues_andThen in Hproject. destruct Hproject as [Hproject Hduration].
  apply issues_andThen in Hproject. destruct Hproject as [Hversion Hid].
  apply checkSchemaVersion_pass in Hversion. destruct Hversion as (version & Hv & Hv1).
  apply issues_when_fail in Hid, Hduration.
  destruct (p_id project) as [| |b|q|name|] eqn:Eid; try discriminate.
  destruct (p_durationMs project) as [durationMs|] eqn:Edur; [|discriminate].
  apply Qleb_false in Hduration.
  (* the files exist *)
  apply issues_when_fail in Hfile, Hvideo.
  destruct (in_events inputs) as [file|]; [|discriminate].
  destruct (in_video inputs) as [probe|]; [|discriminate].
  (* the events header *)
  unfold checkEventsHeader in Hheader.
  apply issues_andThen in Hheader. destruct Hheader as [Hheader Harray].
  apply issues_andThen in Hheader. destruct Hheader as [Heversion Hrid].
  apply checkSchemaVersion_pass in Heversion.
  apply issues_when_fail in Harray.
  destruct (ev_events file) as [events|] eqn:Eevents; [|discriminate].
  destruct (ev_recordingId file) as [rid|] eqn:Erid; [|discriminate].
  destruct (isBlank rid) eqn:Eblank; [discriminate|].
  apply issues_when_fail in Hrid. rewrite Eid in Hrid. simpl in Hrid.
  assert (rid = name) as ->.
  { destruct name as [|c name]; [simpl in Hid; discriminate|].
    simpl in Hrid. apply negb_false_iff in Hrid. apply strEqb_eq, Hrid. }
  (* the probe and the drift *)
  unfold checkVideoProbe in Hprobe.
  apply issues_andThen in Hprobe. destruct Hprobe as [Hprobe _].
  apply issues_when_fail in Hprobe.
  destruct (probe_durationMs probe) as [videoMs|] eqn:Evideo; [|discriminate].
  unfold checkDurationDrift in Hdrift. rewrite Edur, Evideo in Hdrift. cbv zeta in Hdrift.
  assert (Qabs (durationMs - videoMs) <= 0.25 * Qmax durationMs videoMs) as Hdelta.
  { assert (0 < Qmax durationMs videoMs) as Hbase by (split_minmax; lra).
    assert (Qltb 0 (Qmax durationMs videoMs) = true) as Hb by (apply Qltb_true, Hbase).
    rewrite Hb in Hdrift.
    destruct (Qltb 0.25 _) eqn:Hratio; [discriminate|].
    apply Qltb_false in Hratio.
    set (delta := Qabs (durationMs - videoMs)) in *.
    set (baseline := Qmax durationMs videoMs) in *.
    assert (delta == delta / baseline * baseline) as -> by (field; lra).
    apply Qmult_le_compat_r; lra. }
  (* the events and the segments *)
  apply issues_andThen in Hevents. destruct Hevents as [Htimes _].
  pose proof (checkTimestamps_pass project events durationMs Edur Htimes) as Hts.
  destruct (p_zoomSegments project) as [segments|] eqn:Esegs; [|discriminate].
  pose proof (checkSegments_pass durationMs segments None 0%nat Hsegments) as Hsegs.
  exists version, name, durationMs, file, probe, videoMs, events, segments.
  unfold PROJECT_SCHEMA_VERSION, EVENTS_SCHEMA_VERSION in *.
  repeat (split; [first [reflexivity | assumption]|]). assumption.
Qed.

(** The passing inputs with the out-of-order events. *)
Lemma exit_zero_sound_witness :
  exists durationMs segments,
    p_durationMs (in_project outOfOrderInputs) = Some durationMs /\
    p_zoomSegments (in_project outOfOrderInputs) = Some segments /\
    (forall segment, In segment segments -> segmentOk durationMs segment).
Proof.
  destruct (exit_zero_sound outOfOrderInputs)
    as (version & name & durationMs & file & probe & videoMs & events & segments & H);
    [reflexivity|].
  exists durationMs, segments.
  destruct H as (_ & _ & _ & _ & Hd & _ & _ & _ & _ & _ & _ & _ & _ & _ & Hs & Hok).
  auto.
Defined.

End QaSmokePass.

(** ** The bar drawn for a segment *)

Lemma searchBoundary_range {A : Type} (goRight : A -> bool) (d : A) (items : list A) :
  forall fuel low high l h,
    searchBoundary goRight d fuel items low high = Some (l, h) ->
    (low <= l)%Z /\ (h <= high)%Z.
Proof.
  induction fuel as [|fuel IH]; intros low high l h Hrun; simpl in Hrun.
  - destruct (high <? low)%Z; [|discriminate]. injection Hrun as <- <-. lia.
  - destruct (high <? low)%Z eqn:Hcmp; [injection Hrun as <- <-; lia|].
    apply Z.ltb_ge in Hcmp. pose proof (midpoint_between low high Hcmp) as Hmid.
    destruct (goRight _); apply IH in Hrun; lia.
Qed.

(** On any non-empty track, ordered or not, both index searches return
    an index of the track. *)
Lemma findTrackIndex_range (track : list SpringCameraSample) (ts : Q) :
  track <> [] ->
  (exists i, findTrackIndexAtOrAfter track ts = Some i /\
             (0 <= i < Z.of_nat (length track))%Z) /\
  (exists i, findTrackIndexAtOrBefore track ts = Some i /\
             (0 <= i < Z.of_nat (length track))%Z).
Proof.
  intro Hne. destruct track as [|first rest]; [contradiction|].
  set (track := first :: rest) in *.
  assert (0 < length track)%nat as Hlen by (unfold track; simpl; lia).
  split.
  - change (findTrackIndexAtOrAfter track ts)
      with (if Qleb ts (sample_ts first) then Some 0%Z
            else match searchBoundary (fun s => Qltb (sample_ts s) ts) first (length track)
                         track 0 (Z.of_nat (length track) - 1) with
                 | None => None
                 | Some (low, _) => Some (Z.min low (Z.of_nat (length track) - 1))
                 end).
    destruct (Qleb ts (sample_ts first)); [exists 0%Z; split; [reflexivity | lia]|].
    destruct (searchBoundary_total first (fun s => Qltb (sample_ts s) ts) track
                (length track) 0 (Z.of_nat (length track) - 1)) as [[l h] Hr]; [lia|].
    rewrite Hr. apply searchBoundary_range in Hr.
    eexists. split; [reflexivity | lia].
  - change (findTrackIndexAtOrBefore track ts)
      with (if Qleb (sample_ts (last track first)) ts
            then Some (Z.of_nat (length track) - 1)%Z
            else match searchBoundary (fun s => Qleb (sample_ts s) ts) first (length track)
                         track 0 (Z.of_nat (length track) - 1) with
                 | None => None
                 | Some (_, high) => Some (Z.max 0 high)
                 end).
    destruct (Qleb (sample_ts (last track first)) ts);
      [eexists; split; [reflexivity | lia]|].
    destruct (searchBoundary_total first (fun s => Qleb (sample_ts s) ts) track
                (length track) 0 (Z.of_nat (length track) - 1)) as [[l h] Hr]; [lia|].
    rewrite Hr. apply searchBoundary_range in Hr.
    eexists. split; [reflexivity | lia].
Qed.

Lemma extendRight_returns (track : list SpringCameraSample) (d : SpringCameraSample) :
  forall fuel index,
    (length track - index <= fuel)%nat ->
    exists r, extendRight track d fuel index = Some r /\
              (index <= r)%nat /\ ((index < length track)%nat -> (r < length track)%nat).
Proof.
  induction fuel as [|fuel IH]; intros index Hfuel; simpl.
  - assert ((index + 1 <? length track)%nat = false) as -> by (apply Nat.ltb_ge; lia).
    simpl. exists index. auto.
  - destruct (index + 1 <? length track)%nat eqn:Hin; simpl;
      [|exists index; auto].
    apply Nat.ltb_lt in Hin.
    destruct (isVisuallyActiveAt track d (index + 1)); [|exists index; auto].
    destruct (IH (index + 1)%nat ltac:(lia)) as (r & Hr & Hle & Hlt).
    exists r. split; [exact Hr|]. split; [lia|]. intros _. apply Hlt. exact Hin.
Qed.

Lemma extendLeft_le (track : list SpringCameraSample) (d : SpringCameraSample)
    (index : nat) :
  (extendLeft track d index <= index)%nat.
Proof.
  induction index as [|i IH]; simpl; [lia|].
  destruct (isVisuallyActiveAt track d i); lia.
Qed.

Lemma peak_in_range (track : list SpringCameraSample) (d : SpringCameraSample)
    (indices : list nat) :
  forall st,
    fst (fold_left (peakStep track d) indices st) = fst st \/
    In (fst (fold_left (peakStep track d) indices st)) indices.
Proof.
  induction indices as [|i indices IH]; intro st; simpl; [left; reflexivity|].
  destruct (IH (peakStep track d st i)) as [H|H]; [|right; right; exact H].
  rewrite H. unfold peakStep. destruct (Qltb _ _); simpl; auto.
Qed.

Lemma resolveSegmentVisualBounds_cases (segment : RuntimeSegment)
    (track : list SpringCameraSample) :
  exists bounds,
    resolveSegmentVisualBounds segment track = Some bounds /\
    (bounds = mkBounds (rt_startTs segment) (rt_endTs segment) \/
     (vb_startTs bounds <= rt_startTs segment /\
      vb_startTs bounds < vb_endTs bounds /\
      exists sample, In sample track /\ vb_endTs bounds = sample_ts sample)).
Proof.
  unfold resolveSegmentVisualBounds. cbv zeta.
  destruct track as [|first rest]; [eauto|].
  set (track := first :: rest) in *.
  destruct (findTrackIndex_range track (rt_startTs segment) ltac:(discriminate))
    as [(rangeStart & -> & Hrs) _].
  destruct (findTrackIndex_range track (rt_endTs segment) ltac:(discriminate))
    as [_ (rangeEnd & -> & Hre)].
  destruct ((rangeStart <? 0)%Z || (rangeEnd <? rangeStart)%Z) eqn:Hrange; [eauto|].
  apply orb_false_iff in Hrange. destruct Hrange as [_ Horder]. apply Z.ltb_ge in Horder.
  set (indices := seq (Z.to_nat rangeStart) (S (Z.to_nat rangeEnd) - Z.to_nat rangeStart)).
  assert (forall i, In i indices -> (i < length track)%nat) as Hindices.
  { intros i Hi. unfold indices in Hi. apply in_seq in Hi. lia. }
  pose proof (peak_in_range track first indices (Z.to_nat rangeStart, 1)) as Hpeak.
  destruct (fold_left (peakStep track first) indices (Z.to_nat rangeStart, 1))
    as [peakIndex0 peakZoom].
  simpl in Hpeak.
  assert (peakIndex0 < length track)%nat as Hp0
      by (destruct Hpeak as [->|Hin]; [lia | apply Hindices, Hin]).
  set (peak := if Qleb peakZoom (1 + TIMELINE_VISUAL_ZOOM_EPSILON)
               then find (isVisuallyActiveAt track first) indices
               else Some peakIndex0).
  assert (forall p, peak = Some p -> (p < length track)%nat) as Hp.
  { intros p. unfold peak. destruct (Qleb peakZoom _).
    - intro Hfind. apply find_some in Hfind. apply Hindices, Hfind.
    - intro H. injection H as <-. exact Hp0. }
  destruct peak as [peakIndex|]; [|eauto].
  specialize (Hp peakIndex eq_refl).
  destruct (extendRight_returns track first (length track) peakIndex ltac:(lia))
    as (visualEndIndex & -> & _ & Hend).
  specialize (Hend Hp).
  destruct (Qleb _ _) eqn:Hempty; [eauto|].
  apply Qleb_false in Hempty.
  eexists. split; [reflexivity|]. right. cbn [vb_startTs vb_endTs].
  split; [|split; [exact Hempty|]].
  - destruct (Qltb (rt_startTs segment) _) eqn:Hanchor; [lra|].
    apply Qltb_false in Hanchor. exact Hanchor.
  - eexists. split; [apply nth_In; exact Hend | reflexivity].
Qed.

(** The visual bounds of a segment are always returned.  They are the
    segment's own bounds when the track is empty; otherwise they are either
    the segment's own bounds, or they start no later than the segment, end
    after they start, and end at the time of a sample of the track. *)
Theorem resolveSegmentVisualBounds_bounds (segment : RuntimeSegment)
    (track : list SpringCameraSample) :
  resolveSegmentVisualBounds segment []
  = Some (mkBounds (rt_startTs segment) (rt_endTs segment)) /\
  exists bounds,
    resolveSegmentVisualBounds segment track = Some bounds /\
    vb_startTs bounds <= rt_startTs segment /\
    (bounds = mkBounds (rt_startTs segment) (rt_endTs segment) \/
     (vb_startTs bounds < vb_endTs bounds /\
      exists sample, In sample track /\ vb_endTs bounds = sample_ts sample)).
Proof.
  split; [reflexivity|].
  destruct (resolveSegmentVisualBounds_cases segment track)
    as (bounds & Hrun & [->|(Hstart & Hlen & Hsample)]).
  - eexists. split; [exact Hrun|]. split; [simpl; lra | left; reflexivity].
  - exists bounds. auto.
Qed.

(** The bar of a segment that starts at least 1 ms before the end of the
    timeline: whatever the camera track, it starts at the segment's start,
    lasts at least 1 ms, ends inside the timeline, and reaches at most
    200 ms past the segment's end (or 1 ms past its start, if that is
    later). *)
Theorem segmentVisualSpan_anchored (segment : ZoomSegment) (runtime : RuntimeSegment)
    (track : list SpringCameraSample) (timelineDurationMs : Q) :
  rt_startTs runtime = startTs segment ->
  startTs segment + 1 <= timelineDurationMs ->
  exists bounds,
    resolveSegmentVisualBounds runtime track = Some bounds /\
    let span := segmentVisualSpan segment bounds timelineDurationMs in
    fst span == startTs segment /\
    fst span + 1 <= snd span <= timelineDurationMs /\
    snd span <= Qmax (startTs segment + 1)
                     (endTs segment + TIMELINE_VISUAL_RETURN_TAIL_MS).
Proof.
  intros Hruntime Hroom.
  destruct (resolveSegmentVisualBounds_cases runtime track) as (bounds & Hrun & Hcases).
  exists bounds. split; [exact Hrun|].
  assert (vb_startTs bounds <= startTs segment) as Hstart.
  { rewrite <- Hruntime. destruct Hcases as [->|[H _]]; [simpl; lra | exact H]. }
  cbv zeta. unfold segmentVisualSpan, TIMELINE_VISUAL_RETURN_TAIL_MS.
  set (S := startTs segment) in *. set (E := endTs segment).
  set (D := timelineDurationMs) in *.
  set (startTs0 := clamp (vb_startTs bounds) S D).
  assert (startTs0 == S) as Hs0 by (unfold startTs0, clamp; split_minmax; lra).
  set (endTs0 := clamp (vb_endTs bounds) (startTs0 + 1) D).
  set (maxOwn := Qmin D (E + 200)).
  set (endTs1 := clamp endTs0 (startTs0 + 1) (Qmax (startTs0 + 1) maxOwn)).
  assert (startTs0 + 1 <= endTs1 <= Qmax (startTs0 + 1) maxOwn) as [He1 He2].
  { apply clamp_bounds. split_minmax; lra. }
  assert (Qleb endTs1 startTs0 = false) as -> by (apply Qleb_false; lra).
  cbn [fst snd]. split; [exact Hs0|]. split; [split; [exact He1|]|].
  - revert He2. unfold maxOwn. split_minmax; lra.
  - revert He2. unfold maxOwn. split_minmax; lra.
Qed.

(** The late auto segment against a track that never zooms. *)
Lemma segmentVisualSpan_anchored_witness :
  exists bounds,
    resolveSegmentVisualBounds
      (mkRuntimeSegment "late" 1000 3000 true FollowCursor AutoClick DEFAULT_RECT []
         DEFAULT_SPRING)
      [mkSample 0 FULL_RECT; mkSample 2000 FULL_RECT] = Some bounds /\
    let span := segmentVisualSpan lateZoomSegment bounds 5000 in
    fst span == 1000 /\
    fst span + 1 <= snd span <= 5000 /\
    snd span <= Qmax (1000 + 1) (3000 + TIMELINE_VISUAL_RETURN_TAIL_MS).
Proof.
  apply (segmentVisualSpan_anchored lateZoomSegment
           (mkRuntimeSegment "late" 1000 3000 true FollowCursor AutoClick DEFAULT_RECT []
              DEFAULT_SPRING)
           [mkSample 0 FULL_RECT; mkSample 2000 FULL_RECT] 5000).
  - reflexivity.
  - discriminate.
Defined.

(** ** The trim on tied target points *)

(** C9 on the code.  The trim finds the index of the first effective
    target point but then keeps the points by time
    ([point.ts >= effectiveStartTs]), not from that index on.  For the auto
    segment [[1000, 3000]] with a full-frame point and a zoomed point both at
    1000 ms (also reached from a full-frame point at 900 ms, which
    [getSegmentTargetPoints] moves to 1000), the leading full-frame point,
    of zoom strength 1, is kept in front of the zoomed one and becomes
    [initialRect].  The runtime segment of an auto segment follows the
    cursor over the base rect, which comes from [initialRect]: the kept
    segment never zooms. *)
Theorem trimAutoNoopSegment_keeps_tied_noop :
  exists trimmed p q rest,
    trimAutoNoopSegment tieSegment = Some trimmed /\
    targetPoints trimmed = p :: q :: rest /\
    In p (getSegmentTargetPoints tieSegment) /\
    getZoomStrength (tp_rect p) <= 1 + EFFECTIVE_ZOOM_EPSILON /\
    1 + EFFECTIVE_ZOOM_EPSILON < getZoomStrength (tp_rect q) /\
    tp_rect p = FULL_RECT /\
    initialRect trimmed = Some (tp_rect p) /\
    (exists trimmed',
       trimAutoNoopSegment earlyPointSegment = Some trimmed' /\
       targetPoints trimmed' = targetPoints trimmed /\
       initialRect trimmed' = Some FULL_RECT) /\
    forall cursorSamples sourceWidth sourceHeight,
    exists runtime,
      toRuntimeSegment cursorSamples sourceWidth sourceHeight trimmed = Some runtime /\
      baseRect runtime = FULL_RECT /\
      forall timelineTs, getZoomStrength (getTargetRectAtTs runtime timelineTs) == 1.
Proof.
  eexists. eexists. eexists. eexists.
  split; [vm_compute; reflexivity|].
  split; [reflexivity|].
  split; [vm_compute; left; reflexivity|].
  split; [vm_compute; discriminate|].
  split; [vm_compute; reflexivity|].
  split; [reflexivity|]. split; [reflexivity|].
  split; [eexists; split; [vm_compute; reflexivity | split; reflexivity]|].
  intros cursorSamples sourceWidth sourceHeight.
  unfold toRuntimeSegment. cbv zeta.
  match goal with
  | |- context [normalizeZoomSegment ?t] => set (segment := normalizeZoomSegment t)
  end.
  assert (getSegmentBaseRect segment = FULL_RECT) as Hbase by (vm_compute; reflexivity).
  assert (mode segment = Some FollowCursor) as -> by reflexivity.
  rewrite Hbase.
  destruct (buildFollowCursorTargetPoints_shape segment FULL_RECT cursorSamples
              sourceWidth sourceHeight FULL_RECT_inFrame)
    as (points & -> & _ & _ & _ & Hall & _).
  eexists. split; [reflexivity|]. cbn [baseRect]. split; [reflexivity|].
  intro timelineTs.
  match goal with
  | |- getZoomStrength (getTargetRectAtTs ?rt _) == 1 =>
      destruct (getTargetRectAtTs_In rt timelineTs) as [->|(pt & Hpt & ->)]
  end.
  - reflexivity.
  - cbn [rt_targetPoints] in Hpt. destruct (Hall pt Hpt) as (_ & Hw & Hh).
    unfold getZoomStrength. rewrite Hw, Hh. reflexivity.
Qed.

(** ** The smoothing contract, exactly and in binary64 *)

Module Binary64Facts.

Import PrimFloat Binary64.
#[local] Set Warnings "-inexact-float".

Lemma smoothSamples64_length (alpha sx sy : float) (rest : list CursorSample64) :
  length (smoothSamples64 alpha sx sy rest) = length rest.
Proof.
  revert sx sy. induction rest as [|s rest IH]; intros sx sy; simpl;
    [reflexivity | now rewrite IH].
Qed.

(** The recurrence of the loop at index [i] of the tail, each operation
    being the binary64 one: the previous output is the seed for [i = 0]. *)
Lemma smoothSamples64_nth (alpha : float) (rest : list CursorSample64) :
  forall sx sy i,
    (i < length rest)%nat ->
    let out := smoothSamples64 alpha sx sy rest in
    let prevX := match i with O => sx | S j => cs64_x (nth j out emptySample64) end in
    let prevY := match i with O => sy | S j => cs64_y (nth j out emptySample64) end in
    cs64_ts (nth i out emptySample64) = cs64_ts (nth i rest emptySample64) /\
    cs64_x (nth i out emptySample64)
      = (prevX + alpha * (cs64_x (nth i rest emptySample64) - prevX))%float /\
    cs64_y (nth i out emptySample64)
      = (prevY + alpha * (cs64_y (nth i rest emptySample64) - prevY))%float.
Proof.
  induction rest as [|s rest IH]; intros sx sy i Hi; simpl in Hi; [lia|].
  destruct i as [|i]; simpl.
  - repeat split.
  - specialize (IH (sx + alpha * (cs64_x s - sx))%float
                   (sy + alpha * (cs64_y s - sy))%float i ltac:(lia)).
    destruct i as [|i]; simpl in *; exact IH.
Qed.

Lemma smoothSorted64_ewma (sorted : list CursorSample64) (smoothingFactor : float) :
  let out := smoothSorted64 sorted smoothingFactor in
  let alpha := ewmaAlpha64 smoothingFactor in
  length out = length sorted /\
  nth 0 out emptySample64 = nth 0 sorted emptySample64 /\
  forall i, (0 < i < length sorted)%nat ->
    cs64_ts (nth i out emptySample64) = cs64_ts (nth i sorted emptySample64) /\
    cs64_x (nth i out emptySample64)
      = (cs64_x (nth (i - 1) out emptySample64)
         + alpha * (cs64_x (nth i sorted emptySample64)
                    - cs64_x (nth (i - 1) out emptySample64)))%float /\
    cs64_y (nth i out emptySample64)
      = (cs64_y (nth (i - 1) out emptySample64)
         + alpha * (cs64_y (nth i sorted emptySample64)
                    - cs64_y (nth (i - 1) out emptySample64)))%float.
Proof.
  cbv zeta. unfold smoothSorted64.
  destruct sorted as [|first [|second rest]].
  - split; [reflexivity|]. split; [reflexivity|]. intros i Hi. simpl in Hi. lia.
  - split; [reflexivity|]. split; [reflexivity|]. intros i Hi. simpl in Hi. lia.
  - split; [simpl; now rewrite smoothSamples64_length|]. split; [reflexivity|].
    intros i Hi. destruct i as [|i]; [lia|].
    replace (S i - 1)%nat with i by lia.
    pose proof (smoothSamples64_nth (ewmaAlpha64 smoothingFactor) (second :: rest)
                  (cs64_x first) (cs64_y first) i ltac:(simpl in *; lia))
      as (Hts & Hx & Hy).
    cbv zeta in Hx, Hy.
    change (nth (S i) (first :: ?l) emptySample64) with (nth i l emptySample64).
    split; [exact Hts|].
    rewrite Hx, Hy. destruct i as [|i]; simpl; split; reflexivity.
Qed.

(** C6, as the code has it.  The cursor pipeline applies the exponential
    moving average [out[i] = out[i-1] + alpha * (in[i] - out[i-1])],
    [out[0] = in[0]], with [alpha = 1 - clamp(smoothingFactor, 0, 1) * 0.9],
    to the normalized samples sorted by time; sample times are kept.
    - Over exact arithmetic, for every events file with a positive screen
      size and every [smoothingFactor] in [[0, 1]]: [smoothingFactor = 0]
      gives output samples equal to the input samples and
      [smoothingFactor = 1] gives the coefficient 0.1.
    - In the binary64 arithmetic of the code, for every list of sorted
      samples and every smoothing factor, the same recurrence holds with each
      operation rounded; [smoothingFactor = 0] gives [alpha = 1] and
      [smoothingFactor = 1] gives [alpha = 0.09999999999999998], the double
      nearest to [1 - 0.9], which is not the double [0.1]. *)
Theorem extractCursorSamples_ewma (file : EventsFile) (smoothingFactor : Q)
    (sorted64 : list CursorSample64) (smoothingFactor64 : float) :
  0 < screenWidth file -> 0 < screenHeight file -> 0 <= smoothingFactor <= 1 ->
  (let input := sortBy cs_ts (normalizedSamples file) in
   let out := extractCursorSamples (Some file) smoothingFactor in
   let alpha := 1 - 0.9 * smoothingFactor in
   let ewma (a : Q) (i : nat) :=
     cs_ts (nth i out emptySample) = cs_ts (nth i input emptySample) /\
     cs_x (nth i out emptySample)
       == cs_x (nth (i - 1) out emptySample)
          + a * (cs_x (nth i input emptySample) - cs_x (nth (i - 1) out emptySample)) /\
     cs_y (nth i out emptySample)
       == cs_y (nth (i - 1) out emptySample)
          + a * (cs_y (nth i input emptySample) - cs_y (nth (i - 1) out emptySample)) in
   Sorted (keyLe cs_ts) input /\ Permutation input (normalizedSamples file) /\
   length out = length input /\
   nth 0 out emptySample = nth 0 input emptySample /\
   (forall i, (0 < i < length input)%nat -> ewma alpha i) /\
   (smoothingFactor == 0 -> Forall2 sampleEq out input) /\
   (smoothingFactor == 1 -> forall i, (0 < i < length input)%nat -> ewma 0.1 i)) /\
  (let out64 := smoothSorted64 sorted64 smoothingFactor64 in
   let alpha64 := ewmaAlpha64 smoothingFactor64 in
   length out64 = length sorted64 /\
   nth 0 out64 emptySample64 = nth 0 sorted64 emptySample64 /\
   forall i, (0 < i < length sorted64)%nat ->
     cs64_ts (nth i out64 emptySample64) = cs64_ts (nth i sorted64 emptySample64) /\
     cs64_x (nth i out64 emptySample64)
       = (cs64_x (nth (i - 1) out64 emptySample64)
          + alpha64 * (cs64_x (nth i sorted64 emptySample64)
                       - cs64_x (nth (i - 1) out64 emptySample64)))%float /\
     cs64_y (nth i out64 emptySample64)
       = (cs64_y (nth (i - 1) out64 emptySample64)
          + alpha64 * (cs64_y (nth i sorted64 emptySample64)
                       - cs64_y (nth (i - 1) out64 emptySample64)))%float) /\
  ewmaAlpha64 0 = 1%float /\
  ewmaAlpha64 1 = 0.09999999999999998%float /\
  (ewmaAlpha64 1 =? 0.1)%float = false.
Proof.
  intros Hw Hh Hsf.
  split; [apply (extractCursorSamples_ewma_exact file smoothingFactor Hw Hh Hsf)|].
  split; [apply smoothSorted64_ewma|].
  split; [vm_compute; reflexivity|]. split; vm_compute; reflexivity.
Qed.

(** The demo recording without smoothing, over exact arithmetic, and the
    two far samples in binary64. *)
Lemma extractCursorSamples_ewma_witness :
  Forall2 sampleEq (extractCursorSamples (Some demoEvents) 0)
    (sortBy cs_ts (normalizedSamples demoEvents)) /\
  length (extractCursorSamples (Some demoEvents) 0) = 3%nat /\
  length (smoothSorted64 farSamples64 0) = 2%nat.
Proof.
  destruct (extractCursorSamples_ewma demoEvents 0 farSamples64 0%float)
    as ((_ & _ & Hlen & _ & _ & Hid & _) & (Hlen64 & _) & _);
    [reflexivity | reflexivity | split; discriminate |].
  split; [apply Hid; reflexivity|]. split; [exact Hlen | exact Hlen64].
Defined.

(** The two "exact" parts of the contract do not hold of the numbers the
    code computes.  With [smoothingFactor = 1] the coefficient is not 0.1;
    with [smoothingFactor = 0] the coefficient is 1, but from 0.9 the
    smoothed value of the input 0.1 is
    [0.9 + 1 * (0.1 - 0.9) = 0.09999999999999998], not the input. *)
Lemma smoothing_not_exact_in_binary64 :
  (ewmaAlpha64 1 =? 0.1)%float = false /\
  ewmaAlpha64 0 = 1%float /\
  exists out,
    smoothSorted64 farSamples64 0 = [mkCursorSample64 0 0.9 0.9; out] /\
    cs64_ts out = 17%float /\
    cs64_x out = 0.09999999999999998%float /\
    (cs64_x out =? cs64_x (nth 1 farSamples64 emptySample64))%float = false.
Proof.
  split; [vm_compute; reflexivity|]. split; [vm_compute; reflexivity|].
  eexists. split; [vm_compute; reflexivity|].
  split; [reflexivity|]. split; vm_compute; reflexivity.
Qed.

End Binary64Facts.
